(** * vite-plugin-i18n: the plugin hooks of [src/vite.ts]

    A shallow embedding of the build hooks returned by [i18nPlugin]
    ([configResolved], [buildStart], [load], [transform],
    [generateBundle]) and of the state module that [load] generates,
    followed by the properties of the locale store, the virtual modules
    and the bundle replication. *)

From Stdlib Require Import Ascii String.
From Corelib Require Import Floats.SpecFloat.
From stdpp Require Import gmap strings list fin_maps pretty.

Local Open Scope string_scope.
Local Open Scope list_scope.
#[local] Set Warnings "-register-all".

(** ** JavaScript values read from locale files *)

(** A parsed JSON document.  A number is the double that [JSON.parse]
    yields for its literal: a literal too small for a double is a zero,
    one too large is an infinity.  A string is the sequence of its code
    units. *)
Inductive JSON : Type :=
| JNull
| JBool (b : bool)
| JNum (x : spec_float)
| JStr (s : string)
| JArr (items : list JSON)
| JObj (props : gmap string JSON).

(** The property names every plain object inherits from
    [Object.prototype]; each of them holds a function (or, for
    [__proto__], the prototype object itself). *)
Definition Object_prototype : list string :=
  [ "constructor"; "hasOwnProperty"; "isPrototypeOf"; "propertyIsEnumerable";
    "toLocaleString"; "toString"; "valueOf"; "__proto__";
    "__defineGetter__"; "__defineSetter__";
    "__lookupGetter__"; "__lookupSetter__" ].

(** The outcome of [obj[key]] on a plain object ([{}] or an object
    literal) whose own properties are the map [obj]. *)
Inductive Prop_ (V : Type) : Type :=
| Own (v : V)
| Inherited (name : string)
| Undefined.
Arguments Own {V} v.
Arguments Inherited {V} name.
Arguments Undefined {V}.

Definition obj_get {V : Type} (obj : gmap string V) (key : string) : Prop_ V :=
  match obj !! key with
  | Some v => Own v
  | None => if bool_decide (key ∈ Object_prototype) then Inherited key else Undefined
  end.

(** JavaScript truthiness of a JSON value. *)
Definition truthy (v : JSON) : bool :=
  match v with
  | JNull => false
  | JBool b => b
  | JNum (S754_zero _) | JNum S754_nan => false
  | JNum _ => true
  | JStr s => negb (bool_decide (s = ""))
  | JArr _ | JObj _ => true
  end.

(** Truthiness of the outcome of a property read. *)
Definition truthy_prop {V : Type} (tr : V → bool) (p : Prop_ V) : bool :=
  match p with
  | Own v => tr v
  | Inherited _ => true
  | Undefined => false
  end.

(** [tr && typeof tr === 'object'] *)
Definition is_object (tr : JSON) : bool :=
  match tr with
  | JArr _ | JObj _ => true
  | _ => false
  end.

(** [data.key] on a parsed document that is not [null]: only objects
    carry the four properties the hooks read. *)
Definition field (data : JSON) (key : string) : Prop_ JSON :=
  match data with
  | JObj props => obj_get props key
  | _ => Undefined
  end.

(** [data.key = v] on a parsed object. *)
Definition set_field (data : JSON) (key : string) (v : JSON) : JSON :=
  match data with
  | JObj props => JObj (<[key := v]> props)
  | _ => data
  end.

(** Whether the conversion to a string in [`${v}`] throws a
    [TypeError].  A plain object is converted by its [toString], then by
    its [valueOf]: an own property of a parsed document is never a
    function, and the [valueOf] of [Object.prototype] returns the object
    itself, so the conversion fails exactly when the document gave the
    object a property named [toString].  An array is converted by
    [join], which converts every element other than [null] in turn. *)
Fixpoint ToString_throws (v : JSON) : bool :=
  match v with
  | JObj props => bool_decide (is_Some (props !! "toString"))
  | JArr items => existsb ToString_throws items
  | _ => false
  end.

(** The same for the outcome of a property read: [undefined] and a
    function have a text. *)
Definition template_throws (p : Prop_ JSON) : bool :=
  match p with
  | Own v => ToString_throws v
  | _ => false
  end.

(** What [JSON.parse] reads back from the text that [JSON.stringify]
    printed for a value: an infinity is printed as [null] and the
    negative zero as [0], at every depth; every other number is printed
    so that it reads back as itself. *)
Fixpoint printed (v : JSON) : JSON :=
  match v with
  | JNum (S754_zero _) => JNum (S754_zero false)
  | JNum (S754_finite _ _ _) => v
  | JNum _ => JNull
  | JArr items => JArr (printed <$> items)
  | JObj props => JObj (printed <$> props)
  | _ => v
  end.

(** ** The locale pattern *)

Definition is_lower (c : ascii) : bool :=
  let n := nat_of_ascii c in (97 <=? n)%nat && (n <=? 122)%nat.
Definition is_upper (c : ascii) : bool :=
  let n := nat_of_ascii c in (65 <=? n)%nat && (n <=? 90)%nat.
Definition is_sep (c : ascii) : bool :=
  bool_decide (c = "_"%char) || bool_decide (c = "-"%char).

(** [/^([a-z]{2})([_-]([A-Z]{2}))?$/.exec(locale)]: the groups
    [match[1]] and [match[3]] of a successful match. *)
Definition exec_locale (locale : string) : option (string * option string) :=
  match locale with
  | String a (String b rest) =>
      if is_lower a && is_lower b then
        match rest with
        | EmptyString => Some (String a (String b ""), None)
        | String s (String c (String d EmptyString)) =>
            if is_sep s && is_upper c && is_upper d
            then Some (String a (String b ""), Some (String c (String d "")))
            else None
        | _ => None
        end
      else None
  | _ => None
  end.

(** ** Errors, the disk and the plugin's variables *)

Inductive Error : Type :=
| InvalidLocale (locale : string)
| LocaleMismatch (localeFile : string) (found : Prop_ JSON) (locale : string)
| InvalidFallback (localeFile : string) (fallback : JSON)
| CircularFallback (localeFile : string) (fallback : string)
| JsonSyntaxError (localeFile : string)
| ENOENT (path : string)
| TypeError (message : string).

(** The text of a file, taken up to JSON equivalence: a text that
    [JSON.parse] accepts is given by the document it is read as, and
    [JSON.stringify] yields the text of what it printed; any other text
    is rejected by [JSON.parse]. *)
Inductive FileText : Type :=
| Json (doc : JSON)
| Malformed (raw : string).

Definition JSON_stringify (data : JSON) : FileText := Json (printed data).
Definition JSON_parse (text : FileText) : option JSON :=
  match text with
  | Json doc => Some doc
  | Malformed _ => None
  end.

(** What [i18nPlugin] keeps in its closure. *)
Record Plugin : Type := {
  locales : list string;
  defaultLocale : option string;
  localesDirAbs : string
}.

Record Options : Type := {
  opt_locales : option (list string);
  opt_localesDir : option string;
  opt_defaultLocale : option string
}.

(** The variables the hooks share, and the files below the locales
    directory (path to text; directories are not represented, so
    [mkdirSync] leaves the map as it is). *)
Record World : Type := {
  shouldInline : bool;
  translations : gmap string JSON;
  pluralKeys : gset string;
  localeNames : gmap string JSON;
  disk : gmap string FileText
}.

Definition set_shouldInline (b : bool) (w : World) : World :=
  {| shouldInline := b; translations := translations w;
     pluralKeys := pluralKeys w; localeNames := localeNames w; disk := disk w |}.
Definition set_translations (t : gmap string JSON) (w : World) : World :=
  {| shouldInline := shouldInline w; translations := t;
     pluralKeys := pluralKeys w; localeNames := localeNames w; disk := disk w |}.
Definition set_pluralKeys (s : gset string) (w : World) : World :=
  {| shouldInline := shouldInline w; translations := translations w;
     pluralKeys := s; localeNames := localeNames w; disk := disk w |}.
Definition set_localeNames (n : gmap string JSON) (w : World) : World :=
  {| shouldInline := shouldInline w; translations := translations w;
     pluralKeys := pluralKeys w; localeNames := n; disk := disk w |}.
Definition set_disk (d : gmap string FileText) (w : World) : World :=
  {| shouldInline := shouldInline w; translations := translations w;
     pluralKeys := pluralKeys w; localeNames := localeNames w; disk := d |}.

(** ** Hooks: state passing with exceptions and loops on fuel *)

Inductive outcome (A : Type) : Type :=
| Return (a : A)
| Throw (e : Error)
| OutOfFuel.
Arguments Return {A} a.
Arguments Throw {A} e.
Arguments OutOfFuel {A}.

(** Sequencing of steps that do not touch the world. *)
Definition and_then {A B : Type} (o : outcome A) (k : A → outcome B) : outcome B :=
  match o with
  | Return a => k a
  | Throw e => Throw e
  | OutOfFuel => OutOfFuel
  end.

Definition Hook (A : Type) : Type := World → outcome A * World.

Definition ret {A : Type} (a : A) : Hook A := fun w => (Return a, w).
Definition throw {A : Type} (e : Error) : Hook A := fun w => (Throw e, w).
Definition lift {A : Type} (o : outcome A) : Hook A := fun w => (o, w).
Definition bind {A B : Type} (m : Hook A) (k : A → Hook B) : Hook B :=
  fun w =>
    match m w with
    | (Return a, w') => k a w'
    | (Throw e, w') => (Throw e, w')
    | (OutOfFuel, w') => (OutOfFuel, w')
    end.
Definition gets {A : Type} (f : World → A) : Hook A := fun w => (Return (f w), w).
Definition modify (f : World → World) : Hook unit := fun w => (Return tt, f w).

Notation "'let*' x ':=' m 'in' k" := (bind m (fun x => k))
  (at level 10, x pattern, m at level 100, k at level 200).
Notation "m ';;' k" := (bind m (fun _ => k))
  (at level 100, k at level 200, right associativity).

(** ** [i18nPlugin] and [configResolved] *)

(** [config.build.ssr] is a boolean or the path of the server entry. *)
Inductive SsrOption : Type :=
| SsrFlag (b : bool)
| SsrEntry (entry : string).

Record ResolvedConfig : Type := {
  build_ssr : SsrOption;
  isProduction : bool
}.

Definition truthy_ssr (ssr : SsrOption) : bool :=
  match ssr with
  | SsrFlag b => b
  | SsrEntry entry => negb (bool_decide (entry = ""))
  end.

Definition configResolved (config : ResolvedConfig) : Hook unit :=
  modify (set_shouldInline (truthy_ssr (build_ssr config) || negb (isProduction config))).

(** ** [buildStart] *)

Definition existsSync (path : string) : Hook bool :=
  gets (fun w => bool_decide (is_Some (disk w !! path))).

Definition readFileSync (path : string) : Hook FileText :=
  fun w =>
    match disk w !! path with
    | Some text => (Return text, w)
    | None => (Throw (ENOENT path), w)
    end.

Definition writeFileSync (path : string) (text : FileText) : Hook unit :=
  modify (fun w => set_disk (<[path := text]> (disk w)) w).

Definition mkdirSync (path : string) : Hook unit := ret tt.

(** [match[3] ? `${match[1]} (${match[3]})` : locale] *)
Definition default_name (locale lang : string) (region : option string) : string :=
  match region with
  | Some r => lang +:+ " (" +:+ r +:+ ")"
  | None => locale
  end.

(** A string is truthy unless it is empty. *)
Definition truthy_string (s : string) : bool := negb (bool_decide (s = "")).

(** [follow === locale] *)
Definition strict_eq_string (follow : Prop_ string) (locale : string) : bool :=
  match follow with
  | Own s => bool_decide (s = locale)
  | _ => false
  end.

(** [data.locale !== locale] *)
Definition strict_ne_locale (found : Prop_ JSON) (locale : string) : bool :=
  match found with
  | Own (JStr s) => negb (bool_decide (s = locale))
  | _ => true
  end.

(** [locales.includes(data.fallback)] *)
Definition includes (locales : list string) (fallback : JSON) : bool :=
  match fallback with
  | JStr s => bool_decide (s ∈ locales)
  | _ => false
  end.

(** The property key that [fallbacks[data.fallback]] reads, for a
    fallback that passed [includes]. *)
Definition key_of (fallback : JSON) : string :=
  match fallback with
  | JStr s => s
  | _ => ""
  end.

(** [obj[key] = p]: storing [undefined] or a function leaves the key out
    of what [JSON.stringify] and a truthiness test can see. *)
Definition assign (obj : gmap string JSON) (key : string) (p : Prop_ JSON) : gmap string JSON :=
  match p with
  | Own v => <[key := v]> obj
  | _ => delete key obj
  end.

(** [Object.entries(data.translations)]; [None] stands for the
    [TypeError] it raises on [undefined] and [null].  A string counts
    one entry per character. *)
Definition Object_entries (p : Prop_ JSON) : option (list (string * JSON)) :=
  match p with
  | Own (JObj props) => Some (map_to_list props)
  | Own (JArr items) => Some (imap (fun i tr => (pretty i, tr)) items)
  | Own (JStr s) =>
      Some (imap (fun i c => (pretty i, JStr (String c ""))) (list_ascii_of_string s))
  | Own (JNum _) | Own (JBool _) | Inherited _ => Some []
  | Own JNull | Undefined => None
  end.

(** [for (const [key, tr] of entries) if (tr && typeof tr === 'object')
    pluralKeys.add(key)] *)
Fixpoint add_plurals (entries : list (string * JSON)) (keys : gset string) : gset string :=
  match entries with
  | [] => keys
  | (key, tr) :: rest =>
      add_plurals rest (if is_object tr then {[key]} ∪ keys else keys)
  end.

(** [while ((follow = fallbacks[data.fallback])) { if (follow === locale)
    throw ... }]: each round reads [fallbacks[data.fallback]] anew. *)
Fixpoint follow_loop (fuel : nat) (fallbacks : gmap string string)
    (fallback locale localeFile : string) : outcome unit :=
  match fuel with
  | O => OutOfFuel
  | S fuel' =>
      let follow := obj_get fallbacks fallback in
      if truthy_prop truthy_string follow then
        if strict_eq_string follow locale
        then Throw (CircularFallback localeFile fallback)
        else follow_loop fuel' fallbacks fallback locale localeFile
      else Return tt
  end.

(** The record synthesized for a locale without a file. *)
Definition default_data (locale lang : string) (region : option string) : JSON :=
  JObj (<["locale" := JStr locale]>
        (<["name" := JStr (default_name locale lang region)]>
         (<["translations" := JObj ∅]> ∅))).

(** [if (!data.name) data.name = ...] *)
Definition backfill (locale lang : string) (region : option string) (data : JSON) : JSON :=
  if negb (truthy_prop truthy (field data "name"))
  then set_field data "name" (JStr (default_name locale lang region))
  else data.

(** [if (data.fallback) { ... fallbacks[locale] = data.fallback }]: the
    record and the fallbacks after it. *)
Definition check_fallback (fuel : nat) (locales : list string)
    (fallbacks : gmap string string) (locale localeFile : string) (data : JSON)
    : outcome (JSON * gmap string string) :=
  match field data "fallback" with
  | Own fallback =>
      if truthy fallback then
        if negb (includes locales fallback)
        then
          if ToString_throws fallback
          then Throw (TypeError "Cannot convert object to primitive value")
          else Throw (InvalidFallback localeFile fallback)
        else
          and_then (follow_loop fuel fallbacks (key_of fallback) locale localeFile)
            (fun _ => Return (data, <[locale := key_of fallback]> fallbacks))
      else Return (data, fallbacks)
  | _ => Return (data, fallbacks)
  end.

(** The branch of the loop body for a locale file that exists, from the
    text that [readFileSync] returned. *)
Definition check_existing (fuel : nat) (locales : list string)
    (fallbacks : gmap string string) (locale lang : string) (region : option string)
    (localeFile : string) (text : FileText) : outcome (JSON * gmap string string) :=
  match JSON_parse text with
  | None => Throw (JsonSyntaxError localeFile)
  | Some JNull => Throw (TypeError "Cannot read properties of null")
  | Some data =>
      if strict_ne_locale (field data "locale") locale
      then
        if template_throws (field data "locale")
        then Throw (TypeError "Cannot convert object to primitive value")
        else Throw (LocaleMismatch localeFile (field data "locale") locale)
      else
        check_fallback fuel locales fallbacks locale localeFile
          (backfill locale lang region data)
  end.

(** The end of the loop body: register the record and collect its
    plural keys. *)
Definition register (locale : string) (data : JSON) : Hook unit :=
  modify (fun w => set_localeNames (assign (localeNames w) locale (field data "name")) w) ;;
  modify (fun w => set_translations (<[locale := data]> (translations w)) w) ;;
  match Object_entries (field data "translations") with
  | None => throw (TypeError "Cannot convert undefined or null to object")
  | Some entries =>
      modify (fun w => set_pluralKeys (add_plurals entries (pluralKeys w)) w)
  end.

(** [path.resolve] of Node is taken as it comes; [cwd] stands for
    [process.cwd()]. *)
Section Hooks.
Variable resolve : string → string → string.

Definition i18nPlugin (cwd : string) (options : Options) : Plugin :=
  let localesDir := default "i18n" (opt_localesDir options) in
  let locales := default ["en"] (opt_locales options) in
  let defaultLocale :=
    match opt_defaultLocale options with
    | Some l => if bool_decide (l = "") then head locales else Some l
    | None => head locales
    end in
  {| locales := locales; defaultLocale := defaultLocale;
     localesDirAbs := resolve cwd localesDir |}.

Definition localeFile_of (P : Plugin) (locale : string) : string :=
  resolve (localesDirAbs P) (locale +:+ ".json").

(** The body of [for (const locale of locales)]. *)
Definition processLocale (fuel : nat) (P : Plugin) (fallbacks : gmap string string)
    (locale : string) : Hook (gmap string string) :=
  match exec_locale locale with
  | None => throw (InvalidLocale locale)
  | Some (lang, region) =>
      let localeFile := localeFile_of P locale in
      let* present := existsSync localeFile in
      let* (data, fallbacks) :=
        if (present : bool)
        then
          let* text := readFileSync localeFile in
          lift (check_existing fuel (locales P) fallbacks locale lang region localeFile text)
        else
          let data := default_data locale lang region in
          writeFileSync localeFile (JSON_stringify data) ;;
          ret (data, fallbacks) in
      register locale data ;;
      ret fallbacks
  end.

Fixpoint for_locales (fuel : nat) (P : Plugin) (todo : list string)
    (fallbacks : gmap string string) : Hook (gmap string string) :=
  match todo with
  | [] => ret fallbacks
  | locale :: rest =>
      let* fallbacks := processLocale fuel P fallbacks locale in
      for_locales fuel P rest fallbacks
  end.

Definition buildStart (fuel : nat) (P : Plugin) : Hook unit :=
  mkdirSync (localesDirAbs P) ;;
  modify (set_translations ∅) ;;
  modify (set_pluralKeys ∅) ;;
  for_locales fuel P (locales P) ∅ ;;
  ret tt.

End Hooks.

(** ** The virtual modules served by [load] *)

Definition locales_id : string := String "000" "i18n-locales.js".
Definition data_id : string := String "000" "i18n-data.js".
Definition state_id : string := String "000" "i18n-state.js".

(** The token that stands for the locale in code built for inlining. *)
Definition LOCALE_TOKEN : string := "__$LOCALE$__".

Definition newline : string := "
".

(** [`export {default as ${l}} from '${localesDirAbs}/${l}.json'`] *)
Definition export_line (P : Plugin) (l : string) : string :=
  "export {default as " +:+ l +:+ "} from '" +:+ localesDirAbs P +:+ "/" +:+ l +:+ ".json'".

(** [lines.join('\n')] *)
Fixpoint join_lines (lines : list string) : string :=
  match lines with
  | [] => ""
  | [line] => line
  | line :: rest => line +:+ newline +:+ join_lines rest
  end.

Definition locales_module (P : Plugin) : string :=
  "
/**
 * This file was generated by vite-plugin-i18n.
 *
 * For server builds, it contains all translations. For client builds, it is
 * empty, and translations need to be loaded dynamically.
 */
" +:+ join_lines (export_line P <$> locales P) +:+ "
".

Section Load.
(** [JSON.stringify(value)], the one-line text of a value. *)
Variable JSON_text : JSON → string.

Definition data_module (P : Plugin) (w : World) : string :=
  "
/** This file is generated at build time by `vite-plugin-i18n`. */
/** @type {import('vite-plugin-i18n').Locale[]} */
export const locales = " +:+ JSON_text (JArr (JStr <$> locales P)) +:+ "
/** @type {Record<import('vite-plugin-i18n').Locale, string>} */
export const localeNames = " +:+ JSON_text (JObj (localeNames w)) +:+ "
".

Definition state_module (P : Plugin) (w : World) : string :=
  "
/** This file is generated at build time by `vite-plugin-i18n`. */
import {localeNames} from '/i18n/__data.js'

/** @typedef {import('vite-plugin-i18n').Locale} Locale */
/** @type {Locale} */
export let defaultLocale = " +:+
  (if shouldInline w then LOCALE_TOKEN
   else match defaultLocale P with
        | Some l => JSON_text (JStr l)
        | None => "undefined"
        end) +:+ "
/** @type {Locale} */
export let currentLocale = defaultLocale

const _checkLocale = l => {
	if (!localeNames[l]) throw new TypeError(`unknown locale ${l}`)
}
/** @type {(locale: Locale) => void} */
export const setDefaultLocale = l => {
	_checkLocale(l)
	defaultLocale = l
}
export let getLocale = () => defaultLocale
/** @type {(fn: () => Locale | undefined) => void} */
export const setLocaleGetter = fn => {
	getLocale = () => {
		const l = fn() || defaultLocale
		_checkLocale(l)
		currentLocale = l
	  return l
	}
}
".

(** [load(id)]; [None] is the [undefined] returned for any other id. *)
Definition load (P : Plugin) (w : World) (id : string) : option string :=
  if bool_decide (id = locales_id) then
    Some (if shouldInline w then "" else locales_module P)
  else if bool_decide (id = data_id) then Some (data_module P w)
  else if bool_decide (id = state_id) then Some (state_module P w)
  else None.

End Load.

(** The [localeNames] object that the data module exports and the state
    module imports: the text [JSON.stringify(localeNames)] in
    [data_module], read as an object literal.  Every name comes out as
    it was printed; the keys are the locale codes that went through the
    loop of [buildStart], so the key [__proto__], which an object
    literal treats in its own way, is not among them. *)
Definition exported_names (w : World) : gmap string JSON :=
  printed <$> localeNames w.

(** ** The state module at run time

    The code of the module that [state_module] generates, over the
    [localeNames] object it imports from the data module. *)
Module StateModule.

(** A locale at run time: a string, or [None] for [undefined]. *)
Definition Locale : Type := option string.

(** The module's three [let] bindings; [getter] is [None] for the
    initial [() => defaultLocale] and holds [fn] once [setLocaleGetter]
    has run. *)
Record State : Type := {
  defaultLocale : Locale;
  currentLocale : Locale;
  getter : option (unit → Locale)
}.

Definition init (locale : Locale) : State :=
  {| defaultLocale := locale; currentLocale := locale; getter := None |}.

(** The property key a locale is converted to, as in [`${l}`]. *)
Definition to_key (l : Locale) : string := default "undefined" l.

(** [if (!localeNames[l]) throw new TypeError(`unknown locale ${l}`)] *)
Definition _checkLocale (localeNames : gmap string JSON) (l : Locale) : outcome unit :=
  if negb (truthy_prop truthy (obj_get localeNames (to_key l)))
  then Throw (TypeError ("unknown locale " +:+ to_key l))
  else Return tt.

Definition setDefaultLocale (localeNames : gmap string JSON) (l : Locale) (st : State)
    : outcome unit * State :=
  match _checkLocale localeNames l with
  | Return _ =>
      (Return tt, {| defaultLocale := l; currentLocale := currentLocale st;
                     getter := getter st |})
  | Throw e => (Throw e, st)
  | OutOfFuel => (OutOfFuel, st)
  end.

Definition setLocaleGetter (fn : unit → Locale) (st : State) : State :=
  {| defaultLocale := defaultLocale st; currentLocale := currentLocale st;
     getter := Some fn |}.

(** [fn() || defaultLocale] *)
Definition or_default (found dflt : Locale) : Locale :=
  match found with
  | Some s => if truthy_string s then Some s else dflt
  | None => dflt
  end.

Definition getLocale (localeNames : gmap string JSON) (st : State)
    : outcome Locale * State :=
  match getter st with
  | None => (Return (defaultLocale st), st)
  | Some fn =>
      let l := or_default (fn tt) (defaultLocale st) in
      match _checkLocale localeNames l with
      | Return _ =>
          (Return l, {| defaultLocale := defaultLocale st; currentLocale := l;
                        getter := getter st |})
      | Throw e => (Throw e, st)
      | OutOfFuel => (OutOfFuel, st)
      end
  end.

End StateModule.

(** ** [transform] *)

Definition source_extensions : list string := ["cjs"; "js"; "mjs"; "ts"; "jsx"; "tsx"].

(** [Some rest] when [s] is [prefix] followed by [rest]. *)
Fixpoint drop_prefix (prefix s : string) : option string :=
  match prefix, s with
  | EmptyString, _ => Some s
  | String a prefix', String b s' =>
      if Ascii.eqb a b then drop_prefix prefix' s' else None
  | String _ _, EmptyString => None
  end.

(** [($|\?)] *)
Definition at_end_or_query (rest : string) : bool :=
  match rest with
  | EmptyString => true
  | String c _ => Ascii.eqb c "?"
  end.

(** [\.(cjs|js|mjs|ts|jsx|tsx)($|\?)] matched at the start of [s]. *)
Definition extension_here (s : string) : bool :=
  match s with
  | String c rest =>
      Ascii.eqb c "." &&
      existsb (fun ext =>
                 match drop_prefix ext rest with
                 | Some after => at_end_or_query after
                 | None => false
                 end) source_extensions
  | EmptyString => false
  end.

(** [/\.(cjs|js|mjs|ts|jsx|tsx)($|\?)/.test(id)]: a match at any
    position. *)
Fixpoint test_extension (id : string) : bool :=
  extension_here id ||
  match id with
  | String _ rest => test_extension rest
  | EmptyString => false
  end.

Section Transform.
(** [transformLocalize] of [./transform-localize] and the Babel plugins
    handed through to it. *)
Variables BabelPlugins Transformed : Type.
Variable transformLocalize :
  string → string → gset string → option BabelPlugins → Transformed.
Variable babelPlugins : option BabelPlugins.

(** [None] is the [null] that leaves the module as it is. *)
Definition transform (w : World) (code id : string) : option Transformed :=
  if negb (shouldInline w) || negb (test_extension id) then None
  else Some (transformLocalize id code (pluralKeys w) babelPlugins).

End Transform.

(** ** [generateBundle] *)

(** [s] with every [token] in it replaced by [by_], reading from the
    left; the fuel bounds the number of steps by the length of [s]. *)
Fixpoint replace_all_from (fuel : nat) (token by_ s : string) : string :=
  match fuel with
  | O => s
  | S fuel' =>
      match drop_prefix token s with
      | Some rest => by_ +:+ replace_all_from fuel' token by_ rest
      | None =>
          match s with
          | EmptyString => EmptyString
          | String c s' => String c (replace_all_from fuel' token by_ s')
          end
      end
  end.

Definition replace_all (token by_ s : string) : string :=
  replace_all_from (S (String.length s)) token by_ s.

(** Modelled from the spec: [replaceGlobals] of [./transform-localize],
    which is not among the sources.  It substitutes the locale
    placeholder token by the concrete locale wherever the token stands
    in the code of a chunk; what it does with the other locale-scoped
    globals and the translations is not described and left out. *)
Definition replaceGlobals (code locale : string) (translations : gmap string JSON) : string :=
  replace_all LOCALE_TOKEN locale code.

(** A file of the finished bundle: a chunk with its [code], or an asset
    with its [source]. *)
Inductive OutputFile : Type :=
| OutputChunk (code : string)
| OutputAsset (source : string).

(** The argument of [this.emitFile]; the [type] is always ['asset']. *)
Record EmittedFile : Type := {
  fileName : string;
  source : string
}.

(** The file emitted for one entry of the bundle. *)
Definition copy_for (w : World) (locale : string) (entry : string * OutputFile)
    : EmittedFile :=
  match entry with
  | (name, OutputChunk code) =>
      {| fileName := locale +:+ "/" +:+ name;
         source := replaceGlobals code locale (translations w) |}
  | (name, OutputAsset source) =>
      {| fileName := locale +:+ "/" +:+ name; source := source |}
  end.

Section GenerateBundle.
(** The bundler's side of the hook: the bundle object it passes, what
    [Object.entries] finds in it, and what [this.emitFile] does to it. *)
Variable Bundle : Type.
Variable bundle_entries : Bundle → list (string * OutputFile).
Variable emitFile : EmittedFile → Bundle → Bundle.

(** The inner loop over the entries taken from the bundle: the files
    handed to [this.emitFile], in the order of the calls, and the bundle
    after them. *)
Fixpoint emit_entries (w : World) (locale : string)
    (entries : list (string * OutputFile)) (bundle : Bundle)
    : list EmittedFile * Bundle :=
  match entries with
  | [] => ([], bundle)
  | entry :: rest =>
      let file := copy_for w locale entry in
      let '(emitted, bundle') := emit_entries w locale rest (emitFile file bundle) in
      (file :: emitted, bundle')
  end.

(** The outer loop; [Object.entries(bundle)] is taken anew for each
    locale. *)
Fixpoint emit_locales (w : World) (todo : list string) (bundle : Bundle)
    : list EmittedFile * Bundle :=
  match todo with
  | [] => ([], bundle)
  | locale :: rest =>
      let '(emitted, bundle') :=
        emit_entries w locale (bundle_entries bundle) bundle in
      let '(emitted', bundle'') := emit_locales w rest bundle' in
      (emitted ++ emitted', bundle'')
  end.

Definition generateBundle (P : Plugin) (w : World) (bundle : Bundle)
    : list EmittedFile * Bundle :=
  if negb (shouldInline w) then ([], bundle)
  else emit_locales w (locales P) bundle.

End GenerateBundle.

(** A bundler that only takes note of the emitted files, and one that
    adds each of them to the bundle as an asset. *)
Definition emit_aside (file : EmittedFile) (bundle : list (string * OutputFile))
    : list (string * OutputFile) := bundle.
Definition emit_into (file : EmittedFile) (bundle : list (string * OutputFile))
    : list (string * OutputFile) :=
  bundle ++ [(fileName file, OutputAsset (source file))].

(** ** [resolveId] *)

(** [s.includes(needle)] *)
Fixpoint includes_string (s needle : string) : bool :=
  match drop_prefix needle s with
  | Some _ => true
  | None =>
      match s with
      | EmptyString => false
      | String _ rest => includes_string rest needle
      end
  end.

(** [None] is the [undefined] that leaves the id to the other
    resolvers. *)
Definition resolveId (id : string) : option string :=
  if includes_string id "/i18n/__locales." then Some locales_id
  else if includes_string id "/i18n/__data." then Some data_id
  else if includes_string id "/i18n/__state." then Some state_id
  else None.

(** ** The statements of the specification *)

(** The locale pattern [^[a-z]{2}([_-][A-Z]{2})?$] of the specification:
    a language of two lowercase letters, optionally followed by a
    separator and a region of two uppercase letters. *)
Inductive LocaleCode : string → Prop :=
| LocaleCode_lang (a b : ascii) :
    is_lower a = true → is_lower b = true →
    LocaleCode (String a (String b ""))
| LocaleCode_region (a b s c d : ascii) :
    is_lower a = true → is_lower b = true →
    s = "_"%char ∨ s = "-"%char →
    is_upper c = true → is_upper d = true →
    LocaleCode (String a (String b (String s (String c (String d ""))))).

(** A recognized source-file extension at the end of the path or before
    a question mark. *)
Definition has_source_extension (id : string) : Prop :=
  ∃ before ext after,
    ext ∈ source_extensions ∧
    id = before +:+ "." +:+ ext +:+ after ∧
    (after = "" ∨ ∃ query, after = String "?" query).

(** [token] stands somewhere in [s]. *)
Definition occurs (token s : string) : Prop :=
  ∃ before after, s = before +:+ token +:+ after.

(** *** The text of a module, as its importer reads it *)

Definition is_digit (c : ascii) : bool :=
  let n := nat_of_ascii c in (48 <=? n)%nat && (n <=? 57)%nat.

(** The characters that start and continue an identifier name (of the
    ASCII range; escapes are left out). *)
Definition is_name_start (c : ascii) : bool :=
  is_lower c || is_upper c || Ascii.eqb c "_" || Ascii.eqb c "$".
Definition is_name_part (c : ascii) : bool := is_name_start c || is_digit c.

(** White space and line terminators. *)
Definition is_blank (c : ascii) : bool := Ascii.eqb c " " || Ascii.eqb c "009".
Definition is_line_end (c : ascii) : bool := Ascii.eqb c "010" || Ascii.eqb c "013".

(** The text from its first token on: white space, line terminators and
    block comments are skipped.  [None] is a comment left open. *)
Fixpoint skip_trivia (in_comment : bool) (s : string) : option string :=
  match s with
  | EmptyString => if in_comment then None else Some s
  | String c rest =>
      if in_comment then
        match rest with
        | String d rest' =>
            if Ascii.eqb c "*" && Ascii.eqb d "/" then skip_trivia false rest'
            else skip_trivia true rest
        | EmptyString => None
        end
      else if is_blank c || is_line_end c then skip_trivia false rest
      else
        match rest with
        | String d rest' =>
            if Ascii.eqb c "/" && Ascii.eqb d "*" then skip_trivia true rest'
            else Some s
        | EmptyString => Some s
        end
  end.

(** The longest run of name characters at the start of [s], and what
    follows it. *)
Fixpoint name_chars (s : string) : string * string :=
  match s with
  | String c rest =>
      if is_name_part c
      then let '(name, after) := name_chars rest in (String c name, after)
      else (EmptyString, s)
  | EmptyString => (EmptyString, EmptyString)
  end.

(** An identifier name at the start of [s]. *)
Definition read_name (s : string) : option (string * string) :=
  match s with
  | String c _ => if is_name_start c then Some (name_chars s) else None
  | EmptyString => None
  end.

(** The word [word] at the start of [s], as a token of its own. *)
Definition read_word (word s : string) : option string :=
  match read_name s with
  | Some (name, after) => if String.eqb name word then Some after else None
  | None => None
  end.

(** A character that stands for itself in a string literal in single
    quotes. *)
Definition is_plain_char (c : ascii) : bool :=
  negb (Ascii.eqb c "'" || Ascii.eqb c "\" || is_line_end c).

Fixpoint is_plain (s : string) : bool :=
  match s with
  | EmptyString => true
  | String c rest => is_plain_char c && is_plain rest
  end.

(** The rest of a string literal after its opening quote: its value and
    what follows the closing quote.  Literals with escapes are left
    out. *)
Fixpoint read_quoted (s : string) : option (string * string) :=
  match s with
  | EmptyString => None
  | String c rest =>
      if Ascii.eqb c "'" then Some (EmptyString, rest)
      else if is_plain_char c then
        match read_quoted rest with
        | Some (value, after) => Some (String c value, after)
        | None => None
        end
      else None
  end.

(** The end of a declaration: a semicolon, a line terminator or the end
    of the text, after white space. *)
Fixpoint end_of_statement (s : string) : option string :=
  match s with
  | EmptyString => Some s
  | String c rest =>
      if is_blank c then end_of_statement rest
      else if Ascii.eqb c ";" || is_line_end c then Some rest
      else None
  end.

(** [} from '<path>'] and the end of the declaration, after the
    exported name. *)
Definition read_from (name s : string) : option ((string * string) * string) :=
  s ← skip_trivia false s; s ← drop_prefix "}" s;
  s ← skip_trivia false s; s ← read_word "from" s;
  s ← skip_trivia false s; s ← drop_prefix "'" s;
  '(path, s) ← read_quoted s;
  s ← end_of_statement s;
  Some ((name, path), s).

(** The exported name and the rest of the declaration, after [as]. *)
Definition read_exported (s : string) : option ((string * string) * string) :=
  s ← skip_trivia false s;
  '(name, s) ← read_name s;
  read_from name s.

(** One declaration [export {default as <name>} from '<path>']: the
    name under which the default export of the module at [path] is
    exported again, that path, and the text after the declaration. *)
Definition read_export (s : string) : option ((string * string) * string) :=
  s ← read_word "export" s;
  s ← skip_trivia false s; s ← drop_prefix "{" s;
  s ← skip_trivia false s; s ← read_word "default" s;
  s ← skip_trivia false s; s ← read_word "as" s;
  read_exported s.

(** The exports of a module text that holds nothing but comments and
    declarations of that form, as pairs of exported name and path;
    [None] for any other text.  Every round takes at least one
    character, so the length of the text is fuel enough. *)
Fixpoint module_exports_from (fuel : nat) (s : string) : option (list (string * string)) :=
  match fuel with
  | O => None
  | S fuel' =>
      match skip_trivia false s with
      | None => None
      | Some EmptyString => Some []
      | Some s' =>
          match read_export s' with
          | Some (export, rest) =>
              match module_exports_from fuel' rest with
              | Some exports => Some (export :: exports)
              | None => None
              end
          | None => None
          end
      end
  end.

Definition module_exports (s : string) : option (list (string * string)) :=
  module_exports_from (S (String.length s)) s.

(** An identifier name and nothing else. *)
Definition is_identifier (s : string) : bool :=
  match read_name s with
  | Some (_, EmptyString) => true
  | _ => false
  end.

(** What the locales module is to export for a locale: the locale code
    as name, for the file of the locale. *)
Definition locale_export (P : Plugin) (l : string) : string * string :=
  (l, localesDirAbs P +:+ "/" +:+ l +:+ ".json").

(** The export lines, each with its line terminator. *)
Fixpoint export_lines (P : Plugin) (ls : list string) : string :=
  match ls with
  | [] => ""
  | l :: rest => export_line P l +:+ newline +:+ export_lines P rest
  end.

(** [key] has an object-typed value among the entries of the
    translations of the record [data]. *)
Definition plural_in (data : JSON) (key : string) : Prop :=
  ∃ entries tr,
    Object_entries (field data "translations") = Some entries ∧
    (key, tr) ∈ entries ∧ is_object tr = true.

(** The world in which [buildStart] enters its loop. *)
Definition reset (w : World) : World := set_pluralKeys ∅ (set_translations ∅ w).

(** The world after a record has been registered. *)
Definition registered (locale : string) (data : JSON) (entries : list (string * JSON))
    (w : World) : World :=
  set_pluralKeys (add_plurals entries (pluralKeys w))
    (set_translations (<[locale := data]> (translations w))
       (set_localeNames (assign (localeNames w) locale (field data "name")) w)).

(** The record that the loop body holds for a locale file with the given
    text, when its checks pass. *)
Definition parsed_record (locale lang : string) (region : option string)
    (text : FileText) : option JSON :=
  match JSON_parse text with
  | None | Some JNull => None
  | Some data =>
      if strict_ne_locale (field data "locale") locale then None
      else Some (backfill locale lang region data)
  end.

(** The record that a disk provides for a locale: the one of its file,
    or the default one. *)
Definition record_of (resolve : string → string → string) (P : Plugin)
    (files : gmap string FileText) (locale : string) : option JSON :=
  match exec_locale locale with
  | None => None
  | Some (lang, region) =>
      match files !! localeFile_of resolve P locale with
      | Some text => parsed_record locale lang region text
      | None => Some (default_data locale lang region)
      end
  end.

(** [path.resolve] on an absolute, normalized directory and a plain file
    name, for the examples. *)
Definition join_path (dir file : string) : string := dir +:+ "/" +:+ file.

(** A number too large for a double, which [JSON.parse] reads as an
    infinity. *)
Definition non_finite (v : JSON) : bool :=
  match v with
  | JNum (S754_infinity _) => true
  | _ => false
  end.

(** The name that [localeNames] keeps for a record. *)
Definition name_of (data : JSON) : option JSON :=
  match field data "name" with
  | Own v => Some v
  | _ => None
  end.

(** A disk that grew out of [files] by default records only. *)
Definition grown (resolve : string → string → string) (P : Plugin)
    (files now : gmap string FileText) : Prop :=
  files ⊆ now ∧
  ∀ path, files !! path = None →
    now !! path = None ∨
    ∃ locale lang region,
      exec_locale locale = Some (lang, region) ∧
      path = localeFile_of resolve P locale ∧
      now !! path = Some (Json (default_data locale lang region)).

(** *** Inputs of the examples *)

(** A plugin for the given locales, with its files in [/app/i18n]. *)
Definition plugin_for (locales : list string) : Plugin :=
  {| locales := locales; defaultLocale := head locales; localesDirAbs := "/app/i18n" |}.

(** The world of a plugin that has not run yet, over the given files. *)
Definition fresh (files : gmap string FileText) : World :=
  {| shouldInline := false; translations := ∅; pluralKeys := ∅;
     localeNames := ∅; disk := files |}.

(** The text of a locale file without a name. *)
Definition locale_text (locale : string) (fallback : option string)
    (entries : gmap string JSON) : FileText :=
  Json (JObj (<["locale" := JStr locale]>
              (match fallback with
               | Some f => <["fallback" := JStr f]> (<["translations" := JObj entries]> ∅)
               | None => <["translations" := JObj entries]> ∅
               end))).

(** [en] has the key [items] as an object, [nl] has it as a string. *)
Definition files_items : gmap string FileText :=
  <["/app/i18n/en.json" :=
      locale_text "en" None
        (<["items" := JObj (<["one" := JStr "item"]> (<["other" := JStr "items"]> ∅))]>
         (<["hello" := JStr "Hello"]> ∅))]>
  (<["/app/i18n/nl.json" := locale_text "nl" None (<["items" := JStr "dingen"]> ∅)]> ∅).

(** [nl] falls back to [en] and [de] falls back to [nl]; [en] has no
    file yet. *)
Definition files_chain : gmap string FileText :=
  <["/app/i18n/nl.json" := locale_text "nl" (Some "en") ∅]>
  (<["/app/i18n/de.json" := locale_text "de" (Some "nl") ∅]> ∅).

(** [en] falls back to itself. *)
Definition files_self : gmap string FileText :=
  <["/app/i18n/en.json" := locale_text "en" (Some "en") ∅]> ∅.

(** [en] falls back to [nl], [nl] to [de] and [de] to [en]. *)
Definition files_cycle3 : gmap string FileText :=
  <["/app/i18n/en.json" := locale_text "en" (Some "nl") ∅]>
  (<["/app/i18n/nl.json" := locale_text "nl" (Some "de") ∅]>
   (<["/app/i18n/de.json" := locale_text "de" (Some "en") ∅]> ∅)).

(** [en] falls back to [nl] and [nl] to [en]. *)
Definition files_cycle2 : gmap string FileText :=
  <["/app/i18n/en.json" := locale_text "en" (Some "nl") ∅]>
  (<["/app/i18n/nl.json" := locale_text "nl" (Some "en") ∅]> ∅).

(** A finished bundle of one chunk and one asset. *)
Definition bundle_demo : list (string * OutputFile) :=
  [ ("assets/app.js", OutputChunk "export const locale = '__$LOCALE$__'");
    ("assets/logo.svg", OutputAsset "<svg/>") ].

(** *** More inputs of the examples *)

(** A file for [en] that says it is [fr]; a file for [en] that falls
    back to a locale that is not configured; a file for [en] without
    translations. *)
Definition files_mismatch : gmap string FileText :=
  <["/app/i18n/en.json" := locale_text "fr" None ∅]> ∅.
Definition files_unknown_fallback : gmap string FileText :=
  <["/app/i18n/en.json" := locale_text "en" (Some "fr") ∅]> ∅.
Definition files_no_translations : gmap string FileText :=
  <["/app/i18n/en.json" := Json (JObj (<["locale" := JStr "en"]> ∅))]> ∅.
Definition files_malformed : gmap string FileText :=
  <["/app/i18n/en.json" := Malformed "{locale: en"]> ∅.

(** A file for [en] whose name is the number [1e999]. *)
Definition files_big_name : gmap string FileText :=
  <["/app/i18n/en.json" :=
      Json (JObj (<["locale" := JStr "en"]>
                  (<["name" := JNum (S754_infinity false)]>
                   (<["translations" := JObj ∅]> ∅))))]> ∅.

(** A file for [en] whose [locale] is an object with a property named
    [toString], and one whose [fallback] is such an object. *)
Definition files_unprintable_locale : gmap string FileText :=
  <["/app/i18n/en.json" :=
      Json (JObj (<["locale" := JObj (<["toString" := JBool true]> ∅)]>
                  (<["translations" := JObj ∅]> ∅)))]> ∅.
Definition files_unprintable_fallback : gmap string FileText :=
  <["/app/i18n/en.json" :=
      Json (JObj (<["locale" := JStr "en"]>
                  (<["fallback" := JArr [JObj (<["toString" := JNull]> ∅)]]>
                   (<["translations" := JObj ∅]> ∅))))]> ∅.

(** *** The fallbacks of the registered records *)

(** The locale a record falls back to: its [fallback] when that is a
    non-empty string. *)
Definition fallback_target (data : JSON) : option string :=
  match field data "fallback" with
  | Own (JStr s) => if truthy_string s then Some s else None
  | _ => None
  end.

(** The fallback of the record registered for a locale. *)
Definition fallback_in (w : World) (locale : string) : option string :=
  translations w !! locale ≫= fallback_target.

(** The locale reached from [locale] after [steps] fallbacks. *)
Fixpoint chain (w : World) (steps : nat) (locale : string) : option string :=
  match steps with
  | O => Some locale
  | S steps' => fallback_in w locale ≫= chain w steps'
  end.

(** The entries of [fallbacks] are non-empty and can be ranked so that
    every entry that leads to another locale with an entry leads
    upwards. *)
Definition ranked (fallbacks : gmap string string) : Prop :=
  (∀ l t, fallbacks !! l = Some t → t ≠ "") ∧
  ∃ (rank : string → nat) (bound : nat),
    (∀ l, is_Some (fallbacks !! l) → rank l < bound) ∧
    ∀ l t, fallbacks !! l = Some t → t ≠ l → is_Some (fallbacks !! t) →
           rank l < rank t.

(** ** The loop of [buildStart], step by step *)

Lemma register_unfold locale data w :
  register locale data w =
  match Object_entries (field data "translations") with
  | None =>
      (Throw (TypeError "Cannot convert undefined or null to object"),
       set_translations (<[locale := data]> (translations w))
         (set_localeNames (assign (localeNames w) locale (field data "name")) w))
  | Some entries => (Return tt, registered locale data entries w)
  end.
Proof.
  unfold register, registered, bind, modify, throw.
  destruct (Object_entries (field data "translations")); reflexivity.
Qed.

Section Loop.
Variable resolve : string → string → string.

Lemma processLocale_unfold fuel P fallbacks locale w :
  processLocale resolve fuel P fallbacks locale w =
  match exec_locale locale with
  | None => (Throw (InvalidLocale locale), w)
  | Some (lang, region) =>
      let localeFile := localeFile_of resolve P locale in
      match disk w !! localeFile with
      | Some text =>
          match check_existing fuel (locales P) fallbacks locale lang region localeFile text with
          | Return (data, fallbacks') =>
              match Object_entries (field data "translations") with
              | None =>
                  (Throw (TypeError "Cannot convert undefined or null to object"),
                   set_translations (<[locale := data]> (translations w))
                     (set_localeNames (assign (localeNames w) locale (field data "name")) w))
              | Some entries => (Return fallbacks', registered locale data entries w)
              end
          | Throw e => (Throw e, w)
          | OutOfFuel => (OutOfFuel, w)
          end
      | None =>
          let data := default_data locale lang region in
          (Return fallbacks,
           registered locale data []
             (set_disk (<[localeFile := JSON_stringify data]> (disk w)) w))
      end
  end.
Proof.
  unfold processLocale.
  destruct (exec_locale locale) as [[lang region]|]; [|reflexivity].
  cbv zeta. unfold bind at 1. unfold existsSync, gets.
  destruct (disk w !! localeFile_of resolve P locale) as [text|] eqn:Hfile.
  - rewrite bool_decide_eq_true_2 by eauto.
    unfold bind at 1. unfold bind at 1. unfold readFileSync. rewrite Hfile.
    unfold lift.
    destruct (check_existing _ _ _ _ _ _ _ _) as [[data fallbacks']| |]; try reflexivity.
    unfold bind. rewrite register_unfold.
    destruct (Object_entries _); reflexivity.
  - rewrite bool_decide_eq_false_2 by (intros [? ?]; discriminate).
    unfold bind at 1. unfold bind at 1. unfold writeFileSync, modify, ret.
    unfold bind. rewrite register_unfold.
    reflexivity.
Qed.

End Loop.

(** *** The walk along the fallbacks *)

Lemma follow_loop_spins fuel fallbacks fallback locale localeFile :
  truthy_prop truthy_string (obj_get fallbacks fallback) = true →
  strict_eq_string (obj_get fallbacks fallback) locale = false →
  follow_loop fuel fallbacks fallback locale localeFile = OutOfFuel.
Proof.
  intros Htruthy Hne. induction fuel as [|fuel IH]; simpl; [reflexivity|].
  rewrite Htruthy, Hne. exact IH.
Qed.

(** One round decides the walk: it leaves at once, throws at once, or
    never ends. *)
Lemma follow_loop_fuel fuel fallbacks fallback locale localeFile :
  follow_loop (S fuel) fallbacks fallback locale localeFile =
  follow_loop 1 fallbacks fallback locale localeFile.
Proof.
  simpl.
  destruct (truthy_prop truthy_string (obj_get fallbacks fallback)) eqn:Htruthy;
    [|reflexivity].
  destruct (strict_eq_string (obj_get fallbacks fallback) locale) eqn:Heq;
    [reflexivity|].
  apply follow_loop_spins; assumption.
Qed.

Lemma check_fallback_fuel fuel locales fallbacks locale localeFile data :
  check_fallback (S fuel) locales fallbacks locale localeFile data =
  check_fallback 1 locales fallbacks locale localeFile data.
Proof.
  unfold check_fallback.
  destruct (field data "fallback") as [fallback| |]; try reflexivity.
  rewrite follow_loop_fuel. reflexivity.
Qed.

Lemma check_existing_fuel fuel locales fallbacks locale lang region localeFile text :
  check_existing (S fuel) locales fallbacks locale lang region localeFile text =
  check_existing 1 locales fallbacks locale lang region localeFile text.
Proof.
  unfold check_existing.
  destruct (JSON_parse text) as [data|]; [|reflexivity].
  destruct data; try reflexivity; rewrite check_fallback_fuel; reflexivity.
Qed.

Section LoopFuel.
Variable resolve : string → string → string.

Lemma processLocale_fuel fuel P fallbacks locale w :
  processLocale resolve (S fuel) P fallbacks locale w =
  processLocale resolve 1 P fallbacks locale w.
Proof.
  rewrite !processLocale_unfold.
  destruct (exec_locale locale) as [[lang region]|]; [|reflexivity].
  cbv zeta. destruct (disk w !! _); [|reflexivity].
  rewrite check_existing_fuel. reflexivity.
Qed.

Lemma for_locales_fuel fuel P todo fallbacks w :
  for_locales resolve (S fuel) P todo fallbacks w =
  for_locales resolve 1 P todo fallbacks w.
Proof.
  revert fallbacks w. induction todo as [|locale rest IH]; intros fallbacks w;
    [reflexivity|].
  simpl. unfold bind. rewrite processLocale_fuel.
  destruct (processLocale resolve 1 P fallbacks locale w) as [[fallbacks'| |] w'];
    [apply IH|reflexivity|reflexivity].
Qed.

(** More fuel than one round never changes what [buildStart] does. *)
Lemma buildStart_fuel fuel P w :
  buildStart resolve (S fuel) P w = buildStart resolve 1 P w.
Proof.
  unfold buildStart, bind, mkdirSync, modify, ret.
  rewrite for_locales_fuel. reflexivity.
Qed.

Lemma buildStart_unfold fuel P w :
  buildStart resolve fuel P w =
  match for_locales resolve fuel P (locales P) ∅ (reset w) with
  | (Return _, w') => (Return tt, w')
  | (Throw e, w') => (Throw e, w')
  | (OutOfFuel, w') => (OutOfFuel, w')
  end.
Proof. reflexivity. Qed.

Lemma for_locales_cons fuel P locale rest fallbacks w :
  for_locales resolve fuel P (locale :: rest) fallbacks w =
  match processLocale resolve fuel P fallbacks locale w with
  | (Return fallbacks', w') => for_locales resolve fuel P rest fallbacks' w'
  | (Throw e, w') => (Throw e, w')
  | (OutOfFuel, w') => (OutOfFuel, w')
  end.
Proof. reflexivity. Qed.

Lemma for_locales_app fuel P todo1 todo2 fallbacks w :
  for_locales resolve fuel P (todo1 ++ todo2) fallbacks w =
  match for_locales resolve fuel P todo1 fallbacks w with
  | (Return fallbacks', w') => for_locales resolve fuel P todo2 fallbacks' w'
  | (Throw e, w') => (Throw e, w')
  | (OutOfFuel, w') => (OutOfFuel, w')
  end.
Proof.
  revert fallbacks w. induction todo1 as [|locale rest IH]; intros fallbacks w;
    [reflexivity|].
  rewrite <- app_comm_cons, !for_locales_cons.
  destruct (processLocale resolve fuel P fallbacks locale w) as [[fallbacks'| |] w'];
    [apply IH|reflexivity|reflexivity].
Qed.

(** *** Files are only ever added *)

Lemma processLocale_disk fuel P fallbacks locale w :
  disk w ⊆ disk (processLocale resolve fuel P fallbacks locale w).2.
Proof.
  rewrite processLocale_unfold.
  destruct (exec_locale locale) as [[lang region]|]; [|reflexivity].
  cbv zeta.
  destruct (disk w !! localeFile_of resolve P locale) as [text|] eqn:Hfile.
  - destruct (check_existing _ _ _ _ _ _ _ _) as [[data fallbacks']| |];
      try reflexivity.
    destruct (Object_entries _); reflexivity.
  - simpl. apply insert_subseteq. exact Hfile.
Qed.

Lemma for_locales_disk fuel P todo fallbacks w :
  disk w ⊆ disk (for_locales resolve fuel P todo fallbacks w).2.
Proof.
  revert fallbacks w. induction todo as [|locale rest IH]; intros fallbacks w;
    [reflexivity|].
  rewrite for_locales_cons.
  pose proof (processLocale_disk fuel P fallbacks locale w) as Hstep.
  destruct (processLocale resolve fuel P fallbacks locale w) as [[fallbacks'| |] w'];
    simpl in *; [|exact Hstep|exact Hstep].
  etrans; [exact Hstep|apply IH].
Qed.

Lemma buildStart_disk fuel P w :
  disk w ⊆ disk (buildStart resolve fuel P w).2.
Proof.
  rewrite buildStart_unfold.
  pose proof (for_locales_disk fuel P (locales P) ∅ (reset w)) as Hloop.
  destruct (for_locales resolve fuel P (locales P) ∅ (reset w)) as [[fallbacks'| |] w'];
    exact Hloop.
Qed.

End LoopFuel.

(** *** The default record *)

Lemma exec_locale_nonempty locale lang region :
  exec_locale locale = Some (lang, region) → locale ≠ "".
Proof. intros Hexec ->. discriminate Hexec. Qed.

Lemma exec_locale_lang locale lang :
  exec_locale locale = Some (lang, None) → locale = lang.
Proof.
  destruct locale as [|a [|b rest]]; simpl; try discriminate.
  destruct (is_lower a && is_lower b); [|discriminate].
  destruct rest as [|s [|c [|d [|? ?]]]]; try discriminate.
  - intros [= <-]. reflexivity.
  - destruct (is_sep s && is_upper c && is_upper d); discriminate.
Qed.

Lemma default_name_truthy locale lang region :
  locale ≠ "" → truthy (JStr (default_name locale lang region)) = true.
Proof.
  intros Hne. simpl. apply negb_true_iff, bool_decide_eq_false_2.
  destruct region as [r|]; simpl; [|exact Hne].
  destruct lang; discriminate.
Qed.

Lemma field_default_locale locale lang region :
  field (default_data locale lang region) "locale" = Own (JStr locale).
Proof. reflexivity. Qed.

Lemma field_default_name locale lang region :
  field (default_data locale lang region) "name" =
  Own (JStr (default_name locale lang region)).
Proof. reflexivity. Qed.

Lemma field_default_fallback locale lang region :
  field (default_data locale lang region) "fallback" = Undefined.
Proof. reflexivity. Qed.

Lemma field_default_translations locale lang region :
  field (default_data locale lang region) "translations" = Own (JObj ∅).
Proof. reflexivity. Qed.

Lemma printed_default_data locale lang region :
  printed (default_data locale lang region) = default_data locale lang region.
Proof.
  unfold default_data. cbn [printed].
  rewrite !fmap_insert, fmap_empty. cbn [printed].
  rewrite fmap_empty. reflexivity.
Qed.

Lemma backfill_default locale lang region :
  locale ≠ "" →
  backfill locale lang region (default_data locale lang region) =
  default_data locale lang region.
Proof.
  intros Hne. unfold backfill.
  rewrite field_default_name. cbn [truthy_prop].
  rewrite default_name_truthy by exact Hne. reflexivity.
Qed.

Lemma default_data_inj locale locale' lang' region' :
  strict_ne_locale (field (default_data locale' lang' region') "locale") locale = false →
  locale' = locale.
Proof.
  rewrite field_default_locale. simpl.
  intros H%negb_false_iff%bool_decide_eq_true. exact H.
Qed.

Lemma parsed_record_default locale lang region :
  locale ≠ "" →
  parsed_record locale lang region (Json (default_data locale lang region)) =
  Some (default_data locale lang region).
Proof.
  intros Hne. unfold parsed_record. cbn [JSON_parse default_data].
  fold (default_data locale lang region).
  rewrite field_default_locale. cbn [strict_ne_locale].
  rewrite bool_decide_eq_true_2 by reflexivity. cbn [negb].
  rewrite backfill_default by exact Hne. reflexivity.
Qed.

Lemma check_existing_default fuel locales fallbacks locale lang region localeFile :
  locale ≠ "" →
  check_existing fuel locales fallbacks locale lang region localeFile
    (Json (default_data locale lang region)) =
  Return (default_data locale lang region, fallbacks).
Proof.
  intros Hne. unfold check_existing. cbn [JSON_parse default_data].
  fold (default_data locale lang region).
  rewrite field_default_locale. cbn [strict_ne_locale].
  rewrite bool_decide_eq_true_2 by reflexivity. cbn [negb].
  rewrite backfill_default by exact Hne.
  unfold check_fallback. rewrite field_default_fallback. reflexivity.
Qed.

Lemma check_fallback_Return fuel locales fallbacks locale localeFile data data' fallbacks' :
  check_fallback fuel locales fallbacks locale localeFile data = Return (data', fallbacks') →
  data' = data.
Proof.
  unfold check_fallback.
  destruct (field data "fallback") as [fallback| |]; try (intros [= <- <-]; reflexivity).
  destruct (truthy fallback); [|intros [= <- <-]; reflexivity].
  destruct (negb (includes locales fallback));
    [destruct (ToString_throws fallback); discriminate|].
  destruct (follow_loop _ _ _ _ _); simpl; try discriminate.
  intros [= <- <-]. reflexivity.
Qed.

Lemma check_existing_Return fuel locales fallbacks locale lang region localeFile text
    data fallbacks' :
  check_existing fuel locales fallbacks locale lang region localeFile text =
    Return (data, fallbacks') →
  parsed_record locale lang region text = Some data.
Proof.
  unfold check_existing, parsed_record.
  destruct (JSON_parse text) as [doc|]; [|discriminate].
  destruct doc; try discriminate;
    (destruct (strict_ne_locale _ _);
       [destruct (template_throws _); discriminate|]);
    intros ->%check_fallback_Return; reflexivity.
Qed.

(** *** What a successful pass of the loop leaves behind *)

Lemma elem_of_add_plurals entries keys key :
  key ∈ add_plurals entries keys ↔
  key ∈ keys ∨ ∃ tr, (key, tr) ∈ entries ∧ is_object tr = true.
Proof.
  revert keys. induction entries as [|[k tr] rest IH]; intros keys; simpl.
  - split; [auto|]. intros [H|(tr & H & _)]; [exact H|]. inversion H.
  - rewrite IH. split.
    + intros [Hin|(tr' & Hin & Hobj)].
      * destruct (is_object tr) eqn:Hobj; [|auto].
        apply elem_of_union in Hin as [->%elem_of_singleton|Hin]; [|auto].
        right. exists tr. split; [left|exact Hobj].
      * right. exists tr'. split; [right; exact Hin|exact Hobj].
    + intros [Hin|(tr' & Hin & Hobj)].
      * left. destruct (is_object tr); [|exact Hin].
        apply elem_of_union. right. exact Hin.
      * apply elem_of_cons in Hin as [[= -> ->]|Hin].
        -- left. rewrite Hobj. apply elem_of_union. left.
           apply elem_of_singleton. reflexivity.
        -- right. exists tr'. auto.
Qed.

Lemma lookup_assign names locale p key :
  assign names locale p !! key =
  if decide (locale = key)
  then match p with Own v => Some v | _ => None end
  else names !! key.
Proof.
  unfold assign. destruct p; rewrite ?lookup_insert, ?lookup_delete;
    destruct (decide (locale = key)); reflexivity.
Qed.

Section LoopSpec.
Variable resolve : string → string → string.
Variable P : Plugin.

Lemma grown_refl files : grown resolve P files files.
Proof. split; [reflexivity|]. intros path Hnone. left. exact Hnone. Qed.

(** One successful round registers the record that the first disk
    provides for the locale. *)
Lemma processLocale_Return files fuel fallbacks locale w fallbacks' w' :
  grown resolve P files (disk w) →
  processLocale resolve fuel P fallbacks locale w = (Return fallbacks', w') →
  ∃ data entries,
    record_of resolve P files locale = Some data ∧
    Object_entries (field data "translations") = Some entries ∧
    translations w' = <[locale := data]> (translations w) ∧
    localeNames w' = assign (localeNames w) locale (field data "name") ∧
    pluralKeys w' = add_plurals entries (pluralKeys w) ∧
    shouldInline w' = shouldInline w ∧
    grown resolve P files (disk w').
Proof.
  intros [Hsub Hnew]. rewrite processLocale_unfold. unfold record_of.
  destruct (exec_locale locale) as [[lang region]|] eqn:Hexec; [|discriminate].
  cbv zeta.
  pose proof (exec_locale_nonempty _ _ _ Hexec) as Hne.
  destruct (disk w !! localeFile_of resolve P locale) as [text|] eqn:Hfile.
  - destruct (check_existing _ _ _ _ _ _ _ _) as [[data fb]| |] eqn:Hcheck;
      try discriminate.
    destruct (Object_entries (field data "translations")) as [entries|] eqn:Hentries;
      [|discriminate].
    intros [= <- <-]. exists data, entries.
    apply check_existing_Return in Hcheck.
    split; [|repeat split; try assumption; try reflexivity].
    destruct (files !! localeFile_of resolve P locale) as [text0|] eqn:Hfile0.
    + apply (lookup_weaken _ _ _ _ Hfile0) in Hsub. congruence.
    + destruct (Hnew _ Hfile0) as [Hnone|(l' & lang' & region' & Hexec' & Hpath & Hdef)];
        [congruence|].
      rewrite Hfile in Hdef. injection Hdef as ->.
      assert (l' = locale) as ->.
      { unfold parsed_record in Hcheck. cbn [JSON_parse default_data] in Hcheck.
        fold (default_data l' lang' region') in Hcheck.
        destruct (strict_ne_locale (field (default_data l' lang' region') "locale") locale)
          eqn:Hloc; [discriminate|].
        eapply default_data_inj, Hloc. }
      rewrite Hexec in Hexec'. injection Hexec' as <- <-.
      rewrite parsed_record_default in Hcheck by exact Hne. exact Hcheck.
  - intros [= <- <-]. exists (default_data locale lang region), [].
    assert (files !! localeFile_of resolve P locale = None) as Hfile0.
    { destruct (files !! _) as [text0|] eqn:Hfile0; [|reflexivity].
      apply (lookup_weaken _ _ _ _ Hfile0) in Hsub. congruence. }
    rewrite Hfile0. repeat split; try reflexivity.
    + simpl. etrans; [exact Hsub|]. apply insert_subseteq. exact Hfile.
    + intros path Hnone. simpl.
      destruct (decide (localeFile_of resolve P locale = path)) as [<-|Hother].
      * right. exists locale, lang, region.
        rewrite lookup_insert_eq. auto.
      * rewrite lookup_insert_ne by exact Hother.
        destruct (Hnew _ Hnone) as [?|(l' & lang' & region' & ? & ? & ?)]; [auto|].
        right. exists l', lang', region'. auto.
Qed.

Lemma for_locales_Return files fuel todo fallbacks w fallbacks' w' :
  grown resolve P files (disk w) →
  for_locales resolve fuel P todo fallbacks w = (Return fallbacks', w') →
  grown resolve P files (disk w') ∧
  shouldInline w' = shouldInline w ∧
  (∀ l, l ∈ todo → is_Some (record_of resolve P files l)) ∧
  (∀ l, translations w' !! l =
        if bool_decide (l ∈ todo) then record_of resolve P files l
        else translations w !! l) ∧
  (∀ l, localeNames w' !! l =
        if bool_decide (l ∈ todo) then record_of resolve P files l ≫= name_of
        else localeNames w !! l) ∧
  (∀ key, key ∈ pluralKeys w' ↔
          key ∈ pluralKeys w ∨
          ∃ l data, l ∈ todo ∧ record_of resolve P files l = Some data ∧
                    plural_in data key).
Proof.
  revert fallbacks w. induction todo as [|locale rest IH]; intros fallbacks w Hgrown.
  - intros [= <- <-]. split; [exact Hgrown|]. split; [reflexivity|].
    split; [|split; [|split]]; try reflexivity.
    + intros l Hin. inversion Hin.
    + intros key. split; [auto|].
      intros [H|(l & data & Hin & _)]; [exact H|inversion Hin].
  - rewrite for_locales_cons.
    destruct (processLocale resolve fuel P fallbacks locale w) as [[fb1| |] w1] eqn:Hstep;
      try discriminate.
    intros Hrest.
    destruct (processLocale_Return files _ _ _ _ _ _ Hgrown Hstep)
      as (data & entries & Hrec & Hentries & Htr & Hnames & Hkeys & Hinline & Hgrown1).
    destruct (IH _ _ Hgrown1 Hrest) as (Hgrown' & Hinline' & Hsome & Htr' & Hnames' & Hkeys').
    split; [exact Hgrown'|]. split; [congruence|].
    split; [|split; [|split]].
    + intros l [->|Hin]%elem_of_cons; [rewrite Hrec; eauto|auto].
    + intros l. rewrite Htr', Htr.
      destruct (decide (l ∈ rest)) as [Hin|Hout].
      * rewrite !bool_decide_eq_true_2; [reflexivity|right; exact Hin|exact Hin].
      * rewrite (bool_decide_eq_false_2 _ Hout).
        destruct (decide (locale = l)) as [->|Hne].
        -- rewrite lookup_insert_eq, bool_decide_eq_true_2 by left. congruence.
        -- rewrite lookup_insert_ne by exact Hne.
           rewrite bool_decide_eq_false_2; [reflexivity|].
           intros [->|Hin]%elem_of_cons; [apply Hne; reflexivity|exact (Hout Hin)].
    + intros l. rewrite Hnames', Hnames, lookup_assign.
      destruct (decide (l ∈ rest)) as [Hin|Hout].
      * rewrite !bool_decide_eq_true_2; [reflexivity|right; exact Hin|exact Hin].
      * rewrite (bool_decide_eq_false_2 _ Hout).
        destruct (decide (locale = l)) as [->|Hne].
        -- rewrite bool_decide_eq_true_2 by left. rewrite Hrec. reflexivity.
        -- rewrite bool_decide_eq_false_2; [reflexivity|].
           intros [->|Hin]%elem_of_cons; [apply Hne; reflexivity|exact (Hout Hin)].
    + intros key. rewrite Hkeys', Hkeys, elem_of_add_plurals. split.
      * intros [[Hin|(tr & Hin & Hobj)]|(l & d & Hin & Hrec' & Hpl)].
        -- left. exact Hin.
        -- right. exists locale, data. split; [left|]. split; [exact Hrec|].
           exists entries, tr. auto.
        -- right. exists l, d. split; [right; exact Hin|auto].
      * intros [Hin|(l & d & Hin & Hrec' & Hpl)]; [auto|].
        apply elem_of_cons in Hin as [->|Hin].
        -- left. right. rewrite Hrec in Hrec'. injection Hrec' as <-.
           destruct Hpl as (entries' & tr & Hentries' & Hin' & Hobj).
           rewrite Hentries in Hentries'. injection Hentries' as <-.
           exists tr. auto.
        -- right. exists l, d. auto.
Qed.

(** What [buildStart] leaves behind when it returns. *)
Lemma buildStart_Return fuel w w' :
  buildStart resolve fuel P w = (Return tt, w') →
  grown resolve P (disk w) (disk w') ∧
  shouldInline w' = shouldInline w ∧
  (∀ l, l ∈ locales P → is_Some (record_of resolve P (disk w) l)) ∧
  (∀ l, translations w' !! l =
        if bool_decide (l ∈ locales P) then record_of resolve P (disk w) l else None) ∧
  (∀ l, localeNames w' !! l =
        if bool_decide (l ∈ locales P) then record_of resolve P (disk w) l ≫= name_of
        else localeNames w !! l) ∧
  (∀ key, key ∈ pluralKeys w' ↔
          ∃ l data, l ∈ locales P ∧ record_of resolve P (disk w) l = Some data ∧
                    plural_in data key).
Proof.
  rewrite buildStart_unfold.
  destruct (for_locales resolve fuel P (locales P) ∅ (reset w)) as [[fb| |] w1] eqn:Hloop;
    try discriminate.
  intros [= <-].
  destruct (for_locales_Return (disk w) fuel (locales P) ∅ (reset w) fb w1
              (grown_refl (disk w)) Hloop)
    as (Hgrown & Hinline & Hsome & Htr & Hnames & Hkeys).
  split; [exact Hgrown|]. split; [exact Hinline|]. split; [exact Hsome|].
  split; [|split].
  - intros l. rewrite Htr. simpl. rewrite lookup_empty. reflexivity.
  - exact Hnames.
  - intros key. rewrite Hkeys. simpl. split; [|auto].
    intros [Hin|H]; [|exact H].
    apply not_elem_of_empty in Hin. destruct Hin.
Qed.

End LoopSpec.

(** *** Running the loop again on the disk it left *)

Section Rerun.
Variable resolve : string → string → string.
Variable P : Plugin.

Lemma processLocale_rerun fuel fallbacks locale w fallbacks' w1 w2 :
  processLocale resolve fuel P fallbacks locale w = (Return fallbacks', w1) →
  disk w1 ⊆ disk w2 →
  ∃ data entries,
    translations w1 = <[locale := data]> (translations w) ∧
    pluralKeys w1 = add_plurals entries (pluralKeys w) ∧
    processLocale resolve fuel P fallbacks locale w2 =
      (Return fallbacks', registered locale data entries w2).
Proof.
  rewrite !processLocale_unfold.
  destruct (exec_locale locale) as [[lang region]|] eqn:Hexec; [|discriminate].
  cbv zeta.
  pose proof (exec_locale_nonempty _ _ _ Hexec) as Hne.
  destruct (disk w !! localeFile_of resolve P locale) as [text|] eqn:Hfile.
  - destruct (check_existing _ _ _ _ _ _ _ _) as [[data fb]| |] eqn:Hcheck;
      try discriminate.
    destruct (Object_entries (field data "translations")) as [entries|] eqn:Hentries;
      [|discriminate].
    intros [= <- <-] Hsub. exists data, entries.
    split; [reflexivity|]. split; [reflexivity|].
    rewrite (lookup_weaken _ _ _ _ Hfile Hsub), Hcheck, Hentries. reflexivity.
  - intros [= <- <-] Hsub. exists (default_data locale lang region), [].
    split; [reflexivity|]. split; [reflexivity|].
    assert (disk w2 !! localeFile_of resolve P locale =
            Some (Json (default_data locale lang region))) as ->.
    { eapply lookup_weaken; [|exact Hsub]. simpl. apply lookup_insert_eq. }
    rewrite check_existing_default by exact Hne. reflexivity.
Qed.

Lemma for_locales_rerun fuel todo fallbacks w fallbacks' w' w2 :
  for_locales resolve fuel P todo fallbacks w = (Return fallbacks', w') →
  disk w' ⊆ disk w2 →
  ∃ w2',
    for_locales resolve fuel P todo fallbacks w2 = (Return fallbacks', w2') ∧
    disk w2' = disk w2 ∧
    shouldInline w2' = shouldInline w2 ∧
    (translations w2 = translations w → translations w2' = translations w') ∧
    (pluralKeys w2 = pluralKeys w → pluralKeys w2' = pluralKeys w').
Proof.
  revert fallbacks w w2. induction todo as [|locale rest IH]; intros fallbacks w w2.
  - intros [= <- <-] _. exists w2. repeat split; auto.
  - rewrite !for_locales_cons.
    destruct (processLocale resolve fuel P fallbacks locale w) as [[fb1| |] w1] eqn:Hstep;
      try discriminate.
    intros Hrest Hsub.
    pose proof (for_locales_disk resolve fuel P rest fb1 w1) as Hmono.
    rewrite Hrest in Hmono. simpl in Hmono.
    destruct (processLocale_rerun _ _ _ _ _ _ w2 Hstep) as (data & entries & Htr & Hkeys & ->);
      [etrans; eassumption|].
    destruct (IH _ _ (registered locale data entries w2) Hrest Hsub)
      as (w2' & Hrun & Hdisk & Hinline & Htr' & Hkeys').
    exists w2'. split; [exact Hrun|]. split; [exact Hdisk|]. split; [exact Hinline|].
    split.
    + intros Heq. apply Htr'. simpl. rewrite Heq, Htr. reflexivity.
    + intros Heq. apply Hkeys'. simpl. rewrite Heq, Hkeys. reflexivity.
Qed.

Lemma World_eq (w1 w2 : World) :
  shouldInline w1 = shouldInline w2 →
  translations w1 = translations w2 →
  pluralKeys w1 = pluralKeys w2 →
  localeNames w1 = localeNames w2 →
  disk w1 = disk w2 →
  w1 = w2.
Proof. destruct w1, w2. simpl. intros -> -> -> -> ->. reflexivity. Qed.

(** A second [buildStart] on what the first one left returns as well and
    changes nothing. *)
Lemma buildStart_rerun fuel w w1 :
  buildStart resolve fuel P w = (Return tt, w1) →
  buildStart resolve fuel P w1 = (Return tt, w1).
Proof.
  intros Hrun. pose proof (buildStart_Return _ _ _ _ _ Hrun)
    as (_ & _ & _ & Htr1 & Hnames1 & _).
  revert Hrun. rewrite !buildStart_unfold.
  destruct (for_locales resolve fuel P (locales P) ∅ (reset w)) as [[fb| |] w1'] eqn:Hloop;
    try discriminate.
  intros [= ->].
  destruct (for_locales_rerun _ _ _ _ _ _ (reset w1) Hloop)
    as (w2 & Hrun2 & Hdisk & Hinline & Htr & Hkeys); [reflexivity|].
  pose proof (for_locales_Return resolve P (disk w1) fuel (locales P) ∅ (reset w1) fb w2
                (grown_refl resolve P (disk w1)) Hrun2)
    as (_ & _ & _ & Htr2 & Hnames2 & _).
  rewrite Hrun2. f_equal.
  specialize (Htr eq_refl). specialize (Hkeys eq_refl).
  apply World_eq; try assumption.
  apply map_eq. intros l. rewrite Hnames2. simpl.
  case_bool_decide as Hin; [|reflexivity].
  pose proof (Htr2 l) as H2. pose proof (Htr1 l) as H1.
  rewrite Hnames1. rewrite bool_decide_eq_true_2 in H1, H2 |- * by exact Hin.
  rewrite <- H1, <- H2, Htr. reflexivity.
Qed.

End Rerun.

(** *** Processed locales have a file *)

Section Files.
Variable resolve : string → string → string.
Variable P : Plugin.

Lemma processLocale_file fuel fallbacks locale w fallbacks' w' :
  processLocale resolve fuel P fallbacks locale w = (Return fallbacks', w') →
  is_Some (disk w' !! localeFile_of resolve P locale).
Proof.
  rewrite processLocale_unfold.
  destruct (exec_locale locale) as [[lang region]|]; [|discriminate].
  cbv zeta.
  destruct (disk w !! localeFile_of resolve P locale) as [text|] eqn:Hfile.
  - destruct (check_existing _ _ _ _ _ _ _ _) as [[data fb]| |]; try discriminate.
    destruct (Object_entries _); [|discriminate].
    intros [= <- <-]. simpl. rewrite Hfile. eauto.
  - intros [= <- <-]. simpl. rewrite lookup_insert_eq. eauto.
Qed.

Lemma for_locales_files fuel todo fallbacks w fallbacks' w' locale :
  for_locales resolve fuel P todo fallbacks w = (Return fallbacks', w') →
  locale ∈ todo →
  is_Some (disk w' !! localeFile_of resolve P locale).
Proof.
  revert fallbacks w. induction todo as [|l rest IH]; intros fallbacks w.
  - intros _ Hin. inversion Hin.
  - rewrite for_locales_cons.
    destruct (processLocale resolve fuel P fallbacks l w) as [[fb1| |] w1] eqn:Hstep;
      try discriminate.
    intros Hrest [->|Hin]%elem_of_cons; [|eapply IH; eassumption].
    destruct (processLocale_file _ _ _ _ _ _ Hstep) as [text Htext].
    pose proof (for_locales_disk resolve fuel P rest fb1 w1) as Hmono.
    rewrite Hrest in Hmono. simpl in Hmono.
    rewrite (lookup_weaken _ _ _ _ Htext Hmono). eauto.
Qed.

Lemma buildStart_files fuel w w' locale :
  buildStart resolve fuel P w = (Return tt, w') →
  locale ∈ locales P →
  is_Some (disk w' !! localeFile_of resolve P locale).
Proof.
  rewrite buildStart_unfold.
  destruct (for_locales resolve fuel P (locales P) ∅ (reset w)) as [[fb| |] w1] eqn:Hloop;
    try discriminate.
  intros [= <-]. eapply for_locales_files. exact Hloop.
Qed.

End Files.

(** ** The locale store *)

(** C10: [buildStart] never writes to a locale resource file that
    exists.  Whatever [buildStart] does (return, throw or hang), a path
    that holds a text before holds the same text after; back-filling
    the name and checking the fallback only touch the record in memory,
    and a file is written only where none was. *)
Theorem buildStart_keeps_existing_files resolve fuel P w path text :
  disk w !! path = Some text →
  disk (buildStart resolve fuel P w).2 !! path = Some text.
Proof.
  intros Hfile. eapply lookup_weaken; [exact Hfile|]. apply buildStart_disk.
Qed.

Lemma buildStart_keeps_existing_files_witness :
  disk (fresh files_chain) !! "/app/i18n/nl.json" =
    Some (locale_text "nl" (Some "en") ∅) ∧
  disk (buildStart join_path 1 (plugin_for ["en"; "nl"]) (fresh files_chain)).2
    !! "/app/i18n/nl.json" = Some (locale_text "nl" (Some "en") ∅).
Proof.
  split; [vm_compute; reflexivity|].
  apply (buildStart_keeps_existing_files join_path 1 (plugin_for ["en"; "nl"])
           (fresh files_chain) "/app/i18n/nl.json" (locale_text "nl" (Some "en") ∅)).
  vm_compute. reflexivity.
Defined.

Lemma record_of_dir resolve P P' files locale :
  localesDirAbs P' = localesDirAbs P →
  record_of resolve P' files locale = record_of resolve P files locale.
Proof. intros Hdir. unfold record_of, localeFile_of. rewrite Hdir. reflexivity. Qed.

Lemma plural_in_object data props key :
  field data "translations" = Own (JObj props) →
  plural_in data key ↔ ∃ tr, props !! key = Some tr ∧ is_object tr = true.
Proof.
  intros Hfield. unfold plural_in. rewrite Hfield. simpl. split.
  - intros (entries & tr & [= <-] & Hin%elem_of_map_to_list & Hobj). eauto.
  - intros (tr & Hlookup%elem_of_map_to_list & Hobj). eauto.
Qed.

(** C7: a configured locale without a resource file gets the default
    record (its own locale code, the name [<lang> (<REGION>)] or
    [<lang>], no translations) and the record is written to its file:
    the round of the loop for such a locale always returns.  Reading the
    file back, on any later disk, returns as well and yields the same
    record without writing.  And when [buildStart] as a whole has
    returned, a second [buildStart] on the disk it left returns too and
    leaves everything as it was. *)
Theorem default_record_round_trip resolve P w locale lang region :
  exec_locale locale = Some (lang, region) →
  disk w !! localeFile_of resolve P locale = None →
  let data := default_data locale lang region in
  let file := localeFile_of resolve P locale in
  (field data "locale" = Own (JStr locale) ∧
   field data "name" =
     Own (JStr match region with
               | Some r => lang +:+ " (" +:+ r +:+ ")"
               | None => lang
               end) ∧
   field data "translations" = Own (JObj ∅)) ∧
  (∀ fuel fallbacks,
     ∃ w1,
       processLocale resolve fuel P fallbacks locale w = (Return fallbacks, w1) ∧
       disk w1 = <[file := JSON_stringify data]> (disk w) ∧
       translations w1 !! locale = Some data ∧
       ∀ fuel' fallbacks' w2,
         disk w1 ⊆ disk w2 →
         ∃ w3,
           processLocale resolve fuel' P fallbacks' locale w2 = (Return fallbacks', w3) ∧
           disk w3 = disk w2 ∧
           translations w3 !! locale = Some data) ∧
  (∀ fuel w',
     buildStart resolve fuel P w = (Return tt, w') →
     locale ∈ locales P →
     translations w' !! locale = Some data ∧
     disk w' !! file = Some (JSON_stringify data) ∧
     buildStart resolve fuel P w' = (Return tt, w')).
Proof.
  intros Hexec Hfile data file.
  pose proof (exec_locale_nonempty _ _ _ Hexec) as Hne.
  split; [|split].
  - split; [reflexivity|]. split; [|reflexivity].
    unfold data. rewrite field_default_name. destruct region as [r|]; [reflexivity|].
    simpl. rewrite (exec_locale_lang _ _ Hexec). reflexivity.
  - intros fuel fallbacks. eexists. split.
    { rewrite processLocale_unfold, Hexec. cbv zeta. rewrite Hfile. reflexivity. }
    split; [reflexivity|]. split; [apply lookup_insert_eq|].
    intros fuel' fallbacks' w2 Hsub. eexists. split.
    { rewrite processLocale_unfold, Hexec. cbv zeta.
      assert (disk w2 !! localeFile_of resolve P locale =
              Some (Json (default_data locale lang region))) as ->.
      { eapply lookup_weaken; [|exact Hsub]. simpl. apply lookup_insert_eq. }
      rewrite check_existing_default by exact Hne. reflexivity. }
    split; [reflexivity|apply lookup_insert_eq].
  - intros fuel w' Hrun Hin.
    pose proof (buildStart_rerun _ _ _ _ _ Hrun) as Hrerun.
    destruct (buildStart_Return _ _ _ _ _ Hrun) as ([_ Hnew] & _ & _ & Htr & _).
    destruct (buildStart_Return _ _ _ _ _ Hrerun) as (_ & _ & _ & Htr' & _).
    specialize (Htr locale). specialize (Htr' locale).
    rewrite bool_decide_eq_true_2 in Htr, Htr' by exact Hin.
    unfold record_of in Htr. rewrite Hexec, Hfile in Htr.
    split; [exact Htr|]. split; [|exact Hrerun].
    destruct (buildStart_files _ _ _ _ _ _ Hrun Hin) as [text Htext].
    destruct (Hnew _ Hfile) as [Hnone|(l' & lang' & region' & Hexec' & Hpath & Hdef)];
      [unfold file; congruence|].
    rewrite Htr in Htr'. symmetry in Htr'.
    unfold record_of in Htr'. rewrite Hexec, Hdef in Htr'.
    assert (l' = locale) as ->.
    { unfold parsed_record in Htr'. cbn [JSON_parse default_data] in Htr'.
      fold (default_data l' lang' region') in Htr'.
      destruct (strict_ne_locale (field (default_data l' lang' region') "locale") locale)
        eqn:Hloc; [discriminate|].
      eapply default_data_inj, Hloc. }
    rewrite Hexec in Hexec'. injection Hexec' as <- <-. exact Hdef.
Qed.

Lemma default_record_round_trip_witness :
  let P := plugin_for ["de"; "nl"; "en"] in
  let w1 := (buildStart join_path 1 P (fresh files_chain)).2 in
  exec_locale "en" = Some ("en", None) ∧
  disk (fresh files_chain) !! "/app/i18n/en.json" = None ∧
  translations w1 !! "en" = Some (default_data "en" "en" None) ∧
  disk w1 !! "/app/i18n/en.json" = Some (Json (default_data "en" "en" None)) ∧
  buildStart join_path 1 P w1 = (Return tt, w1).
Proof.
  intros P w1.
  assert (exec_locale "en" = Some ("en", None)) as Hexec by reflexivity.
  assert (disk (fresh files_chain) !! localeFile_of join_path P "en" = None) as Hfile
    by (vm_compute; reflexivity).
  destruct (default_record_round_trip join_path P (fresh files_chain) "en" "en" None
              Hexec Hfile) as (_ & _ & Hbuild).
  destruct (Hbuild 1 w1) as (Htr & Hdisk & Hrerun);
    [vm_compute; reflexivity|repeat constructor|].
  split; [exact Hexec|]. split; [exact Hfile|].
  split; [exact Htr|]. split; [exact Hdisk|exact Hrerun].
Defined.

(** C4: after [buildStart] has returned, a key is in [pluralKeys]
    exactly when its value is object-typed in the translations of at
    least one configured locale; and listing the locales in another
    order leaves [pluralKeys] the same whenever [buildStart] returns for
    that order too. *)
Theorem pluralKeys_any_locale resolve fuel fuel' P P' w w1 w2 :
  buildStart resolve fuel P w = (Return tt, w1) →
  locales P' ≡ₚ locales P →
  localesDirAbs P' = localesDirAbs P →
  buildStart resolve fuel' P' w = (Return tt, w2) →
  (∀ key, key ∈ pluralKeys w1 ↔
          ∃ locale data, locale ∈ locales P ∧
                         translations w1 !! locale = Some data ∧
                         plural_in data key) ∧
  pluralKeys w2 = pluralKeys w1.
Proof.
  intros Hrun Hperm Hdir Hrun'.
  destruct (buildStart_Return _ _ _ _ _ Hrun) as (_ & _ & _ & Htr & _ & Hkeys).
  destruct (buildStart_Return _ _ _ _ _ Hrun') as (_ & _ & _ & _ & _ & Hkeys').
  split.
  - intros key. rewrite Hkeys. split.
    + intros (l & data & Hin & Hrec & Hpl). exists l, data.
      rewrite Htr, bool_decide_eq_true_2 by exact Hin. auto.
    + intros (l & data & Hin & Hrec & Hpl). exists l, data.
      rewrite Htr, bool_decide_eq_true_2 in Hrec by exact Hin. auto.
  - apply set_eq. intros key. rewrite Hkeys, Hkeys'. split.
    + intros (l & data & Hin & Hrec & Hpl). exists l, data.
      rewrite Hperm in Hin. rewrite (record_of_dir _ _ _ _ _ Hdir) in Hrec. auto.
    + intros (l & data & Hin & Hrec & Hpl). exists l, data.
      rewrite <- Hperm in Hin. rewrite <- (record_of_dir _ _ _ _ _ Hdir) in Hrec. auto.
Qed.

Lemma pluralKeys_any_locale_witness :
  let w1 := (buildStart join_path 1 (plugin_for ["en"; "nl"]) (fresh files_items)).2 in
  let w2 := (buildStart join_path 1 (plugin_for ["nl"; "en"]) (fresh files_items)).2 in
  buildStart join_path 1 (plugin_for ["en"; "nl"]) (fresh files_items) = (Return tt, w1) ∧
  buildStart join_path 1 (plugin_for ["nl"; "en"]) (fresh files_items) = (Return tt, w2) ∧
  "items" ∈ pluralKeys w1 ∧ ("hello" ∉ pluralKeys w1) ∧
  pluralKeys w2 = pluralKeys w1.
Proof.
  intros w1 w2.
  assert (buildStart join_path 1 (plugin_for ["en"; "nl"]) (fresh files_items) =
          (Return tt, w1)) as Hrun by (vm_compute; reflexivity).
  assert (buildStart join_path 1 (plugin_for ["nl"; "en"]) (fresh files_items) =
          (Return tt, w2)) as Hrun' by (vm_compute; reflexivity).
  destruct (pluralKeys_any_locale join_path 1 1
              (plugin_for ["en"; "nl"]) (plugin_for ["nl"; "en"])
              (fresh files_items) w1 w2 Hrun) as [Hiff Hsame];
    [apply perm_swap|reflexivity|exact Hrun'|].
  split; [exact Hrun|]. split; [exact Hrun'|].
  split; [|split; [|exact Hsame]].
  - vm_compute. reflexivity.
  - intros Hin. vm_compute in Hin. discriminate Hin.
Defined.

(** *** The locale pattern *)

Lemma is_sep_spec (s : ascii) : is_sep s = true ↔ s = "_"%char ∨ s = "-"%char.
Proof.
  unfold is_sep. rewrite orb_true_iff, !bool_decide_eq_true. reflexivity.
Qed.

(** The matcher of the code accepts exactly the strings of the
    specification's pattern. *)
Lemma exec_locale_spec locale : is_Some (exec_locale locale) ↔ LocaleCode locale.
Proof.
  split.
  - intros [groups Hexec].
    destruct locale as [|a [|b rest]]; simpl in Hexec; try discriminate.
    destruct (is_lower a) eqn:Ha; [|discriminate].
    destruct (is_lower b) eqn:Hb; [|discriminate].
    simpl in Hexec.
    destruct rest as [|s [|c [|d [|? ?]]]]; try discriminate.
    + constructor; assumption.
    + destruct (is_sep s) eqn:Hs; [|discriminate].
      destruct (is_upper c) eqn:Hc; [|discriminate].
      destruct (is_upper d) eqn:Hd; [|discriminate].
      constructor; try assumption. apply is_sep_spec, Hs.
  - intros [a b Ha Hb|a b s c d Ha Hb Hs Hc Hd]; simpl.
    + rewrite Ha, Hb. simpl. eauto.
    + apply is_sep_spec in Hs. rewrite Ha, Hb, Hs, Hc, Hd. simpl. eauto.
Qed.

Lemma exec_locale_None locale : exec_locale locale = None ↔ ¬ LocaleCode locale.
Proof.
  rewrite <- exec_locale_spec, <- eq_None_not_Some. reflexivity.
Qed.

Lemma buildStart_valid_locales resolve fuel P w w' :
  buildStart resolve fuel P w = (Return tt, w') → Forall LocaleCode (locales P).
Proof.
  intros (_ & _ & Hsome & _)%buildStart_Return.
  apply Forall_forall. intros l [data Hdata]%Hsome.
  apply exec_locale_spec. unfold record_of in Hdata.
  destruct (exec_locale l); [eauto|discriminate].
Qed.

Lemma check_existing_InvalidLocale fuel locales fallbacks locale lang region localeFile
    text bad :
  check_existing fuel locales fallbacks locale lang region localeFile text ≠
  Throw (InvalidLocale bad).
Proof.
  unfold check_existing.
  destruct (JSON_parse text) as [doc|]; [|discriminate].
  assert (∀ data, check_fallback fuel locales fallbacks locale localeFile data ≠
                  Throw (InvalidLocale bad)) as Hfb.
  { intros data. unfold check_fallback.
    destruct (field data "fallback") as [fallback| |]; try discriminate.
    destruct (truthy fallback); [|discriminate].
    destruct (negb (includes locales fallback));
      [destruct (ToString_throws fallback); discriminate|].
    unfold follow_loop. destruct fuel as [|fuel]; [discriminate|]. fold follow_loop.
    destruct (truthy_prop _ _); [|discriminate].
    destruct (strict_eq_string _ _); [discriminate|].
    destruct (follow_loop fuel _ _ _ _) eqn:Hloop; simpl; try discriminate.
    revert Hloop. clear. induction fuel as [|fuel IH]; simpl; [discriminate|].
    destruct (truthy_prop _ _); [|discriminate].
    destruct (strict_eq_string _ _); [|exact IH].
    intros [= <-] [=]. }
  destruct doc; try discriminate;
    (destruct (strict_ne_locale _ _);
       [destruct (template_throws _); discriminate|apply Hfb]).
Qed.

Section Pattern.
Variable resolve : string → string → string.

Lemma processLocale_InvalidLocale fuel P fallbacks locale w w' bad :
  processLocale resolve fuel P fallbacks locale w = (Throw (InvalidLocale bad), w') →
  bad = locale ∧ exec_locale locale = None.
Proof.
  rewrite processLocale_unfold.
  destruct (exec_locale locale) as [[lang region]|]; [|intros [= <- <-]; auto].
  cbv zeta.
  destruct (disk w !! localeFile_of resolve P locale) as [text|]; [|discriminate].
  pose proof (check_existing_InvalidLocale fuel (locales P) fallbacks locale lang region
                (localeFile_of resolve P locale) text bad) as Hcheck.
  destruct (check_existing _ _ _ _ _ _ _ _) as [[data fb]|e|]; try discriminate.
  - destruct (Object_entries _); discriminate.
  - intros [= -> <-]. destruct Hcheck. reflexivity.
Qed.

Lemma for_locales_InvalidLocale fuel P todo fallbacks w w' bad :
  for_locales resolve fuel P todo fallbacks w = (Throw (InvalidLocale bad), w') →
  bad ∈ todo ∧ exec_locale bad = None.
Proof.
  revert fallbacks w. induction todo as [|locale rest IH]; intros fallbacks w;
    [discriminate|].
  rewrite for_locales_cons.
  destruct (processLocale resolve fuel P fallbacks locale w) as [[fb1|e|] w1] eqn:Hstep;
    try discriminate.
  - intros [Hin Hexec]%IH. split; [right; exact Hin|exact Hexec].
  - intros [= -> <-]. apply processLocale_InvalidLocale in Hstep as [-> Hexec].
    split; [left|exact Hexec].
Qed.

End Pattern.

(** C5: [buildStart] accepts a configured locale exactly when it matches
    [^[a-z]{2}([_-][A-Z]{2})?$].  The matcher of the code agrees with
    that pattern; when the loop comes to a locale (the locales listed
    before it went through), [buildStart] fails with the error naming
    that locale if and only if the locale does not match; and
    [buildStart] only ever returns when every configured locale
    matches. *)
Theorem locale_pattern_check resolve fuel P w before locale after fallbacks w1 :
  locales P = before ++ locale :: after →
  for_locales resolve fuel P before ∅ (reset w) = (Return fallbacks, w1) →
  (LocaleCode locale ↔ is_Some (exec_locale locale)) ∧
  ((buildStart resolve fuel P w).1 = Throw (InvalidLocale locale) ↔
   ¬ LocaleCode locale) ∧
  ((buildStart resolve fuel P w).1 = Return tt → Forall LocaleCode (locales P)).
Proof.
  intros Hlist Hbefore. split; [symmetry; apply exec_locale_spec|]. split.
  - rewrite <- exec_locale_None. split.
    + rewrite buildStart_unfold.
      destruct (for_locales resolve fuel P (locales P) ∅ (reset w)) as [[fb|e|] w'] eqn:Hloop;
        try discriminate.
      simpl. intros [= ->]. apply for_locales_InvalidLocale in Hloop. apply Hloop.
    + intros Hexec. rewrite buildStart_unfold, Hlist, for_locales_app, Hbefore.
      rewrite for_locales_cons, processLocale_unfold, Hexec. reflexivity.
  - destruct (buildStart resolve fuel P w) as [result w'] eqn:Hrun. simpl.
    intros ->. eapply buildStart_valid_locales, Hrun.
Qed.

Lemma locale_pattern_check_witness :
  let P := plugin_for ["en"; "nl_NL"; "EN-us"; "de"] in
  let before := for_locales join_path 1 P ["en"; "nl_NL"] ∅ (reset (fresh ∅)) in
  before = (Return ∅, before.2) ∧
  ¬ LocaleCode "EN-us" ∧
  (buildStart join_path 1 P (fresh ∅)).1 = Throw (InvalidLocale "EN-us").
Proof.
  intros P before.
  assert (before = (Return ∅, before.2)) as Hbefore by (vm_compute; reflexivity).
  destruct (locale_pattern_check join_path 1 P (fresh ∅) ["en"; "nl_NL"] "EN-us" ["de"]
              ∅ before.2 eq_refl Hbefore) as (Hspec & Hiff & _).
  assert (¬ LocaleCode "EN-us") as Hbad.
  { intros [groups Hexec]%Hspec. discriminate Hexec. }
  split; [exact Hbefore|]. split; [exact Hbad|]. apply Hiff, Hbad.
Defined.

(** *** The fallback walk *)

(** The walk re-reads [fallbacks[data.fallback]] in every round, so once
    the target of a fallback has a fallback of its own that is not the
    current locale, no amount of fuel ends the loop. *)
Lemma check_fallback_hangs fuel locales fallbacks locale localeFile data target next :
  field data "fallback" = Own (JStr target) →
  target ≠ "" → target ∈ locales →
  fallbacks !! target = Some next → next ≠ "" → next ≠ locale →
  check_fallback fuel locales fallbacks locale localeFile data = OutOfFuel.
Proof.
  intros Hfield Htarget Hin Hnext Hne Hother. unfold check_fallback.
  rewrite Hfield. simpl.
  rewrite (bool_decide_eq_false_2 _ Htarget), (bool_decide_eq_true_2 _ Hin). simpl.
  rewrite follow_loop_spins; [reflexivity| |].
  - unfold obj_get. rewrite Hnext. simpl. unfold truthy_string.
    rewrite (bool_decide_eq_false_2 _ Hne). reflexivity.
  - unfold obj_get. rewrite Hnext. simpl. apply bool_decide_eq_false_2, Hother.
Qed.

(** A fallback whose target has no fallback yet is taken as it is. *)
Lemma check_fallback_first fuel locales fallbacks locale localeFile data target :
  field data "fallback" = Own (JStr target) →
  target ≠ "" → target ∈ locales →
  obj_get fallbacks target = Undefined →
  check_fallback (S fuel) locales fallbacks locale localeFile data =
  Return (data, <[locale := target]> fallbacks).
Proof.
  intros Hfield Htarget Hin Hnone. unfold check_fallback.
  rewrite Hfield. simpl.
  rewrite (bool_decide_eq_false_2 _ Htarget), (bool_decide_eq_true_2 _ Hin). simpl.
  rewrite Hnone. reflexivity.
Qed.

(** The one cycle the walk finds: the target falls back to the current
    locale. *)
Lemma check_fallback_circular fuel locales fallbacks locale localeFile data target :
  field data "fallback" = Own (JStr target) →
  target ≠ "" → target ∈ locales →
  fallbacks !! target = Some locale → locale ≠ "" →
  check_fallback (S fuel) locales fallbacks locale localeFile data =
  Throw (CircularFallback localeFile target).
Proof.
  intros Hfield Htarget Hin Hnext Hne. unfold check_fallback.
  rewrite Hfield. simpl.
  rewrite (bool_decide_eq_false_2 _ Htarget), (bool_decide_eq_true_2 _ Hin). simpl.
  unfold obj_get. rewrite Hnext. simpl. unfold truthy_string.
  rewrite (bool_decide_eq_false_2 _ Hne), bool_decide_eq_true_2 by reflexivity.
  reflexivity.
Qed.

Example two_cycle_rejected :
  (buildStart join_path 1 (plugin_for ["en"; "nl"]) (fresh files_cycle2)).1 =
  Throw (CircularFallback "/app/i18n/nl.json" "en").
Proof. vm_compute. reflexivity. Qed.

Lemma chain_hangs fuel :
  (buildStart join_path fuel (plugin_for ["en"; "nl"; "de"]) (fresh files_chain)).1 =
  OutOfFuel.
Proof.
  destruct fuel as [|fuel]; [vm_compute; reflexivity|].
  rewrite buildStart_fuel. vm_compute. reflexivity.
Qed.

(** C1: a fallback relation with a cycle makes [buildStart] fail, and an
    acyclic one lets it return.  The code does neither: a locale that
    falls back to itself goes through, a cycle of three locales hangs in
    every listing order instead of failing, and the acyclic chain
    [de -> nl -> en] hangs when [en] and [nl] are listed before [de]. *)
Theorem circular_fallbacks_get_through :
  (∀ fuel, (buildStart join_path (S fuel) (plugin_for ["en"]) (fresh files_self)).1 =
           Return tt) ∧
  (∀ order fuel, order ≡ₚ ["en"; "nl"; "de"] →
     (buildStart join_path fuel (plugin_for order) (fresh files_cycle3)).1 = OutOfFuel) ∧
  (∀ fuel,
     (buildStart join_path fuel (plugin_for ["en"; "nl"; "de"]) (fresh files_chain)).1 =
     OutOfFuel).
Proof.
  split; [|split; [|exact chain_hangs]].
  - intros fuel. rewrite buildStart_fuel. vm_compute. reflexivity.
  - intros order fuel Hperm.
    assert (order ∈ permutations ["en"; "nl"; "de"]) as Hin
      by (apply permutations_Permutation; symmetry; exact Hperm).
    vm_compute in Hin.
    repeat (apply elem_of_cons in Hin as [->|Hin];
            [destruct fuel as [|fuel];
               [vm_compute; reflexivity|rewrite buildStart_fuel; vm_compute; reflexivity]|]).
    inversion Hin.
Qed.

(** C2: the walk of [buildStart] ends for every list of locales and every
    set of files.  It does not: with [nl -> en] and [de -> nl] on disk,
    listing [en], [nl], [de] keeps the walk for [de] on the same entry
    of [fallbacks] for ever, while the reverse order returns. *)
Theorem fallback_walk_hangs :
  (∀ fuel,
     (buildStart join_path fuel (plugin_for ["en"; "nl"; "de"]) (fresh files_chain)).1 =
     OutOfFuel) ∧
  (∀ fuel,
     (buildStart join_path (S fuel) (plugin_for ["de"; "nl"; "en"]) (fresh files_chain)).1 =
     Return tt).
Proof.
  split; [exact chain_hangs|].
  intros fuel. rewrite buildStart_fuel. vm_compute. reflexivity.
Qed.

(** ** Strings *)

Lemma string_app_nil_r (s : string) : s +:+ "" = s.
Proof. induction s as [|c s IH]; [reflexivity|]. change (String c (s +:+ "") = String c s). rewrite IH. reflexivity. Qed.

Lemma string_app_assoc (s t u : string) : (s +:+ t) +:+ u = s +:+ (t +:+ u).
Proof.
  induction s as [|c s IH]; [reflexivity|].
  change (String c ((s +:+ t) +:+ u) = String c (s +:+ (t +:+ u))).
  rewrite IH. reflexivity.
Qed.

Lemma string_app_length (s t : string) :
  String.length (s +:+ t) = String.length s + String.length t.
Proof.
  induction s as [|c s IH]; [reflexivity|].
  change (S (String.length (s +:+ t)) = S (String.length s + String.length t)).
  rewrite IH. reflexivity.
Qed.

Lemma drop_prefix_app (prefix rest : string) :
  drop_prefix prefix (prefix +:+ rest) = Some rest.
Proof.
  induction prefix as [|c prefix IH]; [reflexivity|].
  change (drop_prefix (String c prefix) (String c (prefix +:+ rest)) = Some rest).
  simpl. rewrite Ascii.eqb_refl. exact IH.
Qed.

Lemma drop_prefix_Some (prefix s rest : string) :
  drop_prefix prefix s = Some rest → s = prefix +:+ rest.
Proof.
  revert s. induction prefix as [|c prefix IH]; intros s; simpl.
  - intros [= ->]. reflexivity.
  - destruct s as [|d s]; [discriminate|].
    destruct (Ascii.eqb c d) eqn:Heq; [|discriminate].
    apply Ascii.eqb_eq in Heq as ->. intros ->%IH. reflexivity.
Qed.

Lemma string_nonempty_cons (s : string) : s ≠ "" → ∃ c rest, s = String c rest.
Proof. destruct s as [|c rest]; [intros H; destruct H; reflexivity|eauto]. Qed.

Lemma occurs_app_r (token before s : string) :
  occurs token s → occurs token (before +:+ s).
Proof.
  intros (b & a & ->). exists (before +:+ b), a.
  rewrite string_app_assoc. reflexivity.
Qed.

Lemma occurs_app_l (token s after : string) :
  occurs token s → occurs token (s +:+ after).
Proof.
  intros (b & a & ->). exists b, (a +:+ after).
  rewrite !string_app_assoc. reflexivity.
Qed.

(** ** The virtual modules *)

Lemma buildStart_shouldInline resolve fuel P w :
  shouldInline (buildStart resolve fuel P w).2 = shouldInline w.
Proof.
  rewrite buildStart_unfold.
  assert (∀ todo fallbacks w0,
            shouldInline (for_locales resolve fuel P todo fallbacks w0).2 =
            shouldInline w0) as Hloop.
  { induction todo as [|locale rest IH]; intros fallbacks w0; [reflexivity|].
    rewrite for_locales_cons.
    assert (shouldInline (processLocale resolve fuel P fallbacks locale w0).2 =
            shouldInline w0) as Hstep.
    { rewrite processLocale_unfold.
      destruct (exec_locale locale) as [[lang region]|]; [|reflexivity].
      cbv zeta. destruct (disk w0 !! _); [|reflexivity].
      destruct (check_existing _ _ _ _ _ _ _ _) as [[data fb]| |]; try reflexivity.
      destruct (Object_entries _); reflexivity. }
    destruct (processLocale resolve fuel P fallbacks locale w0) as [[fb1| |] w1];
      simpl in *; [|exact Hstep|exact Hstep].
    rewrite IH. exact Hstep. }
  specialize (Hloop (locales P) ∅ (reset w)).
  destruct (for_locales resolve fuel P (locales P) ∅ (reset w)) as [[fb| |] w1];
    exact Hloop.
Qed.

(** *** Reading the locales module *)

Lemma lower_name_start (c : ascii) : is_lower c = true → is_name_start c = true.
Proof. intros Hc. unfold is_name_start. rewrite Hc. reflexivity. Qed.

Lemma upper_name_start (c : ascii) : is_upper c = true → is_name_start c = true.
Proof. intros Hc. unfold is_name_start. rewrite Hc, orb_true_r. reflexivity. Qed.

Lemma name_start_part (c : ascii) : is_name_start c = true → is_name_part c = true.
Proof. intros Hc. unfold is_name_part. rewrite Hc. reflexivity. Qed.

Lemma name_part_plain (c : ascii) : is_name_part c = true → is_plain_char c = true.
Proof. destruct c as [[] [] [] [] [] [] [] []]; try discriminate; reflexivity. Qed.

Lemma skip_trivia_name (c : ascii) (s : string) :
  is_name_start c = true → skip_trivia false (String c s) = Some (String c s).
Proof.
  destruct c as [[] [] [] [] [] [] [] []]; try discriminate; intros _;
    destruct s; reflexivity.
Qed.

Lemma name_chars_cons (c : ascii) (s : string) :
  is_name_part c = true →
  name_chars (String c s) = (String c (name_chars s).1, (name_chars s).2).
Proof. intros Hc. simpl. rewrite Hc. destruct (name_chars s). reflexivity. Qed.

Lemma name_chars_stop (c : ascii) (s : string) :
  is_name_part c = false → name_chars (String c s) = ("", String c s).
Proof. intros Hc. simpl. rewrite Hc. reflexivity. Qed.

Lemma is_plain_app (s t : string) : is_plain (s +:+ t) = is_plain s && is_plain t.
Proof.
  induction s as [|c s IH]; [reflexivity|].
  change (is_plain_char c && is_plain (s +:+ t) = is_plain_char c && is_plain s && is_plain t).
  rewrite IH, andb_assoc. reflexivity.
Qed.

Lemma read_quoted_app (value rest : string) :
  is_plain value = true → read_quoted (value +:+ String "'" rest) = Some (value, rest).
Proof.
  induction value as [|c value IH]; [reflexivity|].
  intros [Hc Hvalue]%andb_true_iff.
  change (read_quoted (String c (value +:+ String "'" rest)) = Some (String c value, rest)).
  cbn [read_quoted]. rewrite IH by exact Hvalue. rewrite Hc.
  destruct (Ascii.eqb_spec c "'") as [->|]; [discriminate Hc|reflexivity].
Qed.

Lemma LocaleCode_plain (l : string) : LocaleCode l → is_plain l = true.
Proof.
  intros [a b Ha Hb|a b s c d Ha Hb Hs Hc Hd]; cbn [is_plain];
    rewrite ?(name_part_plain a), ?(name_part_plain b), ?(name_part_plain c),
      ?(name_part_plain d)
      by auto using name_start_part, lower_name_start, upper_name_start;
    [reflexivity|].
  destruct Hs as [->| ->]; reflexivity.
Qed.

(** A locale code is an identifier name unless its separator is the
    hyphen. *)
Lemma LocaleCode_identifier (l : string) :
  LocaleCode l →
  is_identifier l = false ↔
  ∃ a b c d, l = String a (String b (String "-" (String c (String d "")))).
Proof.
  intros [a b Ha Hb|a b s c d Ha Hb Hs Hc Hd]; unfold is_identifier, read_name;
    rewrite (lower_name_start a Ha).
  - rewrite !name_chars_cons by auto using name_start_part, lower_name_start.
    cbn. split; [discriminate|]. intros (? & ? & ? & ? & [=]).
  - destruct Hs as [->| ->].
    + rewrite !name_chars_cons
        by auto using name_start_part, lower_name_start, upper_name_start.
      cbn. split; [discriminate|]. intros (? & ? & ? & ? & [=]).
    + rewrite 2!name_chars_cons by auto using name_start_part, lower_name_start.
      rewrite name_chars_stop by reflexivity. cbn. split; [eauto 6|reflexivity].
Qed.

Lemma read_name_locale (l : string) (stop : ascii) (rest : string) :
  LocaleCode l → is_identifier l = true → is_name_part stop = false →
  read_name (l +:+ String stop rest) = Some (l, String stop rest).
Proof.
  intros Hl Hid Hstop. pose proof (LocaleCode_identifier l Hl) as Hhyphen.
  destruct Hl as [a b Ha Hb|a b s c d Ha Hb Hs Hc Hd].
  - change (read_name (String a (String b (String stop rest))) =
            Some (String a (String b ""), String stop rest)).
    unfold read_name. rewrite (lower_name_start a Ha).
    rewrite !name_chars_cons by auto using name_start_part, lower_name_start.
    rewrite name_chars_stop by exact Hstop. reflexivity.
  - destruct Hs as [->| ->].
    + change (read_name (String a (String b (String "_" (String c (String d
                (String stop rest)))))) =
              Some (String a (String b (String "_" (String c (String d "")))),
                    String stop rest)).
      unfold read_name. rewrite (lower_name_start a Ha).
      rewrite !name_chars_cons
        by auto using name_start_part, lower_name_start, upper_name_start.
      rewrite name_chars_stop by exact Hstop. reflexivity.
    + rewrite (proj2 Hhyphen) in Hid by eauto 6. discriminate Hid.
Qed.

Lemma read_export_head (tail : string) :
  read_export ("export {default as " +:+ tail) = read_exported tail.
Proof. reflexivity. Qed.

Lemma read_from_head (name tail : string) :
  read_from name ("} from '" +:+ tail) =
  match read_quoted tail with
  | Some (path, s) =>
      match end_of_statement s with
      | Some s' => Some ((name, path), s')
      | None => None
      end
  | None => None
  end.
Proof.
  unfold read_from.
  change (skip_trivia false ("} from '" +:+ tail)) with (Some ("} from '" +:+ tail)).
  cbn [mbind option_bind].
  change (drop_prefix "}" ("} from '" +:+ tail)) with (Some (" from '" +:+ tail)).
  cbn [mbind option_bind].
  change (skip_trivia false (" from '" +:+ tail)) with (Some ("from '" +:+ tail)).
  cbn [mbind option_bind].
  change (read_word "from" ("from '" +:+ tail)) with (Some (" '" +:+ tail)).
  cbn [mbind option_bind].
  change (skip_trivia false (" '" +:+ tail)) with (skip_trivia false (String "'" tail)).
  assert (skip_trivia false (String "'" tail) = Some (String "'" tail)) as ->
    by (destruct tail; reflexivity).
  cbn [mbind option_bind].
  change (drop_prefix "'" (String "'" tail)) with (Some tail).
  cbn [mbind option_bind].
  destruct (read_quoted tail) as [[path s]|]; [|reflexivity].
  cbn [mbind option_bind]. destruct (end_of_statement s); reflexivity.
Qed.

Section LocalesModule.
Variable P : Plugin.
Hypothesis plain_dir : is_plain (localesDirAbs P) = true.

(** The declaration that [export_line] writes for a locale code that is
    an identifier name is read as the export of that locale. *)
Lemma read_export_line (l rest : string) :
  LocaleCode l → is_identifier l = true →
  read_export (export_line P l +:+ newline +:+ rest) = Some (locale_export P l, rest).
Proof.
  intros Hl Hid. unfold export_line. rewrite !string_app_assoc.
  rewrite read_export_head. unfold read_exported.
  assert (∃ c l', l = String c l' ∧ is_name_start c = true) as (c & l' & Heq & Hc).
  { destruct Hl as [a b Ha Hb|a b s c d Ha Hb Hs Hc Hd]; eauto using lower_name_start. }
  assert (∀ tail, skip_trivia false (l +:+ tail) = Some (l +:+ tail)) as ->.
  { intros tail. rewrite Heq. apply (skip_trivia_name c (l' +:+ tail) Hc). }
  cbn [mbind option_bind].
  change ("} from '" +:+ ?tail) with (String "}" (" from '" +:+ tail)).
  rewrite read_name_locale by (try assumption; reflexivity).
  cbn [mbind option_bind].
  change (String "}" (" from '" +:+ ?tail)) with ("} from '" +:+ tail).
  rewrite read_from_head.
  change (".json'" +:+ newline +:+ rest) with (".json" +:+ String "'" (newline +:+ rest)).
  rewrite <- 3!string_app_assoc.
  rewrite read_quoted_app.
  - rewrite !string_app_assoc. reflexivity.
  - rewrite !is_plain_app, plain_dir, (LocaleCode_plain _ Hl). reflexivity.
Qed.

(** The declaration written for a locale code with a hyphen is no
    declaration: the name ends at the hyphen, where the closing brace
    has to stand. *)
Lemma read_export_hyphen (l rest : string) :
  LocaleCode l → is_identifier l = false →
  read_export (export_line P l +:+ rest) = None.
Proof.
  intros Hl Hid. pose proof (proj1 (LocaleCode_identifier l Hl) Hid) as (a & b & c & d & ->).
  inversion Hl as [|a' b' s c' d' Ha Hb Hs Hc Hd]; subst.
  unfold export_line. rewrite !string_app_assoc.
  rewrite read_export_head. unfold read_exported.
  change (String a (String b (String "-" (String c (String d "")))) +:+ ?tail)
    with (String a (String b (String "-" (String c (String d tail))))).
  rewrite skip_trivia_name by (apply lower_name_start, Ha).
  cbn [mbind option_bind]. unfold read_name. rewrite (lower_name_start a Ha).
  rewrite 2!name_chars_cons by auto using name_start_part, lower_name_start.
  rewrite name_chars_stop by reflexivity. reflexivity.
Qed.

Lemma skip_trivia_export_line (l rest : string) :
  skip_trivia false (export_line P l +:+ rest) = Some (export_line P l +:+ rest).
Proof. reflexivity. Qed.

Lemma module_exports_lines (ls : list string) (fuel : nat) :
  Forall LocaleCode ls → (List.length ls < fuel)%nat →
  module_exports_from fuel (export_lines P ls) =
  if forallb is_identifier ls then Some (locale_export P <$> ls) else None.
Proof.
  intros Hls. revert fuel. induction Hls as [|l ls Hl Hls IH]; intros fuel Hfuel.
  - destruct fuel; [inversion Hfuel|reflexivity].
  - destruct fuel as [|fuel]; [inversion Hfuel|].
    cbn [export_lines module_exports_from forallb].
    rewrite skip_trivia_export_line.
    change (export_line P l +:+ ?tail) with (String "e" ("xport {default as " +:+
      l +:+ "} from '" +:+ localesDirAbs P +:+ "/" +:+ l +:+ ".json'") +:+ tail) at 1.
    cbv iota beta.
    destruct (is_identifier l) eqn:Hid.
    + rewrite read_export_line by assumption.
      rewrite IH by (simpl in Hfuel; lia).
      cbn [andb]. destruct (forallb is_identifier ls); reflexivity.
    + rewrite read_export_hyphen by assumption. reflexivity.
Qed.

Lemma length_export_lines (ls : list string) :
  (List.length ls ≤ String.length (export_lines P ls))%nat.
Proof.
  induction ls as [|l ls IH]; [reflexivity|].
  cbn [export_lines List.length]. rewrite !string_app_length.
  change (String.length newline) with 1. lia.
Qed.

Lemma join_export_lines (ls : list string) :
  ls ≠ [] → join_lines (export_line P <$> ls) +:+ newline = export_lines P ls.
Proof.
  induction ls as [|l ls IH]; [intros []; reflexivity|]. intros _.
  destruct ls as [|l' ls].
  - cbn [fmap list_fmap join_lines export_lines]. rewrite string_app_nil_r. reflexivity.
  - change (join_lines (export_line P <$> l :: l' :: ls)) with
      (export_line P l +:+ newline +:+ join_lines (export_line P <$> l' :: ls)).
    rewrite !string_app_assoc, IH by discriminate. reflexivity.
Qed.

(** What an importer finds in the locales module. *)
Lemma module_exports_locales_module :
  Forall LocaleCode (locales P) →
  module_exports (locales_module P) =
  if forallb is_identifier (locales P) then Some (locale_export P <$> locales P)
  else None.
Proof.
  intros Hls. unfold module_exports.
  change (module_exports_from (S (String.length (locales_module P))) (locales_module P))
    with (module_exports_from (S (String.length (locales_module P)))
            (join_lines (export_line P <$> locales P) +:+ newline)).
  destruct (locales P) as [|l ls] eqn:Hlocales; [reflexivity|].
  rewrite join_export_lines by discriminate.
  apply module_exports_lines; [exact Hls|].
  unfold locales_module. rewrite Hlocales, string_app_length.
  change (join_lines (export_line P <$> l :: ls) +:+ ?nl) with
    (join_lines (export_line P <$> l :: ls) +:+ newline).
  rewrite join_export_lines by discriminate.
  pose proof (length_export_lines (l :: ls)). lia.
Qed.

End LocalesModule.

(** C6: the locales module is the empty text exactly when [shouldInline]
    is true, and the empty text exports nothing; otherwise it is to
    export again, under its locale code, the record of every configured
    locale from the file of that locale.  For locale codes that are
    identifier names it does: the module reads as exactly these exports,
    in the order of the locales.  A locale code with a hyphen, which the
    locale pattern lets through, is no identifier name: the declaration
    written for it is no declaration, and the module as a whole reads
    as nothing.  [configResolved] sets [shouldInline] to "[build.ssr] is
    truthy or not [isProduction]", and that is still its value when
    [buildStart] is over, however it ends. *)
Theorem locales_module_by_mode JSON_text resolve fuel P w config :
  Forall LocaleCode (locales P) →
  is_plain (localesDirAbs P) = true →
  (load JSON_text P w locales_id = Some "" ↔ shouldInline w = true) ∧
  module_exports "" = Some [] ∧
  (shouldInline w = false →
   ∃ text,
     load JSON_text P w locales_id = Some text ∧
     module_exports text =
       if forallb is_identifier (locales P)
       then Some (locale_export P <$> locales P)
       else None) ∧
  (∀ l, l ∈ locales P →
     is_identifier l = false ↔
     ∃ a b c d, l = String a (String b (String "-" (String c (String d ""))))) ∧
  shouldInline (buildStart resolve fuel P (configResolved config w).2).2 =
    truthy_ssr (build_ssr config) || negb (isProduction config).
Proof.
  intros Hvalid Hdir.
  assert (load JSON_text P w locales_id =
          Some (if shouldInline w then "" else locales_module P)) as Hload
    by reflexivity.
  split; [|split; [|split; [|split]]].
  - rewrite Hload. destruct (shouldInline w); [split; reflexivity|].
    split; [|discriminate]. intros Hempty. exfalso. injection Hempty. discriminate.
  - reflexivity.
  - intros Hmode. rewrite Hload, Hmode. eexists. split; [reflexivity|].
    apply module_exports_locales_module; assumption.
  - intros l Hin. apply LocaleCode_identifier.
    eapply Forall_forall; [exact Hvalid|exact Hin].
  - rewrite buildStart_shouldInline. reflexivity.
Qed.

Lemma locales_module_by_mode_witness :
  module_exports (locales_module (plugin_for ["en"; "nl_NL"])) =
    Some [("en", "/app/i18n/en.json"); ("nl_NL", "/app/i18n/nl_NL.json")] ∧
  module_exports (locales_module (plugin_for ["en"; "en-US"])) = None.
Proof.
  assert (∀ ls, forallb (fun l => bool_decide (is_Some (exec_locale l))) ls = true →
                Forall LocaleCode ls) as Hvalid.
  { intros ls Hls. apply Forall_forall. intros l Hin. apply exec_locale_spec.
    rewrite forallb_forall in Hls. apply list_elem_of_In, Hls in Hin.
    apply bool_decide_eq_true in Hin. exact Hin. }
  split.
  - destruct (locales_module_by_mode (fun _ => "") join_path 1
                (plugin_for ["en"; "nl_NL"]) (fresh ∅)
                {| build_ssr := SsrFlag false; isProduction := true |})
      as (_ & _ & Hexports & _).
    + apply Hvalid. vm_compute. reflexivity.
    + vm_compute. reflexivity.
    + destruct (Hexports eq_refl) as (text & [= <-] & ->). vm_compute. reflexivity.
  - destruct (locales_module_by_mode (fun _ => "") join_path 1
                (plugin_for ["en"; "en-US"]) (fresh ∅)
                {| build_ssr := SsrFlag false; isProduction := true |})
      as (_ & _ & Hexports & _).
    + apply Hvalid. vm_compute. reflexivity.
    + vm_compute. reflexivity.
    + destruct (Hexports eq_refl) as (text & [= <-] & ->). vm_compute. reflexivity.
Defined.

(** ** [transform] *)

Lemma at_end_or_query_spec (after : string) :
  at_end_or_query after = true ↔ after = "" ∨ ∃ query, after = String "?" query.
Proof.
  destruct after as [|c after]; unfold at_end_or_query.
  - split; [auto|reflexivity].
  - rewrite Ascii.eqb_eq. split.
    + intros ->. right. eauto.
    + intros [[=]|(query & [= -> _])]. reflexivity.
Qed.

Lemma extension_here_spec (s : string) :
  extension_here s = true ↔
  ∃ ext after, ext ∈ source_extensions ∧ s = "." +:+ ext +:+ after ∧
               (after = "" ∨ ∃ query, after = String "?" query).
Proof.
  split.
  - destruct s as [|c rest]; [discriminate|]. unfold extension_here.
    intros [Hdot%Ascii.eqb_eq Hext%existsb_exists]%andb_true_iff. subst c.
    destruct Hext as (ext & Hin%list_elem_of_In & Hmatch).
    destruct (drop_prefix ext rest) as [after|] eqn:Hdrop; [|discriminate].
    apply drop_prefix_Some in Hdrop as ->. apply at_end_or_query_spec in Hmatch.
    exists ext, after. auto.
  - intros (ext & after & Hin & -> & Hafter).
    change (extension_here (String "." (ext +:+ after)) = true).
    unfold extension_here. apply andb_true_iff. split; [apply Ascii.eqb_refl|].
    apply existsb_exists. exists ext. split; [apply list_elem_of_In, Hin|].
    rewrite drop_prefix_app. apply at_end_or_query_spec, Hafter.
Qed.

Lemma test_extension_cons (c : ascii) (rest : string) :
  test_extension (String c rest) =
  extension_here (String c rest) || test_extension rest.
Proof. reflexivity. Qed.

(** The test of the code finds exactly the ids with a recognized
    extension at the end or before a question mark. *)
Lemma test_extension_spec (id : string) :
  test_extension id = true ↔ has_source_extension id.
Proof.
  unfold has_source_extension. split.
  - induction id as [|c rest IH]; [discriminate|].
    rewrite test_extension_cons.
    intros [Hhere|Hrest]%orb_true_iff.
    + apply extension_here_spec in Hhere as (ext & after & Hin & Heq & Hafter).
      exists "", ext, after. auto.
    + destruct (IH Hrest) as (before & ext & after & Hin & -> & Hafter).
      exists (String c before), ext, after. auto.
  - intros (before & ext & after & Hin & -> & Hafter).
    induction before as [|c before IH].
    + change (test_extension (String "." (ext +:+ after)) = true).
      rewrite test_extension_cons. apply orb_true_iff. left.
      apply extension_here_spec. exists ext, after. auto.
    + change (test_extension (String c (before +:+ "." +:+ ext +:+ after)) = true).
      rewrite test_extension_cons, IH. apply orb_true_r.
Qed.

(** C9: [transform] returns [null] whenever [shouldInline] is false or
    the id has no recognized source-file extension ([.cjs], [.js],
    [.mjs], [.ts], [.jsx], [.tsx] at the end of the path or before a
    question mark); in the remaining case, and only then, it hands the
    module to the transform engine. *)
Theorem transform_null_unless_inline_source
    (BabelPlugins Transformed : Type)
    (transformLocalize : string → string → gset string → option BabelPlugins → Transformed)
    (babelPlugins : option BabelPlugins) (w : World) (code id : string) :
  (transform BabelPlugins Transformed transformLocalize babelPlugins w code id = None ↔
   shouldInline w = false ∨ ¬ has_source_extension id) ∧
  (shouldInline w = true ∧ has_source_extension id ↔
   transform BabelPlugins Transformed transformLocalize babelPlugins w code id =
   Some (transformLocalize id code (pluralKeys w) babelPlugins)).
Proof.
  unfold transform. rewrite <- test_extension_spec.
  destruct (shouldInline w), (test_extension id); simpl; split; split;
    try (intros [? ?]); try (intros [?|?]); try discriminate; try congruence; auto.
Qed.

Example test_extension_query : test_extension "/src/app.tsx?v=1" = true.
Proof. reflexivity. Qed.
Example test_extension_end : test_extension "/src/main.mjs" = true.
Proof. reflexivity. Qed.
Example test_extension_map : test_extension "/src/main.js.map" = false.
Proof. reflexivity. Qed.
Example test_extension_json : test_extension "/i18n/en.json" = false.
Proof. reflexivity. Qed.

(** ** The state module at run time *)

Module StateModuleFacts.
Import StateModule.

(** A locale that [localeNames] does not hold, and whose name is not one
    that objects inherit, is refused. *)
Lemma checkLocale_unknown (localeNames : gmap string JSON) (l : Locale) :
  localeNames !! to_key l = None →
  to_key l ∉ Object_prototype →
  _checkLocale localeNames l = Throw (TypeError ("unknown locale " +:+ to_key l)).
Proof.
  intros Hnone Hproto. unfold _checkLocale, obj_get.
  rewrite Hnone, (bool_decide_eq_false_2 _ Hproto). reflexivity.
Qed.

(** A locale with a truthy name in [localeNames] is let through. *)
Lemma checkLocale_known (localeNames : gmap string JSON) (l : Locale) (name : JSON) :
  localeNames !! to_key l = Some name → truthy name = true →
  _checkLocale localeNames l = Return tt.
Proof.
  intros Hname Htruthy. unfold _checkLocale, obj_get.
  rewrite Hname. simpl. rewrite Htruthy. reflexivity.
Qed.

(** So is any name that objects inherit from [Object.prototype]. *)
Lemma checkLocale_inherited (localeNames : gmap string JSON) (l : Locale) :
  localeNames !! to_key l = None →
  to_key l ∈ Object_prototype →
  _checkLocale localeNames l = Return tt.
Proof.
  intros Hnone Hproto. unfold _checkLocale, obj_get.
  rewrite Hnone, (bool_decide_eq_true_2 _ Hproto). reflexivity.
Qed.

Lemma setDefaultLocale_unknown localeNames l st :
  localeNames !! to_key l = None →
  to_key l ∉ Object_prototype →
  setDefaultLocale localeNames l st =
  (Throw (TypeError ("unknown locale " +:+ to_key l)), st).
Proof.
  intros Hnone Hproto. unfold setDefaultLocale.
  rewrite checkLocale_unknown by assumption. reflexivity.
Qed.

Lemma setDefaultLocale_known localeNames l name st :
  localeNames !! to_key l = Some name → truthy name = true →
  ∃ st', setDefaultLocale localeNames l st = (Return tt, st') ∧
         defaultLocale st' = l.
Proof.
  intros Hname Htruthy. unfold setDefaultLocale.
  rewrite (checkLocale_known _ _ _ Hname Htruthy). eauto.
Qed.

Lemma getLocale_unknown localeNames fn st :
  let l := or_default (fn tt) (defaultLocale st) in
  localeNames !! to_key l = None →
  to_key l ∉ Object_prototype →
  getLocale localeNames (setLocaleGetter fn st) =
  (Throw (TypeError ("unknown locale " +:+ to_key l)), setLocaleGetter fn st).
Proof.
  intros l Hnone Hproto. unfold getLocale. simpl. fold l.
  rewrite checkLocale_unknown by assumption. reflexivity.
Qed.

End StateModuleFacts.

(** C8: [setDefaultLocale], and [getLocale] after [setLocaleGetter],
    raise a [TypeError] for every locale that the known-locale-name
    mapping does not hold.  The check reads [localeNames[l]] on a plain
    object, and the names inherited from [Object.prototype] are truthy
    there: with the names that [buildStart] collects for [en] and [nl],
    [setDefaultLocale('constructor')] returns and stores the value, and
    a getter that yields ['toString'] makes [getLocale] return it. *)
Theorem inherited_names_pass_checkLocale :
  let names := localeNames (buildStart join_path 1 (plugin_for ["en"; "nl"]) (fresh ∅)).2 in
  let st := StateModule.init (Some "en") in
  names !! "constructor" = None ∧ names !! "toString" = None ∧
  StateModule.setDefaultLocale names (Some "constructor") st =
    (Return tt,
     StateModule.Build_State (Some "constructor") (Some "en") None) ∧
  (StateModule.getLocale names
     (StateModule.setLocaleGetter (fun _ => Some "toString") st)).1 =
    Return (Some "toString") ∧
  StateModule.setDefaultLocale names (Some "fr") st =
    (Throw (TypeError "unknown locale fr"), st).
Proof.
  intros names st.
  split; [vm_compute; reflexivity|]. split; [vm_compute; reflexivity|].
  split; [vm_compute; reflexivity|]. split; vm_compute; reflexivity.
Qed.

(** ** Substituting a token *)

Section ReplaceAll.
Variables token by_ : string.
Variable first : ascii.
Variable tail : string.
Hypothesis token_nonempty : token ≠ "".
(** The replacement starts with a character that the token does not
    contain, and no end of it starts the token again. *)
Hypothesis by_first : by_ = String first tail.
Hypothesis first_fresh : first ∉ list_ascii_of_string token.
Hypothesis no_restart :
  ∀ u v x, by_ = u +:+ v → v ≠ "" → drop_prefix token (v +:+ x) = None.

Lemma token_cons : ∃ t word, token = String t word.
Proof. apply string_nonempty_cons, token_nonempty. Qed.

Lemma drop_prefix_shorter (s rest : string) :
  drop_prefix token s = Some rest → String.length rest < String.length s.
Proof.
  intros ->%drop_prefix_Some. rewrite string_app_length.
  destruct token_cons as (t & word & ->). simpl. lia.
Qed.

Lemma occurs_app_split (u x : string) :
  occurs token (u +:+ x) →
  occurs token x ∨
  ∃ u1 u2, u = u1 +:+ u2 ∧ u2 ≠ "" ∧ is_Some (drop_prefix token (u2 +:+ x)).
Proof.
  induction u as [|c u IH]; [left; assumption|].
  intros (before & after & Heq). destruct before as [|d before].
  - right. exists "", (String c u). split; [reflexivity|]. split; [discriminate|].
    rewrite Heq. change ("" +:+ token +:+ after) with (token +:+ after).
    rewrite drop_prefix_app. eauto.
  - change (String c (u +:+ x) = String d (before +:+ token +:+ after)) in Heq.
    injection Heq as -> Heq.
    destruct IH as [Hx|(u1 & u2 & -> & Hne & Hsome)]; [exists before, after; exact Heq|auto|].
    right. exists (String d u1), u2. auto.
Qed.

(** A token-free word that heads the result heads the input as well. *)
Lemma prefix_of_replaced (word : string) :
  first ∉ list_ascii_of_string word →
  ∀ fuel s, String.length s < fuel →
    is_Some (drop_prefix word (replace_all_from fuel token by_ s)) →
    is_Some (drop_prefix word s).
Proof.
  induction word as [|d word IH]; intros Hfresh fuel s Hfuel; [simpl; eauto|].
  simpl in Hfresh. apply not_elem_of_cons in Hfresh as [Hd Hfresh].
  destruct fuel as [|fuel]; [lia|]. simpl.
  destruct (drop_prefix token s) as [rest|] eqn:Hdrop.
  - rewrite by_first.
    change (String first tail +:+ replace_all_from fuel token by_ rest)
      with (String first (tail +:+ replace_all_from fuel token by_ rest)).
    simpl. destruct (Ascii.eqb_spec d first) as [->|_]; [destruct Hd; reflexivity|].
    intros [? [=]].
  - destruct s as [|c s]; [intros [? [=]]|]. simpl.
    destruct (Ascii.eqb d c); [|intros [? [=]]].
    apply (IH Hfresh). simpl in Hfuel. lia.
Qed.

Lemma replace_all_from_clean (fuel : nat) (s : string) :
  String.length s < fuel → ¬ occurs token (replace_all_from fuel token by_ s).
Proof.
  revert s. induction fuel as [|fuel IH]; intros s Hfuel; [lia|]. simpl.
  destruct (drop_prefix token s) as [rest|] eqn:Hdrop.
  - pose proof (drop_prefix_shorter _ _ Hdrop) as Hshorter.
    intros [Hocc|(u1 & u2 & Hsplit & Hne & Hsome)]%occurs_app_split.
    + revert Hocc. apply IH. lia.
    + rewrite (no_restart u1 u2 _ Hsplit Hne) in Hsome. destruct Hsome as [? [=]].
  - destruct s as [|c s].
    + intros (before & after & Heq). destruct before; [|discriminate Heq].
      destruct token_cons as (t & word & Htoken). rewrite Htoken in Heq.
      discriminate Heq.
    + intros (before & after & Heq). destruct before as [|d before].
      * change (String c (replace_all_from fuel token by_ s) = token +:+ after) in Heq.
        set (replaced := replace_all_from fuel token by_ s) in *.
        destruct token_cons as (t & word & Htoken).
        rewrite Htoken in Heq.
        change (String c replaced = String t (word +:+ after)) in Heq.
        injection Heq as -> Heq.
        assert (is_Some (drop_prefix word s)) as [rest Hrest].
        { apply (prefix_of_replaced word) with (fuel := fuel).
          - intros Hin. apply first_fresh. rewrite Htoken. simpl. right. exact Hin.
          - simpl in Hfuel. lia.
          - fold replaced. rewrite Heq, drop_prefix_app. eauto. }
        rewrite Htoken in Hdrop. simpl in Hdrop.
        rewrite Ascii.eqb_refl, Hrest in Hdrop. discriminate Hdrop.
      * change (String c (replace_all_from fuel token by_ s) =
                String d (before +:+ token +:+ after)) in Heq.
        injection Heq as _ Heq.
        apply (IH s); [simpl in Hfuel; lia|]. exists before, after. exact Heq.
Qed.

Lemma replace_all_clean (s : string) : ¬ occurs token (replace_all token by_ s).
Proof. apply replace_all_from_clean. lia. Qed.

End ReplaceAll.

Example replaceGlobals_twice :
  replaceGlobals "let l = '__$LOCALE$__'; f(__$LOCALE$__)" "en_US" ∅ =
  "let l = 'en_US'; f(en_US)".
Proof. reflexivity. Qed.

Lemma lower_not_underscore (c : ascii) : is_lower c = true → Ascii.eqb "_" c = false.
Proof. intros Hc. destruct (Ascii.eqb_spec "_" c) as [<-|]; [discriminate Hc|reflexivity]. Qed.

Lemma upper_not_underscore (c : ascii) : is_upper c = true → Ascii.eqb "_" c = false.
Proof. intros Hc. destruct (Ascii.eqb_spec "_" c) as [<-|]; [discriminate Hc|reflexivity]. Qed.

Lemma lower_not_in_token (c : ascii) :
  is_lower c = true → c ∉ list_ascii_of_string LOCALE_TOKEN.
Proof.
  intros Hc Hin. simpl in Hin.
  repeat (apply elem_of_cons in Hin as [->|Hin]; [discriminate Hc|]).
  inversion Hin.
Qed.

Lemma token_after_underscore (c : ascii) (x : string) :
  Ascii.eqb "_" c = false → drop_prefix LOCALE_TOKEN (String c x) = None.
Proof. intros Hc. unfold LOCALE_TOKEN. cbn [drop_prefix]. rewrite Hc. reflexivity. Qed.

Lemma string_app_eq_cons (c : ascii) (s u v : string) :
  String c s = u +:+ v →
  (u = "" ∧ v = String c s) ∨ ∃ u', u = String c u' ∧ s = u' +:+ v.
Proof.
  destruct u as [|d u].
  - intros Heq. left. split; [reflexivity|symmetry; exact Heq].
  - intros [= <- ->]. right. eauto.
Qed.

Lemma string_app_eq_nil (u v : string) : "" = u +:+ v → u = "" ∧ v = "".
Proof.
  destruct u as [|d u]; [|discriminate].
  intros Heq. split; [reflexivity|symmetry; exact Heq].
Qed.

(** No end of a locale code starts the token. *)
Lemma locale_no_restart (locale u v x : string) :
  LocaleCode locale → locale = u +:+ v → v ≠ "" →
  drop_prefix LOCALE_TOKEN (v +:+ x) = None.
Proof.
  intros [a b Ha Hb|a b s c d Ha Hb Hs Hc Hd] Hsplit Hne;
    repeat first
      [ apply string_app_eq_cons in Hsplit as [[-> ->]|(? & -> & Hsplit)]
      | apply string_app_eq_nil in Hsplit as [-> ->] ];
    try (destruct Hne; reflexivity);
    try (apply token_after_underscore, lower_not_underscore; assumption);
    try (apply token_after_underscore, upper_not_underscore; assumption).
  change (drop_prefix LOCALE_TOKEN (String s (String c (String d x))) = None).
  unfold LOCALE_TOKEN. cbn [drop_prefix].
  rewrite (upper_not_underscore c Hc). destruct (Ascii.eqb "_" s); reflexivity.
Qed.

(** Once [replaceGlobals] has stamped a chunk with a locale code, the
    token stands nowhere in it. *)
Lemma replaceGlobals_clean (code locale : string) (translations : gmap string JSON) :
  LocaleCode locale → ¬ occurs LOCALE_TOKEN (replaceGlobals code locale translations).
Proof.
  intros Hlocale. unfold replaceGlobals.
  assert (∃ a rest, locale = String a rest ∧ is_lower a = true) as (a & rest & Heq & Ha).
  { destruct Hlocale; eauto. }
  apply (replace_all_clean LOCALE_TOKEN locale a rest).
  - discriminate.
  - exact Heq.
  - apply lower_not_in_token, Ha.
  - intros u v x. apply locale_no_restart, Hlocale.
Qed.

(** ** [generateBundle] *)

Lemma bind_uniform_length {A B : Type} (f : A → list B) (l : list A) (n : nat) :
  (∀ x, length (f x) = n) → length (l ≫= f) = length l * n.
Proof.
  intros Hn. induction l as [|x l IH]; [reflexivity|].
  rewrite bind_cons, length_app, Hn, IH. reflexivity.
Qed.

Lemma bind_uniform_lookup {A B : Type} (f : A → list B) (l : list A) (n i j : nat) (x : A) :
  (∀ x, length (f x) = n) → l !! i = Some x → j < n →
  (l ≫= f) !! (i * n + j) = f x !! j.
Proof.
  intros Hn. revert i. induction l as [|y l IH]; intros i Hi Hj; [discriminate Hi|].
  rewrite bind_cons. destruct i as [|i].
  - injection Hi as ->. simpl. apply lookup_app_l. rewrite Hn. exact Hj.
  - simpl in Hi. rewrite lookup_app_r by (rewrite Hn; simpl; lia).
    rewrite Hn. replace (S i * n + j - n) with (i * n + j) by (simpl; lia).
    apply IH; assumption.
Qed.

Section GenerateBundleFacts.
Variable Bundle : Type.
Variable bundle_entries : Bundle → list (string * OutputFile).
Variable emitFile : EmittedFile → Bundle → Bundle.
(** Emitting a file leaves the entries of the bundle as they are. *)
Hypothesis emitFile_entries :
  ∀ file bundle, bundle_entries (emitFile file bundle) = bundle_entries bundle.

Lemma emit_entries_spec w locale entries bundle :
  (emit_entries Bundle emitFile w locale entries bundle).1 = copy_for w locale <$> entries ∧
  bundle_entries (emit_entries Bundle emitFile w locale entries bundle).2 =
    bundle_entries bundle.
Proof.
  revert bundle. induction entries as [|entry rest IH]; intros bundle; [auto|].
  simpl. specialize (IH (emitFile (copy_for w locale entry) bundle)).
  destruct (emit_entries Bundle emitFile w locale rest _) as [emitted bundle'].
  simpl in *. destruct IH as [-> ->]. rewrite emitFile_entries. auto.
Qed.

Lemma emit_locales_spec w todo bundle :
  (emit_locales Bundle bundle_entries emitFile w todo bundle).1 =
  locale ← todo; copy_for w locale <$> bundle_entries bundle.
Proof.
  revert bundle. induction todo as [|locale rest IH]; intros bundle; [reflexivity|].
  rewrite bind_cons. cbn [emit_locales].
  destruct (emit_entries_spec w locale (bundle_entries bundle) bundle) as [Hfiles Hsame].
  destruct (emit_entries Bundle emitFile w locale (bundle_entries bundle) bundle)
    as [emitted bundle'].
  specialize (IH bundle').
  destruct (emit_locales Bundle bundle_entries emitFile w rest bundle')
    as [emitted' bundle''].
  cbn [fst snd] in *. rewrite Hfiles, IH, Hsame. reflexivity.
Qed.

End GenerateBundleFacts.

(** With a bundler whose [emitFile] leaves the entries of the bundle as
    they are, and with the locales that [buildStart] lets through,
    [generateBundle] emits for each configured locale and each file of
    the bundle one file at [<locale>/<fileName>]: for a chunk, its code
    with the locale token substituted everywhere, so that no token is
    left; for an asset, its source as it is. *)
Theorem generateBundle_copies (Bundle : Type)
    (bundle_entries : Bundle → list (string * OutputFile))
    (emitFile : EmittedFile → Bundle → Bundle)
    (P : Plugin) (w : World) (bundle : Bundle) :
  (∀ file b, bundle_entries (emitFile file b) = bundle_entries b) →
  Forall LocaleCode (locales P) →
  let emitted := (generateBundle Bundle bundle_entries emitFile P w bundle).1 in
  let files := bundle_entries bundle in
  (shouldInline w = false → emitted = []) ∧
  (shouldInline w = true →
   length emitted = length (locales P) * length files ∧
   ∀ i j locale name chunk,
     locales P !! i = Some locale → files !! j = Some (name, chunk) →
     ∃ file,
       emitted !! (i * length files + j) = Some file ∧
       fileName file = locale +:+ "/" +:+ name ∧
       match chunk with
       | OutputChunk code =>
           source file = replaceGlobals code locale (translations w) ∧
           ¬ occurs LOCALE_TOKEN (source file)
       | OutputAsset source' => source file = source'
       end).
Proof.
  intros Hhost Hvalid emitted files. subst emitted files. unfold generateBundle.
  split; [intros ->; reflexivity|].
  intros ->. simpl. rewrite (emit_locales_spec _ _ _ Hhost).
  assert (∀ locale, length (copy_for w locale <$> bundle_entries bundle) =
                    length (bundle_entries bundle)) as Hlen
    by (intros locale; apply length_fmap).
  split; [apply bind_uniform_length, Hlen|].
  intros i j locale name chunk Hi Hj.
  rewrite (bind_uniform_lookup _ _ (length (bundle_entries bundle)) i j locale Hlen Hi)
    by (eapply lookup_lt_Some, Hj).
  rewrite list_lookup_fmap, Hj. simpl.
  eexists. split; [reflexivity|].
  destruct chunk as [code|source']; simpl; [|auto].
  split; [reflexivity|]. split; [reflexivity|].
  apply replaceGlobals_clean.
  eapply Forall_forall; [exact Hvalid|]. eapply list_elem_of_lookup_2, Hi.
Qed.

Lemma generateBundle_copies_witness :
  let P := plugin_for ["en"; "nl_NL"] in
  let w := set_shouldInline true (fresh ∅) in
  Forall LocaleCode (locales P) ∧
  (generateBundle _ id emit_aside P w bundle_demo).1 =
    [ {| fileName := "en/assets/app.js"; source := "export const locale = 'en'" |};
      {| fileName := "en/assets/logo.svg"; source := "<svg/>" |};
      {| fileName := "nl_NL/assets/app.js"; source := "export const locale = 'nl_NL'" |};
      {| fileName := "nl_NL/assets/logo.svg"; source := "<svg/>" |} ] ∧
  ¬ occurs LOCALE_TOKEN "export const locale = 'nl_NL'".
Proof.
  intros P w.
  assert (Forall LocaleCode (locales P)) as Hvalid.
  { repeat constructor; apply exec_locale_spec; vm_compute; eauto. }
  destruct (generateBundle_copies _ id emit_aside P w bundle_demo
              (fun _ _ => eq_refl) Hvalid) as [_ Hinline].
  destruct (Hinline eq_refl) as [_ Hfiles].
  destruct (Hfiles 1 0 "nl_NL" "assets/app.js"
              (OutputChunk "export const locale = '__$LOCALE$__'") eq_refl eq_refl)
    as (file & Hfile & _ & Hsource & Hclean).
  rewrite Hsource in Hclean.
  split; [exact Hvalid|]. split; [reflexivity|exact Hclean].
Defined.

(** With a bundler that puts every emitted file into the bundle, the
    entries taken for the second locale hold the copies made for the
    first one, and these are copied again. *)
Example generateBundle_emit_into :
  fileName <$> (generateBundle _ id emit_into (plugin_for ["en"; "nl"])
                  (set_shouldInline true (fresh ∅)) bundle_demo).1 =
  [ "en/assets/app.js"; "en/assets/logo.svg";
    "nl/assets/app.js"; "nl/assets/logo.svg";
    "nl/en/assets/app.js"; "nl/en/assets/logo.svg" ].
Proof. reflexivity. Qed.

Lemma fileName_copy_for w locale name chunk :
  fileName (copy_for w locale (name, chunk)) = locale +:+ "/" +:+ name.
Proof. destruct chunk; reflexivity. Qed.

(** The inner loop with that bundler: one copy per entry taken, and
    every copy is in the bundle afterwards. *)
Lemma emit_entries_into w locale entries (bundle : list (string * OutputFile)) :
  emit_entries _ emit_into w locale entries bundle =
  (copy_for w locale <$> entries,
   bundle ++ ((fun file => (fileName file, OutputAsset (source file))) <$>
              (copy_for w locale <$> entries))).
Proof.
  revert bundle. induction entries as [|entry rest IH]; intros bundle.
  - simpl. rewrite app_nil_r. reflexivity.
  - cbn [emit_entries]. rewrite IH. unfold emit_into.
    rewrite <- app_assoc. reflexivity.
Qed.

Lemma emit_locales_into_cons w locale rest (bundle : list (string * OutputFile)) :
  emit_locales _ id emit_into w (locale :: rest) bundle =
  ((copy_for w locale <$> bundle) ++
   (emit_locales _ id emit_into w rest
      (bundle ++ ((fun file => (fileName file, OutputAsset (source file))) <$>
                  (copy_for w locale <$> bundle)))).1,
   (emit_locales _ id emit_into w rest
      (bundle ++ ((fun file => (fileName file, OutputAsset (source file))) <$>
                  (copy_for w locale <$> bundle)))).2).
Proof.
  cbn [emit_locales]. change (id bundle) with bundle. rewrite emit_entries_into.
  destruct (emit_locales _ id emit_into w rest _). reflexivity.
Qed.

(** The outer loop with that bundler: every locale doubles the
    bundle. *)
Lemma emit_locales_into_length w todo (bundle : list (string * OutputFile)) :
  List.length (emit_locales _ id emit_into w todo bundle).1 =
    (List.length bundle * (2 ^ List.length todo - 1))%nat ∧
  List.length (emit_locales _ id emit_into w todo bundle).2 =
    (List.length bundle * 2 ^ List.length todo)%nat.
Proof.
  revert bundle. induction todo as [|locale rest IH]; intros bundle.
  - simpl. split; lia.
  - rewrite emit_locales_into_cons. set (bundle' := bundle ++ _).
    assert (List.length bundle' = (2 * List.length bundle)%nat) as Hlen.
    { unfold bundle'. rewrite length_app, !length_fmap. lia. }
    destruct (IH bundle') as [Hemitted Hbundle].
    cbn [fst snd]. rewrite length_app, length_fmap, Hemitted, Hbundle, Hlen.
    cbn [List.length]. rewrite Nat.pow_succ_r'.
    assert (1 ≤ 2 ^ List.length rest)%nat as Hpow
      by (apply Nat.neq_0_lt_0, Nat.pow_nonzero; discriminate).
    split; nia.
Qed.

(** C3: with [shouldInline] true, [generateBundle] is to emit exactly
    one copy per configured locale and file of the finished bundle, at
    [<locale>/<fileName>].  It takes the entries of the bundle anew for
    every locale, so with a bundler that puts each emitted file into the
    bundle it copies the copies as well: for two locales and more, every
    file of the bundle is also emitted at [<second>/<first>/<fileName>],
    and the number of emitted files is not the number of locales times
    the number of files, but the number of files times one less than
    two to the number of locales. *)
Theorem generateBundle_copies_of_copies (P : Plugin) (w : World)
    (bundle : list (string * OutputFile)) (first second : string) (rest : list string)
    (name : string) (chunk : OutputFile) :
  shouldInline w = true →
  locales P = first :: second :: rest →
  (name, chunk) ∈ bundle →
  let emitted := (generateBundle _ id emit_into P w bundle).1 in
  (∃ file, file ∈ emitted ∧
           fileName file = second +:+ "/" +:+ first +:+ "/" +:+ name) ∧
  List.length emitted =
    (List.length bundle * (2 ^ List.length (locales P) - 1))%nat ∧
  (List.length (locales P) * List.length bundle < List.length emitted)%nat.
Proof.
  intros Hinline Hlocales Hin emitted. subst emitted.
  unfold generateBundle. rewrite Hinline. cbn [negb].
  pose proof (emit_locales_into_length w (locales P) bundle) as [Hlen _].
  split; [|split; [exact Hlen|]].
  - rewrite Hlocales, 2!emit_locales_into_cons. cbn [fst].
    set (bundle' := bundle ++ _).
    exists (copy_for w second (first +:+ "/" +:+ name,
                               OutputAsset (source (copy_for w first (name, chunk))))).
    split; [|reflexivity].
    apply elem_of_app. right. apply elem_of_app. left.
    apply list_elem_of_fmap_2. unfold bundle'. apply elem_of_app. right.
    rewrite <- (fileName_copy_for w first name chunk).
    apply (list_elem_of_fmap_2
             (fun file => (fileName file, OutputAsset (source file)))).
    apply (list_elem_of_fmap_2 (copy_for w first)). exact Hin.
  - rewrite Hlen, Hlocales. cbn [List.length]. rewrite !Nat.pow_succ_r'.
    assert (0 < List.length bundle)%nat as Hsome
      by (destruct bundle; [inversion Hin|simpl; lia]).
    assert (List.length rest < 2 ^ List.length rest)%nat as Hpow
      by (apply Nat.pow_gt_lin_r; lia).
    nia.
Qed.

Lemma generateBundle_copies_of_copies_witness :
  (∃ file,
     file ∈ (generateBundle _ id emit_into (plugin_for ["en"; "nl_NL"])
               (set_shouldInline true (fresh ∅)) bundle_demo).1 ∧
     fileName file = "nl_NL/en/assets/app.js") ∧
  List.length (generateBundle _ id emit_into (plugin_for ["en"; "nl_NL"])
                 (set_shouldInline true (fresh ∅)) bundle_demo).1 = 6%nat.
Proof.
  destruct (generateBundle_copies_of_copies (plugin_for ["en"; "nl_NL"])
              (set_shouldInline true (fresh ∅)) bundle_demo "en" "nl_NL" []
              "assets/app.js" (OutputChunk "export const locale = '__$LOCALE$__'"))
    as (Hfile & Hlen & _).
  - reflexivity.
  - reflexivity.
  - left.
  - split; [exact Hfile|exact Hlen].
Defined.

(** ** [resolveId] and [load] *)

Lemma includes_string_spec (s needle : string) :
  includes_string s needle = true ↔ occurs needle s.
Proof.
  split.
  - induction s as [|c rest IH]; simpl.
    + destruct (drop_prefix needle "") as [after|] eqn:Hdrop; [|discriminate].
      intros _. apply drop_prefix_Some in Hdrop. exists "", after. exact Hdrop.
    + destruct (drop_prefix needle (String c rest)) as [after|] eqn:Hdrop.
      * intros _. apply drop_prefix_Some in Hdrop. exists "", after. exact Hdrop.
      * intros (before & after & ->)%IH. exists (String c before), after. reflexivity.
  - intros (before & after & ->). induction before as [|c before IH].
    + change ("" +:+ needle +:+ after) with (needle +:+ after).
      destruct (needle +:+ after) eqn:Hs; simpl; rewrite <- Hs, drop_prefix_app;
        reflexivity.
    + change (includes_string (String c (before +:+ needle +:+ after)) needle = true).
      simpl. destruct (drop_prefix needle _); [reflexivity|exact IH].
Qed.

(** X1: [resolveId] redirects an id to the locales module when it
    contains [/i18n/__locales.], else to the data module when it
    contains [/i18n/__data.], else to the state module when it contains
    [/i18n/__state.], and leaves every other id alone; whatever it
    redirects to is served by [load], and [load] serves nothing but
    these three ids. *)
Theorem resolveId_load (JSON_text : JSON → string) (P : Plugin) (w : World) (id : string) :
  (resolveId id = Some locales_id ↔ occurs "/i18n/__locales." id) ∧
  (resolveId id = Some data_id ↔
   ¬ occurs "/i18n/__locales." id ∧ occurs "/i18n/__data." id) ∧
  (resolveId id = Some state_id ↔
   ¬ occurs "/i18n/__locales." id ∧ ¬ occurs "/i18n/__data." id ∧
   occurs "/i18n/__state." id) ∧
  (resolveId id = None ↔
   ¬ occurs "/i18n/__locales." id ∧ ¬ occurs "/i18n/__data." id ∧
   ¬ occurs "/i18n/__state." id) ∧
  (∀ target, resolveId id = Some target → is_Some (load JSON_text P w target)) ∧
  (is_Some (load JSON_text P w id) ↔ id = locales_id ∨ id = data_id ∨ id = state_id).
Proof.
  assert (∀ target, is_Some (load JSON_text P w target) ↔
                    target = locales_id ∨ target = data_id ∨ target = state_id) as Hload.
  { intros target. unfold load. repeat case_bool_decide; split; eauto.
    - intros [? [=]].
    - intros [?|[?|?]]; contradiction. }
  assert (locales_id ≠ data_id ∧ locales_id ≠ state_id ∧ data_id ≠ state_id)
    as (Hld & Hls & Hds) by (repeat split; discriminate).
  unfold resolveId. rewrite <- !includes_string_spec.
  destruct (includes_string id "/i18n/__locales.");
    destruct (includes_string id "/i18n/__data.");
    destruct (includes_string id "/i18n/__state.");
    (split; [|split; [|split; [|split; [|split; [|apply Hload]]]]]);
    try (intros target [= <-]; apply Hload; auto; fail);
    try (intros target [=]; fail);
    split; intros; intuition congruence.
Qed.

(** ** The checks on a locale file *)

Lemma strict_ne_locale_spec (found : Prop_ JSON) (locale : string) :
  strict_ne_locale found locale = true ↔ found ≠ Own (JStr locale).
Proof.
  unfold strict_ne_locale. destruct found as [[]| |]; try (split; [discriminate|reflexivity]).
  rewrite negb_true_iff, bool_decide_eq_false. split.
  - intros Hne [= ->]. apply Hne. reflexivity.
  - intros Hne ->. apply Hne. reflexivity.
Qed.

(** Back-filling the name leaves the other properties as they are. *)
Lemma field_backfill_other locale lang region data key :
  key ≠ "name" →
  field (backfill locale lang region data) key = field data key.
Proof.
  intros Hkey. unfold backfill.
  destruct (negb (truthy_prop truthy (field data "name"))); [|reflexivity].
  destruct data; try reflexivity. simpl. unfold obj_get.
  rewrite lookup_insert_ne by (intros Heq; apply Hkey; symmetry; exact Heq).
  reflexivity.
Qed.

Lemma name_not_inherited : bool_decide ("name" ∈ Object_prototype) = false.
Proof. vm_compute. reflexivity. Qed.

(** After the back-filling an object has a truthy name: its own one if
    that was truthy, the default one otherwise. *)
Lemma field_backfill_name locale lang region props :
  locale ≠ "" →
  ∃ name,
    field (backfill locale lang region (JObj props)) "name" = Own name ∧
    truthy name = true ∧
    name = match props !! "name" with
           | Some own => if truthy own then own
                         else JStr (default_name locale lang region)
           | None => JStr (default_name locale lang region)
           end.
Proof.
  intros Hne. unfold backfill. cbn [field]. unfold obj_get at 1.
  rewrite name_not_inherited.
  destruct (props !! "name") as [own|] eqn:Hown; cbn [truthy_prop].
  - destruct (truthy own) eqn:Htruthy; cbn [negb].
    + exists own. cbn [field]. unfold obj_get. rewrite Hown. auto.
    + eexists. cbn [set_field field]. unfold obj_get. rewrite lookup_insert_eq.
      split; [reflexivity|]. split; [apply default_name_truthy, Hne|reflexivity].
  - eexists. cbn [negb set_field field]. unfold obj_get. rewrite lookup_insert_eq.
    split; [reflexivity|]. split; [apply default_name_truthy, Hne|reflexivity].
Qed.

Lemma check_existing_parsed fuel locales fallbacks locale lang region localeFile doc :
  doc ≠ JNull →
  check_existing fuel locales fallbacks locale lang region localeFile (Json doc) =
  if strict_ne_locale (field doc "locale") locale
  then
    if template_throws (field doc "locale")
    then Throw (TypeError "Cannot convert object to primitive value")
    else Throw (LocaleMismatch localeFile (field doc "locale") locale)
  else check_fallback fuel locales fallbacks locale localeFile
         (backfill locale lang region doc).
Proof. intros Hdoc. destruct doc; try reflexivity. destruct Hdoc. reflexivity. Qed.

Lemma check_fallback_falsy fuel locales fallbacks locale localeFile data :
  truthy_prop truthy (field data "fallback") = false →
  check_fallback fuel locales fallbacks locale localeFile data = Return (data, fallbacks).
Proof.
  unfold check_fallback.
  destruct (field data "fallback") as [fallback| |]; try reflexivity.
  simpl. intros ->. reflexivity.
Qed.

Section Checks.
Variable resolve : string → string → string.
Variable P : Plugin.

(** X2: [buildStart] stops at the first locale whose round of the loop
    throws: it throws the same error and leaves the world as that round
    left it.  The failing round writes no file, so the files are those
    that the locales listed before it left, and none of the locales
    listed after it is looked at. *)
Theorem buildStart_fails_fast fuel w before locale after fallbacks w1 e w2 :
  locales P = before ++ locale :: after →
  for_locales resolve fuel P before ∅ (reset w) = (Return fallbacks, w1) →
  processLocale resolve fuel P fallbacks locale w1 = (Throw e, w2) →
  buildStart resolve fuel P w = (Throw e, w2) ∧ disk w2 = disk w1.
Proof.
  intros Hlist Hbefore Hstep. split.
  - rewrite buildStart_unfold, Hlist, for_locales_app, Hbefore, for_locales_cons, Hstep.
    reflexivity.
  - revert Hstep. rewrite processLocale_unfold.
    destruct (exec_locale locale) as [[lang region]|]; [|intros [= _ <-]; reflexivity].
    cbv zeta.
    destruct (disk w1 !! localeFile_of resolve P locale) as [text|]; [|discriminate].
    destruct (check_existing _ _ _ _ _ _ _ _) as [[data fb]| |]; try discriminate.
    + destruct (Object_entries _); [discriminate|]. intros [= _ <-]. reflexivity.
    + intros [= _ <-]. reflexivity.
Qed.

(** X3: a locale file whose [locale] is not the configured locale (a
    different string, no string, or a document that is no object) makes
    the round throw before anything is registered or written: the
    mismatch error naming the file, or, when the [locale] found has no
    text to put into that message (an object with a property named
    [toString], or an array that holds one), the [TypeError] of the
    conversion. *)
Theorem round_rejects_locale_mismatch fuel fallbacks w locale lang region doc :
  exec_locale locale = Some (lang, region) →
  disk w !! localeFile_of resolve P locale = Some (Json doc) →
  doc ≠ JNull →
  field doc "locale" ≠ Own (JStr locale) →
  processLocale resolve fuel P fallbacks locale w =
  (Throw (if template_throws (field doc "locale")
          then TypeError "Cannot convert object to primitive value"
          else LocaleMismatch (localeFile_of resolve P locale) (field doc "locale") locale),
   w).
Proof.
  intros Hexec Hfile Hdoc Hlocale%strict_ne_locale_spec.
  rewrite processLocale_unfold, Hexec. cbv zeta. rewrite Hfile.
  rewrite check_existing_parsed by exact Hdoc. rewrite Hlocale.
  destruct (template_throws (field doc "locale")); reflexivity.
Qed.

(** X4: a truthy [fallback] that is not one of the configured locales
    (an unknown code, or a value that is no string) makes the round
    throw before anything is registered: the invalid-fallback error
    naming the file, or, when the fallback has no text to put into that
    message (an object with a property named [toString], or an array
    that holds one), the [TypeError] of the conversion. *)
Theorem round_rejects_unknown_fallback fuel fallbacks w locale lang region doc fallback :
  exec_locale locale = Some (lang, region) →
  disk w !! localeFile_of resolve P locale = Some (Json doc) →
  field doc "locale" = Own (JStr locale) →
  field doc "fallback" = Own fallback →
  truthy fallback = true →
  (∀ s, fallback = JStr s → s ∉ locales P) →
  processLocale resolve fuel P fallbacks locale w =
  (Throw (if ToString_throws fallback
          then TypeError "Cannot convert object to primitive value"
          else InvalidFallback (localeFile_of resolve P locale) fallback),
   w).
Proof.
  intros Hexec Hfile Hlocale Hfallback Htruthy Hunknown.
  assert (doc ≠ JNull) as Hdoc by (intros ->; discriminate Hlocale).
  rewrite processLocale_unfold, Hexec. cbv zeta. rewrite Hfile.
  rewrite check_existing_parsed by exact Hdoc.
  rewrite Hlocale. cbn [strict_ne_locale].
  rewrite bool_decide_eq_true_2 by reflexivity. cbn [negb].
  unfold check_fallback. rewrite field_backfill_other by discriminate.
  rewrite Hfallback, Htruthy.
  assert (includes (locales P) fallback = false) as ->.
  { destruct fallback; try reflexivity. simpl.
    apply bool_decide_eq_false_2, Hunknown. reflexivity. }
  cbn [negb]. destruct (ToString_throws fallback); reflexivity.
Qed.

(** X5: a locale file that [JSON.parse] rejects makes the round throw
    the syntax error, and one that holds [null] a [TypeError] (from
    reading [data.locale]); in both cases nothing is registered. *)
Theorem round_rejects_unreadable fuel fallbacks w locale lang region text :
  exec_locale locale = Some (lang, region) →
  disk w !! localeFile_of resolve P locale = Some text →
  (JSON_parse text = None →
   processLocale resolve fuel P fallbacks locale w =
   (Throw (JsonSyntaxError (localeFile_of resolve P locale)), w)) ∧
  (JSON_parse text = Some JNull →
   processLocale resolve fuel P fallbacks locale w =
   (Throw (TypeError "Cannot read properties of null"), w)).
Proof.
  intros Hexec Hfile.
  split; intros Hparse; rewrite processLocale_unfold, Hexec; cbv zeta;
    rewrite Hfile; unfold check_existing; rewrite Hparse; reflexivity.
Qed.

(** X6: a locale file without [translations] (absent or [null]) passes
    the checks, and the round fails only in [Object.entries]: by then
    the record is in [translations] and its name in [localeNames], while
    [pluralKeys] and the disk are as before. *)
Theorem round_without_translations fuel fallbacks w locale lang region doc :
  exec_locale locale = Some (lang, region) →
  disk w !! localeFile_of resolve P locale = Some (Json doc) →
  field doc "locale" = Own (JStr locale) →
  truthy_prop truthy (field doc "fallback") = false →
  Object_entries (field doc "translations") = None →
  ∃ w',
    processLocale resolve fuel P fallbacks locale w =
      (Throw (TypeError "Cannot convert undefined or null to object"), w') ∧
    translations w' !! locale = Some (backfill locale lang region doc) ∧
    is_Some (localeNames w' !! locale) ∧
    pluralKeys w' = pluralKeys w ∧ disk w' = disk w.
Proof.
  intros Hexec Hfile Hlocale Hfallback Hentries.
  assert (doc ≠ JNull) as Hdoc by (intros ->; discriminate Hlocale).
  pose proof (exec_locale_nonempty _ _ _ Hexec) as Hne.
  eexists. split.
  { rewrite processLocale_unfold, Hexec. cbv zeta. rewrite Hfile.
    rewrite check_existing_parsed by exact Hdoc.
    rewrite Hlocale. cbn [strict_ne_locale].
    rewrite bool_decide_eq_true_2 by reflexivity. cbn [negb].
    rewrite check_fallback_falsy
      by (rewrite field_backfill_other by discriminate; exact Hfallback).
    rewrite field_backfill_other by discriminate. rewrite Hentries. reflexivity. }
  split; [apply lookup_insert_eq|]. split; [|split; reflexivity].
  simpl. rewrite lookup_assign, decide_True by reflexivity.
  destruct doc; try discriminate Hlocale.
  destruct (field_backfill_name locale lang region props Hne) as (name & -> & _).
  eauto.
Qed.

End Checks.

Lemma buildStart_fails_fast_witness :
  let P := plugin_for ["nl"; "en"; "de"] in
  let before := for_locales join_path 1 P ["nl"] ∅ (reset (fresh files_mismatch)) in
  before = (Return ∅, before.2) ∧
  buildStart join_path 1 P (fresh files_mismatch) =
    (Throw (LocaleMismatch "/app/i18n/en.json" (Own (JStr "fr")) "en"), before.2) ∧
  disk before.2 !! "/app/i18n/de.json" = None.
Proof.
  intros P before.
  assert (before = (Return ∅, before.2)) as Hbefore by (vm_compute; reflexivity).
  assert (processLocale join_path 1 P ∅ "en" before.2 =
          (Throw (LocaleMismatch "/app/i18n/en.json" (Own (JStr "fr")) "en"), before.2))
    as Hstep by (vm_compute; reflexivity).
  destruct (buildStart_fails_fast join_path P 1 (fresh files_mismatch) ["nl"] "en" ["de"]
              ∅ before.2 _ before.2 eq_refl Hbefore Hstep) as [Hrun Hdisk].
  split; [exact Hbefore|]. split; [exact Hrun|].
  vm_compute. reflexivity.
Defined.

Lemma round_rejects_locale_mismatch_witness :
  processLocale join_path 1 (plugin_for ["en"]) ∅ "en" (fresh files_mismatch) =
    (Throw (LocaleMismatch "/app/i18n/en.json" (Own (JStr "fr")) "en"),
     fresh files_mismatch) ∧
  processLocale join_path 1 (plugin_for ["en"]) ∅ "en" (fresh files_unprintable_locale) =
    (Throw (TypeError "Cannot convert object to primitive value"),
     fresh files_unprintable_locale).
Proof.
  split.
  - rewrite (round_rejects_locale_mismatch join_path (plugin_for ["en"]) 1 ∅
               (fresh files_mismatch) "en" "en" None
               (JObj (<["locale" := JStr "fr"]> (<["translations" := JObj ∅]> ∅)))).
    + vm_compute. reflexivity.
    + reflexivity.
    + vm_compute. reflexivity.
    + discriminate.
    + intros Hfield. vm_compute in Hfield. discriminate Hfield.
  - rewrite (round_rejects_locale_mismatch join_path (plugin_for ["en"]) 1 ∅
               (fresh files_unprintable_locale) "en" "en" None
               (JObj (<["locale" := JObj (<["toString" := JBool true]> ∅)]>
                      (<["translations" := JObj ∅]> ∅)))).
    + vm_compute. reflexivity.
    + reflexivity.
    + vm_compute. reflexivity.
    + discriminate.
    + intros Hfield. vm_compute in Hfield. discriminate Hfield.
Defined.

Lemma round_rejects_unknown_fallback_witness :
  processLocale join_path 1 (plugin_for ["en"; "nl"]) ∅ "en" (fresh files_unknown_fallback) =
    (Throw (InvalidFallback "/app/i18n/en.json" (JStr "fr")),
     fresh files_unknown_fallback) ∧
  processLocale join_path 1 (plugin_for ["en"; "nl"]) ∅ "en"
    (fresh files_unprintable_fallback) =
    (Throw (TypeError "Cannot convert object to primitive value"),
     fresh files_unprintable_fallback).
Proof.
  split.
  - rewrite (round_rejects_unknown_fallback join_path (plugin_for ["en"; "nl"]) 1 ∅
               (fresh files_unknown_fallback) "en" "en" None
               (JObj (<["locale" := JStr "en"]>
                      (<["fallback" := JStr "fr"]> (<["translations" := JObj ∅]> ∅))))
               (JStr "fr")).
    + vm_compute. reflexivity.
    + reflexivity.
    + vm_compute. reflexivity.
    + vm_compute. reflexivity.
    + vm_compute. reflexivity.
    + reflexivity.
    + intros s [= <-] Hin. vm_compute in Hin.
      repeat (apply elem_of_cons in Hin as [[=]|Hin]). inversion Hin.
  - rewrite (round_rejects_unknown_fallback join_path (plugin_for ["en"; "nl"]) 1 ∅
               (fresh files_unprintable_fallback) "en" "en" None
               (JObj (<["locale" := JStr "en"]>
                      (<["fallback" := JArr [JObj (<["toString" := JNull]> ∅)]]>
                       (<["translations" := JObj ∅]> ∅))))
               (JArr [JObj (<["toString" := JNull]> ∅)])).
    + vm_compute. reflexivity.
    + reflexivity.
    + vm_compute. reflexivity.
    + vm_compute. reflexivity.
    + vm_compute. reflexivity.
    + reflexivity.
    + intros s [=].
Defined.

Lemma round_rejects_unreadable_witness :
  let P := plugin_for ["en"] in
  processLocale join_path 1 P ∅ "en" (fresh files_malformed) =
  (Throw (JsonSyntaxError "/app/i18n/en.json"), fresh files_malformed).
Proof.
  intros P.
  destruct (round_rejects_unreadable join_path P 1 ∅ (fresh files_malformed)
              "en" "en" None (Malformed "{locale: en")) as [Hsyntax _].
  - reflexivity.
  - vm_compute. reflexivity.
  - rewrite Hsyntax by reflexivity. vm_compute. reflexivity.
Defined.

Lemma round_without_translations_witness :
  let P := plugin_for ["en"] in
  let run := processLocale join_path 1 P ∅ "en" (fresh files_no_translations) in
  run.1 = Throw (TypeError "Cannot convert undefined or null to object") ∧
  is_Some (translations run.2 !! "en") ∧ is_Some (localeNames run.2 !! "en").
Proof.
  intros P run.
  destruct (round_without_translations join_path P 1 ∅ (fresh files_no_translations)
              "en" "en" None (JObj (<["locale" := JStr "en"]> ∅)))
    as (w' & Hrun & Htr & Hname & _).
  - reflexivity.
  - vm_compute. reflexivity.
  - vm_compute. reflexivity.
  - vm_compute. reflexivity.
  - vm_compute. reflexivity.
  - subst run. rewrite Hrun. simpl. rewrite Htr. eauto.
Defined.

(** ** The records after [buildStart] *)

Lemma record_of_shape resolve P files locale data :
  record_of resolve P files locale = Some data →
  field data "locale" = Own (JStr locale) ∧
  ∃ name, field data "name" = Own name ∧ truthy name = true.
Proof.
  unfold record_of.
  destruct (exec_locale locale) as [[lang region]|] eqn:Hexec; [|discriminate].
  pose proof (exec_locale_nonempty _ _ _ Hexec) as Hne.
  destruct (files !! localeFile_of resolve P locale) as [text|].
  - unfold parsed_record. destruct (JSON_parse text) as [doc|]; [|discriminate].
    destruct (strict_ne_locale (field doc "locale") locale) eqn:Hlocale.
    { destruct doc; discriminate. }
    assert (field doc "locale" = Own (JStr locale)) as Hfield.
    { destruct (field doc "locale") as [[]| |] eqn:Hf; try discriminate Hlocale.
      simpl in Hlocale. apply negb_false_iff, bool_decide_eq_true in Hlocale.
      rewrite Hlocale. reflexivity. }
    destruct doc; try discriminate Hfield. intros [= <-].
    split; [rewrite field_backfill_other by discriminate; exact Hfield|].
    destruct (field_backfill_name locale lang region props Hne) as (name & Hname & Htruthy & _).
    eauto.
  - intros [= <-]. split; [reflexivity|]. eexists. split; [reflexivity|].
    apply default_name_truthy, Hne.
Qed.

Lemma buildStart_record resolve fuel P w w' locale :
  buildStart resolve fuel P w = (Return tt, w') →
  locale ∈ locales P →
  ∃ data name,
    translations w' !! locale = Some data ∧
    field data "name" = Own name ∧ truthy name = true ∧
    localeNames w' !! locale = Some name ∧
    truthy_string locale = true.
Proof.
  intros (_ & _ & Hsome & Htr & Hnames & _)%buildStart_Return Hin.
  specialize (Htr locale). specialize (Hnames locale).
  rewrite bool_decide_eq_true_2 in Htr, Hnames by exact Hin.
  destruct (Hsome _ Hin) as [data Hdata].
  destruct (record_of_shape _ _ _ _ _ Hdata) as (_ & name & Hname & Htruthy).
  exists data, name. split; [congruence|]. split; [exact Hname|]. split; [exact Htruthy|].
  split.
  - rewrite Hnames, Hdata. simpl. unfold name_of. rewrite Hname. reflexivity.
  - unfold truthy_string. apply negb_true_iff, bool_decide_eq_false_2. intros ->.
    unfold record_of in Hdata. discriminate Hdata.
Qed.

(** X7: when [buildStart] has returned, [translations] holds a record
    for the configured locales and for nothing else; each record
    carries its own locale code and a truthy name, and [localeNames]
    holds that name under the same code. *)
Theorem registered_records resolve fuel P w w' locale :
  buildStart resolve fuel P w = (Return tt, w') →
  (is_Some (translations w' !! locale) ↔ locale ∈ locales P) ∧
  ∀ data, translations w' !! locale = Some data →
    field data "locale" = Own (JStr locale) ∧
    ∃ name, field data "name" = Own name ∧ truthy name = true ∧
            localeNames w' !! locale = Some name.
Proof.
  intros (_ & _ & Hsome & Htr & Hnames & _)%buildStart_Return.
  specialize (Htr locale). specialize (Hnames locale). split.
  - rewrite Htr. case_bool_decide as Hin; split; auto.
    + intros [? [=]].
    + intros ?. contradiction.
  - intros data Hdata. rewrite Htr in Hdata.
    case_bool_decide as Hin; [|discriminate].
    destruct (record_of_shape _ _ _ _ _ Hdata) as (Hlocale & name & Hname & Htruthy).
    split; [exact Hlocale|]. exists name. split; [exact Hname|]. split; [exact Htruthy|].
    rewrite Hnames, Hdata. simpl. unfold name_of. rewrite Hname. reflexivity.
Qed.

Lemma registered_records_witness :
  let w' := (buildStart join_path 1 (plugin_for ["de"; "nl"; "en"]) (fresh files_chain)).2 in
  is_Some (translations w' !! "nl") ∧
  localeNames w' !! "nl" = Some (JStr "nl") ∧
  translations w' !! "fr" = None.
Proof.
  intros w'.
  destruct (registered_records join_path 1 (plugin_for ["de"; "nl"; "en"])
              (fresh files_chain) w' "nl") as [Hdom Hrecord];
    [vm_compute; reflexivity|].
  destruct (registered_records join_path 1 (plugin_for ["de"; "nl"; "en"])
              (fresh files_chain) w' "fr") as [Hdom' _];
    [vm_compute; reflexivity|].
  split; [apply Hdom; repeat constructor|].
  split; [vm_compute; reflexivity|].
  destruct (translations w' !! "fr") eqn:Hfr; [|reflexivity].
  exfalso. assert ("fr" ∈ ["de"; "nl"; "en"]) as Hin by (apply Hdom'; eauto).
  repeat (apply elem_of_cons in Hin as [[=]|Hin]). inversion Hin.
Defined.

Lemma truthy_printed (v : JSON) :
  truthy (printed v) = truthy v && negb (non_finite v).
Proof. destruct v as [|[]|[]| | |]; simpl; rewrite ?andb_true_r; reflexivity. Qed.

Lemma lookup_exported_names (w : World) (locale : string) :
  exported_names w !! locale = printed <$> localeNames w !! locale.
Proof. apply lookup_fmap. Qed.

(** What the state module does with a locale whose name the data module
    exports: it accepts it unless the name was printed as [null]. *)
Lemma exported_locale (w : World) (locale : string) (name : JSON) :
  localeNames w !! locale = Some name → truthy name = true →
  StateModule._checkLocale (exported_names w) (Some locale) =
  if non_finite name then Throw (TypeError ("unknown locale " +:+ locale))
  else Return tt.
Proof.
  intros Hname Htruthy. unfold StateModule._checkLocale.
  change (StateModule.to_key (Some locale)) with locale. unfold obj_get.
  rewrite lookup_exported_names, Hname. cbn [fmap option_fmap option_map truthy_prop].
  rewrite truthy_printed, Htruthy. destruct (non_finite name); reflexivity.
Qed.

(** X8: once [buildStart] has returned, every configured locale has a
    truthy name in [localeNames], and the state module, which reads the
    names that the data module exports, accepts the locale unless that
    name is a number too large for a double: [setDefaultLocale] stores
    it, and [getLocale] returns and stores it when a registered getter
    yields it.  A name that is such a number is exported as [null], and
    both throw the unknown-locale error for the configured locale,
    leaving the state as it was. *)
Theorem configured_locales_at_run_time resolve fuel P w w' locale st fn :
  buildStart resolve fuel P w = (Return tt, w') →
  locale ∈ locales P →
  fn tt = Some locale →
  ∃ name,
    localeNames w' !! locale = Some name ∧ truthy name = true ∧
    if non_finite name then
      StateModule.setDefaultLocale (exported_names w') (Some locale) st =
        (Throw (TypeError ("unknown locale " +:+ locale)), st) ∧
      StateModule.getLocale (exported_names w') (StateModule.setLocaleGetter fn st) =
        (Throw (TypeError ("unknown locale " +:+ locale)), StateModule.setLocaleGetter fn st)
    else
      (∃ st', StateModule.setDefaultLocale (exported_names w') (Some locale) st =
                (Return tt, st') ∧
              StateModule.defaultLocale st' = Some locale) ∧
      (∃ st', StateModule.getLocale (exported_names w')
                (StateModule.setLocaleGetter fn st) = (Return (Some locale), st') ∧
              StateModule.currentLocale st' = Some locale).
Proof.
  intros Hrun Hin Hfn.
  destruct (buildStart_record _ _ _ _ _ _ Hrun Hin)
    as (data & name & _ & _ & Htruthy & Hname & Hne).
  exists name. split; [exact Hname|]. split; [exact Htruthy|].
  pose proof (exported_locale w' locale name Hname Htruthy) as Hcheck.
  unfold StateModule.setDefaultLocale, StateModule.getLocale.
  cbn [StateModule.getter StateModule.setLocaleGetter StateModule.defaultLocale].
  rewrite Hfn. cbn [StateModule.or_default]. rewrite Hne, Hcheck.
  destruct (non_finite name); [split; reflexivity|].
  split; eexists; (split; [reflexivity|reflexivity]).
Qed.

Lemma configured_locales_at_run_time_witness :
  let accepted := (buildStart join_path 1 (plugin_for ["en"; "nl"]) (fresh ∅)).2 in
  let refused := (buildStart join_path 1 (plugin_for ["en"]) (fresh files_big_name)).2 in
  (StateModule.setDefaultLocale (exported_names accepted) (Some "nl")
     (StateModule.init (Some "en"))).1 = Return tt ∧
  (StateModule.setDefaultLocale (exported_names refused) (Some "en")
     (StateModule.init (Some "en"))).1 = Throw (TypeError "unknown locale en").
Proof.
  intros accepted refused. split.
  - destruct (configured_locales_at_run_time join_path 1 (plugin_for ["en"; "nl"]) (fresh ∅)
                accepted "nl" (StateModule.init (Some "en")) (fun _ => Some "nl"))
      as (name & Hname & _ & Hrun).
    + vm_compute. reflexivity.
    + repeat constructor.
    + reflexivity.
    + assert (name = JStr "nl") as -> by (vm_compute in Hname; congruence).
      destruct Hrun as [(st' & -> & _) _]. reflexivity.
  - destruct (configured_locales_at_run_time join_path 1 (plugin_for ["en"])
                (fresh files_big_name) refused "en" (StateModule.init (Some "en"))
                (fun _ => Some "en"))
      as (name & Hname & _ & Hrun).
    + vm_compute. reflexivity.
    + repeat constructor.
    + reflexivity.
    + assert (name = JNum (S754_infinity false)) as ->
        by (vm_compute in Hname; congruence).
      destruct Hrun as [-> _]. reflexivity.
Defined.

(** ** The fallbacks after [buildStart] *)

Lemma follow_loop_Return fuel fallbacks fallback locale localeFile :
  follow_loop fuel fallbacks fallback locale localeFile = Return tt →
  truthy_prop truthy_string (obj_get fallbacks fallback) = false.
Proof.
  destruct fuel as [|fuel]; simpl; [discriminate|].
  destruct (truthy_prop truthy_string (obj_get fallbacks fallback)) eqn:Htruthy;
    [|reflexivity].
  destruct (strict_eq_string (obj_get fallbacks fallback) locale) eqn:Heq;
    [discriminate|].
  rewrite follow_loop_spins by assumption. discriminate.
Qed.

(** What a fallback that went through says about the record and about
    [fallbacks]. *)
Lemma check_fallback_Return_spec fuel locales fallbacks locale localeFile data data' fallbacks' :
  check_fallback fuel locales fallbacks locale localeFile data = Return (data', fallbacks') →
  (∀ v, field data "fallback" = Own v → truthy v = true → ∃ s, v = JStr s ∧ s ∈ locales) ∧
  match fallback_target data with
  | Some s =>
      s ∈ locales ∧ fallbacks' = <[locale := s]> fallbacks ∧
      truthy_prop truthy_string (obj_get fallbacks s) = false
  | None => fallbacks' = fallbacks
  end.
Proof.
  unfold check_fallback, fallback_target.
  destruct (field data "fallback") as [v| |];
    try (intros [= <- <-]; split; [intros ? [=]|reflexivity]).
  destruct (truthy v) eqn:Htruthy.
  - destruct (includes locales v) eqn:Hincl;
      [|cbn [negb]; destruct (ToString_throws v); discriminate].
    cbn [negb].
    destruct v as [| | |s| |]; try discriminate Hincl.
    simpl in Hincl. apply bool_decide_eq_true in Hincl.
    change (truthy (JStr s)) with (truthy_string s) in Htruthy. rewrite Htruthy.
    cbn [key_of].
    destruct (follow_loop fuel fallbacks s locale localeFile) as [[]| |] eqn:Hloop;
      simpl; try discriminate.
    intros [= <- <-]. apply follow_loop_Return in Hloop.
    split; [|auto]. intros v [= <-] _. eauto.
  - intros [= <- <-]. split; [intros v' [= <-]; congruence|].
    destruct v; try reflexivity.
    change (truthy (JStr s)) with (truthy_string s) in Htruthy. rewrite Htruthy.
    reflexivity.
Qed.

Lemma check_existing_fallback fuel locales fallbacks locale lang region localeFile text
    data fallbacks' :
  check_existing fuel locales fallbacks locale lang region localeFile text =
    Return (data, fallbacks') →
  check_fallback fuel locales fallbacks locale localeFile data = Return (data, fallbacks').
Proof.
  unfold check_existing.
  destruct (JSON_parse text) as [doc|]; [|discriminate].
  destruct doc; try discriminate;
    (destruct (strict_ne_locale _ _);
       [destruct (template_throws _); discriminate|]);
    intros Hcheck; pose proof (check_fallback_Return _ _ _ _ _ _ _ _ Hcheck) as ->;
    exact Hcheck.
Qed.

Lemma ranked_empty : ranked ∅.
Proof.
  split; [intros l t [=]|].
  exists (fun _ => 0), 0. split; [intros l [? [=]]|intros l t [=]].
Qed.

(** Adding an entry whose target has no entry keeps the ranking. *)
Lemma ranked_insert (fallbacks : gmap string string) (locale target : string) :
  ranked fallbacks → target ≠ "" →
  truthy_prop truthy_string (obj_get fallbacks target) = false →
  ranked (<[locale := target]> fallbacks).
Proof.
  intros [Hvalues (rank & bound & Hbound & Hup)] Htarget Hfree.
  assert (fallbacks !! target = None) as Hnone.
  { unfold obj_get in Hfree. destruct (fallbacks !! target) as [v|] eqn:Hv; [|reflexivity].
    simpl in Hfree. unfold truthy_string in Hfree.
    apply negb_false_iff, bool_decide_eq_true in Hfree.
    destruct (Hvalues _ _ Hv Hfree). }
  split.
  - intros l t. rewrite lookup_insert. case_decide; [intros [= <-]; exact Htarget|].
    apply Hvalues.
  - exists (fun l => if decide (l = locale) then bound else rank l), (S bound).
    split.
    + intros l. rewrite lookup_insert. destruct (decide (l = locale)) as [->|Hne].
      * intros _. lia.
      * rewrite decide_False by (intros Heq; apply Hne; symmetry; exact Heq).
        intros Hsome%Hbound. lia.
    + intros l t. rewrite !lookup_insert.
      destruct (decide (locale = l)) as [<-|Hl].
      * intros [= <-] Hself. rewrite decide_False by (intros Heq; apply Hself; symmetry; exact Heq).
        rewrite Hnone. intros [? [=]].
      * rewrite (decide_False (P := l = locale))
          by (intros Heq; apply Hl; symmetry; exact Heq).
        intros Hlt Hself. destruct (decide (locale = t)) as [<-|Ht].
        -- intros _. rewrite decide_True by reflexivity. apply Hbound. eauto.
        -- rewrite (decide_False (P := t = locale))
             by (intros Heq; apply Ht; symmetry; exact Heq).
           apply Hup; assumption.
Qed.

Section Fallbacks.
Variable resolve : string → string → string.
Variable P : Plugin.

Lemma processLocale_fallbacks files fuel fallbacks locale w fallbacks' w' :
  grown resolve P files (disk w) →
  processLocale resolve fuel P fallbacks locale w = (Return fallbacks', w') →
  ∃ data,
    record_of resolve P files locale = Some data ∧
    (∀ v, field data "fallback" = Own v → truthy v = true →
          ∃ s, v = JStr s ∧ s ∈ locales P) ∧
    match fallback_target data with
    | Some s =>
        s ∈ locales P ∧ fallbacks' = <[locale := s]> fallbacks ∧
        truthy_prop truthy_string (obj_get fallbacks s) = false
    | None => fallbacks' = fallbacks
    end.
Proof.
  intros Hgrown Hstep.
  destruct (processLocale_Return resolve P files _ _ _ _ _ _ Hgrown Hstep)
    as (data & entries & Hrec & _ & Htr & _).
  exists data. split; [exact Hrec|].
  revert Hstep. rewrite processLocale_unfold.
  destruct (exec_locale locale) as [[lang region]|]; [|discriminate].
  cbv zeta.
  destruct (disk w !! localeFile_of resolve P locale) as [text|].
  - destruct (check_existing _ _ _ _ _ _ _ _) as [[data1 fb1]| |] eqn:Hcheck;
      try discriminate.
    destruct (Object_entries (field data1 "translations")); [|discriminate].
    intros [= <- <-]. simpl in Htr.
    assert (data1 = data) as ->.
    { assert (<[locale := data1]> (translations w) !! locale = Some data) as Hlook
        by (rewrite Htr; apply lookup_insert_eq).
      rewrite lookup_insert_eq in Hlook. congruence. }
    apply check_existing_fallback in Hcheck.
    apply (check_fallback_Return_spec _ _ _ _ _ _ _ _ Hcheck).
  - intros [= <- <-]. simpl in Htr.
    assert (default_data locale lang region = data) as <-.
    { assert (<[locale := default_data locale lang region]> (translations w) !! locale
              = Some data) as Hlook by (rewrite Htr; apply lookup_insert_eq).
      rewrite lookup_insert_eq in Hlook. congruence. }
    split; [intros v [=]|reflexivity].
Qed.

Lemma for_locales_fallbacks files fuel todo fallbacks w fallbacks' w' :
  grown resolve P files (disk w) →
  ranked fallbacks →
  for_locales resolve fuel P todo fallbacks w = (Return fallbacks', w') →
  ranked fallbacks' ∧
  (∀ l, fallbacks' !! l =
        if bool_decide (l ∈ todo)
        then match record_of resolve P files l ≫= fallback_target with
             | Some s => Some s
             | None => fallbacks !! l
             end
        else fallbacks !! l) ∧
  (∀ l data v, l ∈ todo → record_of resolve P files l = Some data →
     field data "fallback" = Own v → truthy v = true →
     ∃ s, v = JStr s ∧ s ∈ locales P).
Proof.
  revert fallbacks w. induction todo as [|locale rest IH]; intros fallbacks w Hgrown Hranked.
  - intros [= <- <-]. split; [exact Hranked|]. split; [reflexivity|].
    intros l data v Hin. inversion Hin.
  - rewrite for_locales_cons.
    destruct (processLocale resolve fuel P fallbacks locale w) as [[fb1| |] w1] eqn:Hstep;
      try discriminate.
    intros Hrest.
    destruct (processLocale_Return resolve P files _ _ _ _ _ _ Hgrown Hstep)
      as (_ & _ & _ & _ & _ & _ & _ & _ & Hgrown1).
    destruct (processLocale_fallbacks files _ _ _ _ _ _ Hgrown Hstep)
      as (data & Hrec & Hconf & Hfb).
    assert (ranked fb1 ∧
            ∀ l, fb1 !! l =
                 if decide (locale = l)
                 then match fallback_target data with
                      | Some s => Some s
                      | None => fallbacks !! l
                      end
                 else fallbacks !! l) as [Hranked1 Hfb1].
    { destruct (fallback_target data) as [s|] eqn:Htarget.
      - destruct Hfb as (_ & -> & Hfree). split.
        + apply ranked_insert; [exact Hranked| |exact Hfree].
          unfold fallback_target in Htarget.
          destruct (field data "fallback") as [[]| |]; try discriminate Htarget.
          destruct (truthy_string s0) eqn:Hs; [|discriminate Htarget].
          injection Htarget as <-. intros ->. discriminate Hs.
        + intros l. rewrite lookup_insert. reflexivity.
      - subst fb1. split; [exact Hranked|]. intros l. case_decide; reflexivity. }
    destruct (IH _ _ Hgrown1 Hranked1 Hrest) as (Hranked' & Hfb' & Hconf').
    split; [exact Hranked'|]. split.
    + intros l. rewrite Hfb', Hfb1.
      destruct (decide (l ∈ rest)) as [Hin|Hout].
      * rewrite !bool_decide_eq_true_2; [|right; exact Hin|exact Hin].
        destruct (record_of resolve P files l ≫= fallback_target) as [s|] eqn:Hl;
          [reflexivity|].
        destruct (decide (locale = l)) as [<-|]; [|reflexivity].
        rewrite Hrec in Hl. simpl in Hl. rewrite Hl. reflexivity.
      * rewrite (bool_decide_eq_false_2 _ Hout).
        destruct (decide (locale = l)) as [<-|Hne].
        -- rewrite bool_decide_eq_true_2 by left. rewrite Hrec. reflexivity.
        -- rewrite bool_decide_eq_false_2; [reflexivity|].
           intros [->|Hin]%elem_of_cons; [apply Hne; reflexivity|exact (Hout Hin)].
    + intros l data' v [->|Hin]%elem_of_cons; [|eapply Hconf'; exact Hin].
      rewrite Hrec. intros [= <-]. apply Hconf.
Qed.

(** The loop of a [buildStart] that returns. *)
Lemma buildStart_loop fuel w w' :
  buildStart resolve fuel P w = (Return tt, w') →
  ∃ fallbacks,
    for_locales resolve fuel P (locales P) ∅ (reset w) = (Return fallbacks, w').
Proof.
  rewrite buildStart_unfold.
  destruct (for_locales resolve fuel P (locales P) ∅ (reset w)) as [[fb| |] w1];
    try discriminate.
  intros [= <-]. eauto.
Qed.

End Fallbacks.

(** X9: when [buildStart] has returned, the truthy [fallback] of every
    registered record is the code of a configured locale, which has a
    record of its own. *)
Theorem fallbacks_are_configured resolve fuel P w w' locale data fallback :
  buildStart resolve fuel P w = (Return tt, w') →
  translations w' !! locale = Some data →
  field data "fallback" = Own fallback →
  truthy fallback = true →
  ∃ target, fallback = JStr target ∧ target ∈ locales P ∧
            is_Some (translations w' !! target).
Proof.
  intros Hrun Hdata Hfield Htruthy.
  destruct (buildStart_loop _ _ _ _ _ Hrun) as [fallbacks Hloop].
  destruct (for_locales_fallbacks resolve P (disk w) fuel (locales P) ∅ (reset w)
              fallbacks w' (grown_refl resolve P (disk w)) ranked_empty Hloop) as (_ & _ & Hconf).
  destruct (buildStart_Return _ _ _ _ _ Hrun) as (_ & _ & _ & Htr & _).
  rewrite Htr in Hdata. case_bool_decide as Hin; [|discriminate].
  destruct (Hconf _ _ _ Hin Hdata Hfield Htruthy) as (target & -> & Htarget).
  exists target. split; [reflexivity|]. split; [exact Htarget|].
  destruct (buildStart_record _ _ _ _ _ _ Hrun Htarget) as (data' & _ & Hdata' & _).
  eauto.
Qed.

Lemma fallbacks_are_configured_witness :
  let w' := (buildStart join_path 1 (plugin_for ["de"; "nl"; "en"]) (fresh files_chain)).2 in
  ∃ data, translations w' !! "de" = Some data ∧
          field data "fallback" = Own (JStr "nl") ∧
          is_Some (translations w' !! "nl").
Proof.
  intros w'.
  destruct (translations w' !! "de") as [data|] eqn:Hdata;
    [|vm_compute in Hdata; discriminate Hdata].
  assert (field data "fallback" = Own (JStr "nl")) as Hfield.
  { vm_compute in Hdata. injection Hdata as <-. vm_compute. reflexivity. }
  destruct (fallbacks_are_configured join_path 1 (plugin_for ["de"; "nl"; "en"])
              (fresh files_chain) w' "de" data (JStr "nl"))
    as (target & [= <-] & _ & Hrecord);
    [vm_compute; reflexivity|exact Hdata|exact Hfield|reflexivity|].
  exists data. auto.
Defined.

(** X10: when [buildStart] has returned, the fallbacks of the registered
    records hold no cycle through two or more locales: a locale that
    falls back to another one is never reached again by following the
    fallbacks from there.  (A locale may still fall back to itself.) *)
Theorem no_fallback_cycle resolve fuel P w w' locale target steps :
  buildStart resolve fuel P w = (Return tt, w') →
  fallback_in w' locale = Some target →
  target ≠ locale →
  chain w' steps target ≠ Some locale.
Proof.
  intros Hrun Hfirst Hother.
  destruct (buildStart_loop _ _ _ _ _ Hrun) as [fallbacks Hloop].
  destruct (for_locales_fallbacks resolve P (disk w) fuel (locales P) ∅ (reset w)
              fallbacks w' (grown_refl resolve P (disk w)) ranked_empty Hloop)
    as ([_ (rank & bound & _ & Hup)] & Hfb & _).
  destruct (buildStart_Return _ _ _ _ _ Hrun) as (_ & _ & _ & Htr & _).
  assert (∀ l, fallbacks !! l = fallback_in w' l) as Hsame.
  { intros l. rewrite Hfb. unfold fallback_in. rewrite Htr.
    case_bool_decide; [|reflexivity].
    destruct (record_of resolve P (disk w) l ≫= fallback_target); reflexivity. }
  assert (∀ k x, (is_Some (fallbacks !! x) → rank locale < rank x) →
                 chain w' k x ≠ Some locale) as Hchain.
  { induction k as [|k IH]; intros x Hx; simpl.
    - intros [= ->]. assert (rank locale < rank locale); [|lia].
      apply Hx. rewrite Hsame, Hfirst. eauto.
    - rewrite <- Hsame. destruct (fallbacks !! x) as [y|] eqn:Hxy; [|discriminate].
      simpl. apply IH. intros Hy.
      destruct (decide (y = x)) as [->|Hne]; [apply Hx; eauto|].
      etrans; [apply Hx; eauto|]. apply (Hup x y); assumption. }
  apply Hchain. intros Htarget. apply (Hup locale target); [|exact Hother|exact Htarget].
  rewrite Hsame. exact Hfirst.
Qed.

Lemma no_fallback_cycle_witness :
  let w' := (buildStart join_path 1 (plugin_for ["de"; "nl"; "en"]) (fresh files_chain)).2 in
  fallback_in w' "de" = Some "nl" ∧ chain w' 1 "nl" = Some "en" ∧
  chain w' 1 "nl" ≠ Some "de".
Proof.
  intros w'.
  assert (fallback_in w' "de" = Some "nl") as Hfirst by (vm_compute; reflexivity).
  split; [exact Hfirst|]. split; [vm_compute; reflexivity|].
  apply (no_fallback_cycle join_path 1 (plugin_for ["de"; "nl"; "en"])
           (fresh files_chain) w' "de" "nl" 1);
    [vm_compute; reflexivity|exact Hfirst|discriminate].
Defined.

(** ** The state module and the default locale *)

Module StateModuleExtras.
Import StateModule.

(** X11: after a [setDefaultLocale] that went through, [getLocale]
    gives that locale back: at once and without touching anything while
    no getter is registered, and as the value it falls back to, and
    stores as current locale, when a registered getter yields
    [undefined] or the empty string. *)
Theorem default_locale_round_trip (localeNames : gmap string JSON) (l : Locale)
    (st st' : State) (fn : unit → Locale) :
  setDefaultLocale localeNames l st = (Return tt, st') →
  fn tt = None ∨ fn tt = Some "" →
  defaultLocale st' = l ∧
  currentLocale st' = currentLocale st ∧
  (getter st = None → getLocale localeNames st' = (Return l, st')) ∧
  ∃ st'',
    getLocale localeNames (setLocaleGetter fn st') = (Return l, st'') ∧
    currentLocale st'' = l ∧ defaultLocale st'' = l.
Proof.
  unfold setDefaultLocale.
  destruct (_checkLocale localeNames l) as [[]| |] eqn:Hcheck; try discriminate.
  intros [= <-] Hfn. split; [reflexivity|]. split; [reflexivity|]. split.
  - intros Hgetter. unfold getLocale. simpl. rewrite Hgetter. reflexivity.
  - unfold getLocale. simpl.
    assert (or_default (fn tt) l = l) as -> by (destruct Hfn as [->| ->]; reflexivity).
    rewrite Hcheck. eauto.
Qed.

Lemma default_locale_round_trip_witness :
  let names : gmap string JSON := <["en" := JStr "en"]> (<["nl" := JStr "nl"]> ∅) in
  let st' := (setDefaultLocale names (Some "nl") (init (Some "en"))).2 in
  getLocale names st' = (Return (Some "nl"), st') ∧
  (getLocale names (setLocaleGetter (fun _ => None) st')).1 = Return (Some "nl").
Proof.
  intros names st'.
  destruct (default_locale_round_trip names (Some "nl") (init (Some "en")) st'
              (fun _ => None)) as (_ & _ & Hget & st'' & Hfn & _);
    [vm_compute; reflexivity|left; reflexivity|].
  split; [apply Hget; reflexivity|]. rewrite Hfn. reflexivity.
Defined.

(** X12: a refused locale changes nothing: when [setDefaultLocale] or
    [getLocale] does not return, the bindings of the module are what
    they were, so neither the default nor the current locale ever takes
    a value that failed the check. *)
Theorem refused_locale_changes_nothing (localeNames : gmap string JSON) (l : Locale)
    (st : State) :
  ((setDefaultLocale localeNames l st).1 ≠ Return tt →
   (setDefaultLocale localeNames l st).2 = st) ∧
  ((∀ found, (getLocale localeNames st).1 ≠ Return found) →
   (getLocale localeNames st).2 = st) ∧
  (∀ found, (getLocale localeNames st).1 = Return found →
     defaultLocale (getLocale localeNames st).2 = defaultLocale st ∧
     (getter st ≠ None →
      _checkLocale localeNames found = Return tt ∧
      currentLocale (getLocale localeNames st).2 = found)).
Proof.
  split; [|split].
  - unfold setDefaultLocale.
    destruct (_checkLocale localeNames l) as [[]| |]; simpl; [congruence|reflexivity..].
  - unfold getLocale. destruct (getter st) as [fn|]; [|reflexivity].
    destruct (_checkLocale localeNames _) as [[]| |]; simpl; [|reflexivity..].
    intros Hnever. destruct (Hnever _ eq_refl).
  - intros found. unfold getLocale. destruct (getter st) as [fn|] eqn:Hgetter.
    + destruct (_checkLocale localeNames (or_default (fn tt) (defaultLocale st)))
        as [[]| |] eqn:Hcheck; simpl; try discriminate.
      intros [= <-]. auto.
    + simpl. intros [= <-]. split; [reflexivity|]. intros Hgetter'. destruct Hgetter'.
      reflexivity.
Qed.

End StateModuleExtras.

Section DefaultLocale.
Variable resolve : string → string → string.

(** X13: without a [defaultLocale] option (or with an empty one) the
    default locale is the first configured locale, ['en'] when no
    locales are given and none when the list is empty.  Once
    [buildStart] has returned, that locale has a name in [localeNames],
    and the [setDefaultLocale] of the state module accepts it if and
    only if that name is not a number too large for a double, which the
    data module exports as [null].  An explicit [defaultLocale] is taken
    as it is, configured or not. *)
Theorem default_locale_of_options cwd options :
  let P := i18nPlugin resolve cwd options in
  ((opt_defaultLocale options = None ∨ opt_defaultLocale options = Some "") →
   defaultLocale P = head (default ["en"] (opt_locales options)) ∧
   ∀ fuel w w' l st,
     buildStart resolve fuel P w = (Return tt, w') →
     defaultLocale P = Some l →
     ∃ name,
       localeNames w' !! l = Some name ∧
       ((StateModule.setDefaultLocale (exported_names w') (Some l) st).1 = Return tt ↔
        non_finite name = false)) ∧
  (∀ l, opt_defaultLocale options = Some l → l ≠ "" → defaultLocale P = Some l).
Proof.
  intros P. split.
  - intros Hnone.
    assert (defaultLocale P = head (locales P)) as Hdefault.
    { unfold P, i18nPlugin. simpl. destruct Hnone as [->| ->]; reflexivity. }
    split; [exact Hdefault|].
    intros fuel w w' l st Hrun Hl. rewrite Hdefault in Hl.
    assert (l ∈ locales P) as Hin.
    { destruct (locales P) as [|first rest]; [discriminate Hl|].
      injection Hl as ->. left. }
    destruct (buildStart_record _ _ _ _ _ _ Hrun Hin)
      as (data & name & _ & _ & Htruthy & Hname & _).
    exists name. split; [exact Hname|].
    unfold StateModule.setDefaultLocale.
    rewrite (exported_locale w' l name Hname Htruthy).
    destruct (non_finite name); simpl; split; congruence.
  - intros l Hl Hne. unfold P, i18nPlugin. simpl. rewrite Hl.
    rewrite bool_decide_eq_false_2 by exact Hne. reflexivity.
Qed.

End DefaultLocale.

(** ** The names of the emitted files *)

Lemma fmap_bind_list {A B C : Type} (g : B → C) (f : A → list B) (l : list A) :
  g <$> (l ≫= f) = l ≫= (fun x => g <$> f x).
Proof.
  induction l as [|x l IH]; [reflexivity|].
  rewrite !bind_cons, fmap_app, IH. reflexivity.
Qed.

(** A locale code holds no slash, so the code in front of the first
    slash of a path is determined by the path. *)
Lemma locale_prefix_inj (a b name name' : string) :
  LocaleCode a → LocaleCode b →
  a +:+ "/" +:+ name = b +:+ "/" +:+ name' → a = b.
Proof.
  intros [a1 a2 _ _|a1 a2 s c d _ _ Hs _ _] [b1 b2 _ _|b1 b2 s' c' d' _ _ Hs' _ _] Heq;
    injection Heq; intros; subst; try reflexivity.
  - destruct Hs' as [[=]|[=]].
  - destruct Hs as [[=]|[=]].
Qed.

Section EmittedNames.
Variable Bundle : Type.
Variable bundle_entries : Bundle → list (string * OutputFile).
Variable emitFile : EmittedFile → Bundle → Bundle.

Lemma emit_entries_files w locale entries bundle :
  (emit_entries Bundle emitFile w locale entries bundle).1 = copy_for w locale <$> entries.
Proof.
  revert bundle. induction entries as [|entry rest IH]; intros bundle; [reflexivity|].
  simpl. specialize (IH (emitFile (copy_for w locale entry) bundle)).
  destruct (emit_entries Bundle emitFile w locale rest _) as [emitted bundle'].
  simpl in *. rewrite IH. reflexivity.
Qed.

(** X14: whatever the bundler does with the emitted files, every file
    that [generateBundle] emits has a name of the form [<locale>/...]
    for a configured locale; and the files emitted first, those for the
    first configured locale, are the copies of the entries of the bundle
    as it was handed over, one for each entry and in their order. *)
Theorem emitted_below_locales (P : Plugin) (w : World) (bundle : Bundle) :
  Forall (fun file =>
            ∃ locale rest, locale ∈ locales P ∧
                           fileName file = locale +:+ "/" +:+ rest)
         (generateBundle Bundle bundle_entries emitFile P w bundle).1 ∧
  (shouldInline w = true →
   ∀ first rest, locales P = first :: rest →
     ∃ more,
       (generateBundle Bundle bundle_entries emitFile P w bundle).1 =
       (copy_for w first <$> bundle_entries bundle) ++ more).
Proof.
  split.
  - unfold generateBundle. destruct (negb (shouldInline w)); [constructor|].
    generalize (locales P) as todo. intros todo. revert bundle.
    induction todo as [|locale rest IH]; intros bundle; [constructor|].
    cbn [emit_locales].
    pose proof (emit_entries_files w locale (bundle_entries bundle) bundle) as Hfiles.
    destruct (emit_entries Bundle emitFile w locale (bundle_entries bundle) bundle)
      as [emitted bundle'].
    specialize (IH bundle').
    destruct (emit_locales Bundle bundle_entries emitFile w rest bundle')
      as [emitted' bundle''].
    cbn [fst] in *. apply Forall_app. split.
    + subst emitted. apply Forall_fmap, Forall_forall. intros [name chunk] _. simpl.
      exists locale, name. split; [left|apply fileName_copy_for].
    + eapply Forall_impl; [exact IH|]. intros file (l & r & Hin & Hname).
      exists l, r. split; [right; exact Hin|exact Hname].
  - intros Hinline first rest Hlocales. unfold generateBundle.
    rewrite Hinline, Hlocales. cbn [negb emit_locales].
    pose proof (emit_entries_files w first (bundle_entries bundle) bundle) as Hfiles.
    destruct (emit_entries Bundle emitFile w first (bundle_entries bundle) bundle)
      as [emitted bundle'].
    destruct (emit_locales Bundle bundle_entries emitFile w rest bundle')
      as [emitted' bundle''].
    cbn [fst] in *. subst emitted. eauto.
Qed.

(** X15: with a bundler whose [emitFile] leaves the entries of the
    bundle as they are, distinct configured locales and distinct file
    names in the bundle give distinct names to all emitted files: no
    copy overwrites another one. *)
Theorem emitted_names_distinct (P : Plugin) (w : World) (bundle : Bundle) :
  (∀ file b, bundle_entries (emitFile file b) = bundle_entries b) →
  Forall LocaleCode (locales P) →
  NoDup (locales P) →
  NoDup (bundle_entries bundle).*1 →
  NoDup (fileName <$> (generateBundle Bundle bundle_entries emitFile P w bundle).1).
Proof.
  intros Hhost Hvalid Hlocales Hnames. unfold generateBundle.
  destruct (negb (shouldInline w)); [constructor|].
  rewrite (emit_locales_spec _ _ _ Hhost), fmap_bind_list.
  assert (∀ locale, fileName <$> (copy_for w locale <$> bundle_entries bundle) =
                    (fun name => locale +:+ "/" +:+ name) <$> (bundle_entries bundle).*1)
    as Hcopy.
  { intros locale. rewrite <- !list_fmap_compose. apply list_fmap_ext.
    intros _ [name chunk] _. apply fileName_copy_for. }
  apply NoDup_bind; [| |exact Hlocales].
  - intros l1 l2 path Hl1 Hl2. rewrite !Hcopy.
    intros (n1 & -> & _)%list_elem_of_fmap (n2 & Heq & _)%list_elem_of_fmap.
    eapply locale_prefix_inj; [| |exact Heq];
      (eapply Forall_forall; [exact Hvalid|assumption]).
  - intros locale _. rewrite Hcopy. apply NoDup_fmap_2; [|exact Hnames].
    intros n1 n2 Heq. apply (inj (String.app locale)) in Heq.
    apply (inj (String.app "/")) in Heq. exact Heq.
Qed.

End EmittedNames.

Lemma emitted_names_distinct_witness :
  let P := plugin_for ["en"; "nl_NL"] in
  let w := set_shouldInline true (fresh ∅) in
  NoDup (fileName <$> (generateBundle _ id emit_aside P w bundle_demo).1) ∧
  length (generateBundle _ id emit_aside P w bundle_demo).1 = 4.
Proof.
  intros P w. split; [|reflexivity].
  apply (emitted_names_distinct _ id emit_aside P w bundle_demo).
  - reflexivity.
  - repeat constructor; apply exec_locale_spec; vm_compute; eauto.
  - apply (bool_decide_unpack _). vm_compute. exact I.
  - apply (bool_decide_unpack _). vm_compute. exact I.
Defined.

(** ** [buildStart] starts from the files alone *)

Section FromScratch.
Variable resolve : string → string → string.
Variable P : Plugin.

Lemma processLocale_same_disk fuel fallbacks locale w w2 :
  disk w2 = disk w →
  let r := processLocale resolve fuel P fallbacks locale w in
  let r2 := processLocale resolve fuel P fallbacks locale w2 in
  r2.1 = r.1 ∧ disk r2.2 = disk r.2 ∧
  (translations w2 = translations w → translations r2.2 = translations r.2) ∧
  (pluralKeys w2 = pluralKeys w → pluralKeys r2.2 = pluralKeys r.2) ∧
  (localeNames w2 = localeNames w → localeNames r2.2 = localeNames r.2).
Proof.
  intros Hdisk r r2. subst r r2. rewrite !processLocale_unfold.
  destruct (exec_locale locale) as [[lang region]|]; [|simpl; auto].
  cbv zeta. rewrite Hdisk.
  destruct (disk w !! localeFile_of resolve P locale) as [text|].
  - destruct (check_existing _ _ _ _ _ _ _ _) as [[data fb]| |]; simpl; auto.
    destruct (Object_entries _); simpl;
      (split; [reflexivity|]); (split; [exact Hdisk|]);
      repeat split; intros ->; reflexivity.
  - simpl. repeat split; try reflexivity; intros ->; reflexivity.
Qed.

Lemma for_locales_same_disk fuel todo fallbacks w w2 :
  disk w2 = disk w →
  let r := for_locales resolve fuel P todo fallbacks w in
  let r2 := for_locales resolve fuel P todo fallbacks w2 in
  r2.1 = r.1 ∧ disk r2.2 = disk r.2 ∧
  (translations w2 = translations w → translations r2.2 = translations r.2) ∧
  (pluralKeys w2 = pluralKeys w → pluralKeys r2.2 = pluralKeys r.2) ∧
  (localeNames w2 = localeNames w → localeNames r2.2 = localeNames r.2).
Proof.
  revert fallbacks w w2. induction todo as [|locale rest IH]; intros fallbacks w w2 Hdisk;
    [simpl; auto|].
  cbv zeta. rewrite !for_locales_cons.
  pose proof (processLocale_same_disk fuel fallbacks locale w w2 Hdisk)
    as (Hout & Hdisk1 & Htr & Hkeys & Hnames).
  destruct (processLocale resolve fuel P fallbacks locale w) as [o w1].
  destruct (processLocale resolve fuel P fallbacks locale w2) as [o2 w21].
  simpl in *. subst o2.
  destruct o as [fb1| |]; simpl; auto.
  destruct (IH fb1 w1 w21 Hdisk1) as (Hout' & Hdisk' & Htr' & Hkeys' & Hnames').
  auto 10.
Qed.

(** X17: [buildStart] does not look at what [translations] and
    [pluralKeys] held before: started on the same files it has the same
    outcome and leaves the same files, translations and plural keys;
    [localeNames], which it does not reset, comes out the same when it
    was the same before. *)
Theorem buildStart_from_scratch fuel w w2 :
  disk w2 = disk w →
  (buildStart resolve fuel P w2).1 = (buildStart resolve fuel P w).1 ∧
  disk (buildStart resolve fuel P w2).2 = disk (buildStart resolve fuel P w).2 ∧
  translations (buildStart resolve fuel P w2).2 =
    translations (buildStart resolve fuel P w).2 ∧
  pluralKeys (buildStart resolve fuel P w2).2 = pluralKeys (buildStart resolve fuel P w).2 ∧
  (localeNames w2 = localeNames w →
   localeNames (buildStart resolve fuel P w2).2 =
   localeNames (buildStart resolve fuel P w).2).
Proof.
  intros Hdisk. rewrite !buildStart_unfold.
  pose proof (for_locales_same_disk fuel (locales P) ∅ (reset w) (reset w2) Hdisk)
    as (Hout & Hdisk' & Htr & Hkeys & Hnames).
  destruct (for_locales resolve fuel P (locales P) ∅ (reset w)) as [o w1].
  destruct (for_locales resolve fuel P (locales P) ∅ (reset w2)) as [o2 w21].
  simpl in *. subst o2.
  specialize (Htr eq_refl). specialize (Hkeys eq_refl).
  destruct o; simpl; auto.
Qed.

End FromScratch.

Lemma buildStart_from_scratch_witness :
  let P := plugin_for ["en"; "nl"] in
  let stale :=
    set_pluralKeys {["gone"]}
      (set_translations (<["fr" := JObj ∅]> ∅) (fresh files_items)) in
  disk stale = disk (fresh files_items) ∧
  translations (buildStart join_path 1 P stale).2 !! "fr" = None ∧
  pluralKeys (buildStart join_path 1 P stale).2 =
    pluralKeys (buildStart join_path 1 P (fresh files_items)).2.
Proof.
  intros P stale.
  destruct (buildStart_from_scratch join_path P 1 (fresh files_items) stale eq_refl)
    as (_ & _ & Htr & Hkeys & _).
  split; [reflexivity|]. split; [|exact Hkeys].
  rewrite Htr. vm_compute. reflexivity.
Defined.

(** ** The three ways of the fallback walk *)

Section Walk.
Variable resolve : string → string → string.
Variable P : Plugin.

(** X18: for a locale file that passes the checks and falls back to a
    configured locale, the round goes one of three ways, decided by the
    entry of the target in [fallbacks]: without an entry the fallback
    is recorded and the record registered; with the current locale as
    entry the round throws the circular-fallback error naming the file;
    with any other entry the round never ends. *)
Theorem fallback_walk_outcomes fallbacks w locale lang region doc target entries :
  exec_locale locale = Some (lang, region) →
  disk w !! localeFile_of resolve P locale = Some (Json doc) →
  field doc "locale" = Own (JStr locale) →
  field doc "fallback" = Own (JStr target) →
  target ≠ "" → target ∈ locales P →
  Object_entries (field doc "translations") = Some entries →
  (obj_get fallbacks target = Undefined →
   ∀ fuel, processLocale resolve (S fuel) P fallbacks locale w =
           (Return (<[locale := target]> fallbacks),
            registered locale (backfill locale lang region doc) entries w)) ∧
  (fallbacks !! target = Some locale →
   ∀ fuel, processLocale resolve (S fuel) P fallbacks locale w =
           (Throw (CircularFallback (localeFile_of resolve P locale) target), w)) ∧
  (∀ next, fallbacks !! target = Some next → next ≠ "" → next ≠ locale →
   ∀ fuel, processLocale resolve fuel P fallbacks locale w = (OutOfFuel, w)).
Proof.
  intros Hexec Hfile Hlocale Hfallback Htarget Hin Hentries.
  assert (doc ≠ JNull) as Hdoc by (intros ->; discriminate Hlocale).
  pose proof (exec_locale_nonempty _ _ _ Hexec) as Hne.
  assert (∀ fuel, processLocale resolve fuel P fallbacks locale w =
            match check_fallback fuel (locales P) fallbacks locale
                    (localeFile_of resolve P locale) (backfill locale lang region doc) with
            | Return (data, fallbacks') =>
                match Object_entries (field data "translations") with
                | None =>
                    (Throw (TypeError "Cannot convert undefined or null to object"),
                     set_translations (<[locale := data]> (translations w))
                       (set_localeNames
                          (assign (localeNames w) locale (field data "name")) w))
                | Some entries' => (Return fallbacks', registered locale data entries' w)
                end
            | Throw e => (Throw e, w)
            | OutOfFuel => (OutOfFuel, w)
            end) as Hround.
  { intros fuel. rewrite processLocale_unfold, Hexec. cbv zeta. rewrite Hfile.
    rewrite check_existing_parsed by exact Hdoc.
    rewrite Hlocale. cbn [strict_ne_locale].
    rewrite bool_decide_eq_true_2 by reflexivity. reflexivity. }
  assert (field (backfill locale lang region doc) "fallback" = Own (JStr target))
    as Hfallback' by (rewrite field_backfill_other by discriminate; exact Hfallback).
  split; [|split].
  - intros Hfree fuel. rewrite Hround.
    rewrite (check_fallback_first _ _ _ _ _ _ _ Hfallback' Htarget Hin Hfree).
    rewrite field_backfill_other by discriminate. rewrite Hentries. reflexivity.
  - intros Hback fuel. rewrite Hround.
    rewrite (check_fallback_circular _ _ _ _ _ _ _ Hfallback' Htarget Hin Hback Hne).
    reflexivity.
  - intros next Hnext Hnonempty Hother fuel. rewrite Hround.
    rewrite (check_fallback_hangs _ _ _ _ _ _ _ _ Hfallback' Htarget Hin Hnext
               Hnonempty Hother).
    reflexivity.
Qed.

End Walk.

Lemma fallback_walk_outcomes_witness :
  processLocale join_path 7 (plugin_for ["en"; "nl"; "de"]) (<["nl" := "en"]> ∅) "de"
    (for_locales join_path 1 (plugin_for ["en"; "nl"; "de"]) ["en"; "nl"] ∅
       (reset (fresh files_chain))).2 =
  (OutOfFuel,
   (for_locales join_path 1 (plugin_for ["en"; "nl"; "de"]) ["en"; "nl"] ∅
      (reset (fresh files_chain))).2).
Proof.
  destruct (fallback_walk_outcomes join_path (plugin_for ["en"; "nl"; "de"])
              (<["nl" := "en"]> ∅)
              (for_locales join_path 1 (plugin_for ["en"; "nl"; "de"]) ["en"; "nl"] ∅
                 (reset (fresh files_chain))).2
              "de" "de" None
              (JObj (<["locale" := JStr "de"]>
                     (<["fallback" := JStr "nl"]> (<["translations" := JObj ∅]> ∅))))
              "nl" []) as (_ & _ & Hhang).
  - reflexivity.
  - vm_compute. reflexivity.
  - vm_compute. reflexivity.
  - vm_compute. reflexivity.
  - discriminate.
  - repeat constructor.
  - vm_compute. reflexivity.
  - apply (Hhang "en"); [vm_compute; reflexivity|discriminate|discriminate].
Defined.

(** ** What [buildStart] writes *)

Section Writes.
Variable resolve : string → string → string.
Variable P : Plugin.

Lemma processLocale_writes fuel fallbacks locale w path text :
  disk w !! path = None →
  disk (processLocale resolve fuel P fallbacks locale w).2 !! path = Some text →
  ∃ lang region,
    exec_locale locale = Some (lang, region) ∧
    path = localeFile_of resolve P locale ∧
    text = JSON_stringify (default_data locale lang region).
Proof.
  intros Hnone. rewrite processLocale_unfold.
  destruct (exec_locale locale) as [[lang region]|]; [|simpl; congruence].
  cbv zeta.
  destruct (disk w !! localeFile_of resolve P locale) as [text'|] eqn:Hfile.
  - destruct (check_existing _ _ _ _ _ _ _ _) as [[data fb]| |]; simpl; try congruence.
    destruct (Object_entries _); simpl; congruence.
  - simpl. rewrite lookup_insert. case_decide as Hpath; [|congruence].
    intros [= <-]. eauto.
Qed.

Lemma for_locales_writes fuel todo fallbacks w path text :
  disk w !! path = None →
  disk (for_locales resolve fuel P todo fallbacks w).2 !! path = Some text →
  ∃ locale lang region,
    locale ∈ todo ∧
    exec_locale locale = Some (lang, region) ∧
    path = localeFile_of resolve P locale ∧
    text = JSON_stringify (default_data locale lang region).
Proof.
  revert fallbacks w. induction todo as [|locale rest IH]; intros fallbacks w Hnone;
    [simpl; congruence|].
  rewrite for_locales_cons.
  pose proof (processLocale_writes fuel fallbacks locale w path) as Hstep.
  destruct (processLocale resolve fuel P fallbacks locale w) as [[fb1| |] w1] eqn:Hround;
    simpl in Hstep.
  - destruct (disk w1 !! path) as [text1|] eqn:Hpath1.
    + intros Hfinal.
      pose proof (for_locales_disk resolve fuel P rest fb1 w1) as Hmono.
      rewrite (lookup_weaken _ _ _ _ Hpath1 Hmono) in Hfinal. injection Hfinal as <-.
      destruct (Hstep text1 Hnone eq_refl) as (lang & region & ? & ? & ?).
      exists locale, lang, region. split; [left|auto].
    + intros (l & lang & region & Hin & ?)%IH; [|exact Hpath1].
      exists l, lang, region. split; [right; exact Hin|auto].
  - intros (lang & region & ? & ? & ?)%Hstep; [|exact Hnone].
    exists locale, lang, region. split; [left|auto].
  - intros (lang & region & ? & ? & ?)%Hstep; [|exact Hnone].
    exists locale, lang, region. split; [left|auto].
Qed.

(** X19: whatever its outcome, the only files that [buildStart] adds
    are the locale files of configured locales, each holding the
    default record of its locale. *)
Theorem written_files_are_defaults fuel w path text :
  disk w !! path = None →
  disk (buildStart resolve fuel P w).2 !! path = Some text →
  ∃ locale lang region,
    locale ∈ locales P ∧
    exec_locale locale = Some (lang, region) ∧
    path = localeFile_of resolve P locale ∧
    text = JSON_stringify (default_data locale lang region).
Proof.
  intros Hnone. rewrite buildStart_unfold.
  pose proof (for_locales_writes fuel (locales P) ∅ (reset w) path text Hnone) as Hloop.
  destruct (for_locales resolve fuel P (locales P) ∅ (reset w)) as [[fb| |] w1];
    exact Hloop.
Qed.

End Writes.

Lemma written_files_are_defaults_witness :
  let P := plugin_for ["nl"; "en"; "de"] in
  let after := (buildStart join_path 1 P (fresh files_mismatch)).2 in
  disk (fresh files_mismatch) !! "/app/i18n/nl.json" = None ∧
  disk after !! "/app/i18n/nl.json" = Some (Json (default_data "nl" "nl" None)) ∧
  ∃ locale lang region,
    locale ∈ locales P ∧ exec_locale locale = Some (lang, region) ∧
    "/app/i18n/nl.json" = localeFile_of join_path P locale ∧
    Json (default_data "nl" "nl" None) = JSON_stringify (default_data locale lang region).
Proof.
  intros P after.
  assert (disk (fresh files_mismatch) !! "/app/i18n/nl.json" = None) as Hnone
    by (vm_compute; reflexivity).
  assert (disk after !! "/app/i18n/nl.json" = Some (Json (default_data "nl" "nl" None)))
    as Hafter by (vm_compute; reflexivity).
  split; [exact Hnone|]. split; [exact Hafter|].
  exact (written_files_are_defaults join_path P 1 (fresh files_mismatch)
           "/app/i18n/nl.json" (Json (default_data "nl" "nl" None)) Hnone Hafter).
Defined.
